(** * Calibration solver and track renderer: a shallow embedding

    The development follows [src/js/generate_map.js] (projection,
    homography, corner calibration), [src/js/lib/mapdump.js] (speed
    series, bounds, down-scaling, rendering) and
    [src/static_assets/scripts/dashboard/map_edit.js] (file-name
    convention, calibration-string validator, affine solver).

    JavaScript numbers are modelled over exact arithmetic: a number is a
    real number, one of the two infinities, or NaN.  Finite arithmetic is
    exact (no rounding); the IEEE-754 rules are kept for everything that
    leaves the finite range: division by zero, arithmetic on infinities,
    NaN propagation and the comparisons with NaN.  Zero carries no sign
    (it behaves as +0).

    Rounding is thereby left out.  Where the last digits of a double
    decide more than the last digits of a result, the statements keep
    away from the inputs concerned: the haversine term of
    [LatLon.distance] can exceed 1 between antipodal points once it is
    rounded, the determinants of a singular calibration need not cancel
    to 0, and [scaleImage] floors a rounded product. *)

From Stdlib Require Import Reals Lra Lia ZArith List Bool Ascii String Psatz.
Import ListNotations.

Set Implicit Arguments.
Set Warnings "-register-all".

(* ================================================================== *)
(** ** JavaScript numbers *)
(* ================================================================== *)

Module JS.

Local Open Scope R_scope.

Inductive num : Type :=
  | Fin (r : R)
  | PInf
  | NInf
  | NaN.

Definition Rltb (a b : R) : bool := if Rlt_dec a b then true else false.
Definition Rleb (a b : R) : bool := if Rle_dec a b then true else false.
Definition Reqb (a b : R) : bool := if Req_dec_T a b then true else false.

(** The sign of a finite non-zero factor decides the sign of an
    infinite product or quotient; a zero factor gives NaN. *)
Definition signed_inf (r : R) (pos : bool) : num :=
  if Reqb r 0 then NaN
  else if Rltb 0 r then (if pos then PInf else NInf)
  else (if pos then NInf else PInf).

Definition jneg (a : num) : num :=
  match a with
  | Fin r => Fin (- r)
  | PInf => NInf
  | NInf => PInf
  | NaN => NaN
  end.

Definition jadd (a b : num) : num :=
  match a, b with
  | NaN, _ | _, NaN => NaN
  | Fin x, Fin y => Fin (x + y)
  | PInf, NInf | NInf, PInf => NaN
  | PInf, _ | _, PInf => PInf
  | NInf, _ | _, NInf => NInf
  end.

Definition jsub (a b : num) : num := jadd a (jneg b).

Definition jmul (a b : num) : num :=
  match a, b with
  | NaN, _ | _, NaN => NaN
  | Fin x, Fin y => Fin (x * y)
  | Fin x, PInf | PInf, Fin x => signed_inf x true
  | Fin x, NInf | NInf, Fin x => signed_inf x false
  | PInf, PInf | NInf, NInf => PInf
  | PInf, NInf | NInf, PInf => NInf
  end.

Definition jdiv (a b : num) : num :=
  match a, b with
  | NaN, _ | _, NaN => NaN
  | Fin x, Fin y => if Reqb y 0 then signed_inf x true else Fin (x / y)
  | Fin _, PInf | Fin _, NInf => Fin 0
  | PInf, Fin y => if Rltb y 0 then NInf else PInf
  | NInf, Fin y => if Rltb y 0 then PInf else NInf
  | PInf, _ | NInf, _ => NaN
  end.

(** [x ** n] for a literal natural exponent [n]. *)
Definition jpow (a : num) (n : nat) : num :=
  match n with
  | O => Fin 1
  | S _ =>
      match a with
      | Fin r => Fin (r ^ n)
      | PInf => PInf
      | NInf => if Nat.even n then PInf else NInf
      | NaN => NaN
      end
  end.

(** Comparisons: every comparison with NaN is false. *)
Definition jlt (a b : num) : bool :=
  match a, b with
  | NaN, _ | _, NaN => false
  | Fin x, Fin y => Rltb x y
  | NInf, Fin _ | NInf, PInf | Fin _, PInf => true
  | _, _ => false
  end.

Definition jgt (a b : num) : bool := jlt b a.

Definition jle (a b : num) : bool :=
  match a, b with
  | NaN, _ | _, NaN => false
  | Fin x, Fin y => Rleb x y
  | NInf, _ | _, PInf => true
  | _, _ => false
  end.

Definition jge (a b : num) : bool := jle b a.

Definition isNaN (a : num) : bool :=
  match a with NaN => true | _ => false end.

(** [Math.max] and [Math.min] of two arguments: NaN is contagious. *)
Definition Math_max (a b : num) : num :=
  match a, b with
  | NaN, _ | _, NaN => NaN
  | _, _ => if jlt a b then b else a
  end.

Definition Math_min (a b : num) : num :=
  match a, b with
  | NaN, _ | _, NaN => NaN
  | _, _ => if jlt b a then b else a
  end.

Definition Math_floor (a : num) : num :=
  match a with Fin r => Fin (IZR (Zfloor r)) | _ => a end.

Definition Math_ceil (a : num) : num :=
  match a with Fin r => Fin (IZR (Zceil r)) | _ => a end.

(** [Math.round] rounds half-way cases up. *)
Definition Math_round (a : num) : num :=
  match a with Fin r => Fin (IZR (Zfloor (r + / 2))) | _ => a end.

Definition Math_sqrt (a : num) : num :=
  match a with
  | Fin r => if Rltb r 0 then NaN else Fin (sqrt r)
  | PInf => PInf
  | _ => NaN
  end.

Definition Math_sin (a : num) : num :=
  match a with Fin r => Fin (sin r) | _ => NaN end.

Definition Math_cos (a : num) : num :=
  match a with Fin r => Fin (cos r) | _ => NaN end.

(** The tangent is the quotient of sine and cosine, so that a pole gives
    an infinity as a division by zero does. *)
Definition Math_tan (a : num) : num :=
  match a with Fin r => jdiv (Fin (sin r)) (Fin (cos r)) | _ => NaN end.

Definition Math_log (a : num) : num :=
  match a with
  | Fin r => if Rltb r 0 then NaN else if Reqb r 0 then NInf else Fin (ln r)
  | PInf => PInf
  | _ => NaN
  end.

(** [Math.atan2 y x] on reals, with the result in (-PI, PI]. *)
Definition atan2R (y x : R) : R :=
  if Rltb 0 x then atan (y / x)
  else if Rltb x 0 then
    (if Rltb y 0 then atan (y / x) - PI else atan (y / x) + PI)
  else if Rltb 0 y then PI / 2
  else if Rltb y 0 then - (PI / 2)
  else 0.

Definition Math_atan2 (y x : num) : num :=
  match y, x with
  | NaN, _ | _, NaN => NaN
  | Fin a, Fin b => Fin (atan2R a b)
  | Fin a, PInf => Fin 0
  | Fin a, NInf => if Rltb a 0 then Fin (- PI) else Fin PI
  | PInf, Fin _ => Fin (PI / 2)
  | NInf, Fin _ => Fin (- (PI / 2))
  | PInf, PInf => Fin (PI / 4)
  | PInf, NInf => Fin (3 * PI / 4)
  | NInf, PInf => Fin (- (PI / 4))
  | NInf, NInf => Fin (- (3 * PI / 4))
  end.

Definition Math_atan (a : num) : num :=
  match a with
  | Fin r => Fin (atan r)
  | PInf => Fin (PI / 2)
  | NInf => Fin (- (PI / 2))
  | NaN => NaN
  end.

Definition Math_exp (a : num) : num :=
  match a with
  | Fin r => Fin (exp r)
  | PInf => PInf
  | NInf => Fin 0
  | NaN => NaN
  end.

(** Truthiness of a number in a condition: 0 and NaN are falsy. *)
Definition truthy (a : num) : bool :=
  match a with
  | Fin r => negb (Reqb r 0)
  | NaN => false
  | _ => true
  end.

Definition finite (a : num) : Prop := exists r, a = Fin r.

Definition ofZ (z : Z) : num := Fin (IZR z).
Definition ofNat (n : nat) : num := Fin (INR n).

End JS.

Export JS.

Declare Scope js_scope.
Delimit Scope js_scope with js.
Infix "+" := jadd : js_scope.
Infix "-" := jsub : js_scope.
Infix "*" := jmul : js_scope.
Infix "/" := jdiv : js_scope.

(* ================================================================== *)
(** ** generate_map.js: points, projection, homography *)
(* ================================================================== *)

Module Geo.

Local Open Scope js_scope.

Record Point : Type := mkPoint { px : num; py : num }.

Record LatLon : Type := mkLatLon { lat : num; lon : num }.

Definition Math_PI : num := Fin PI.

(** [LatLon.prototype.distance].  Over exact arithmetic the haversine
    term [a] of finite coordinates stays within 0 and 1; rounded, it can
    exceed 1 between antipodal points, and [Math.sqrt(1 - a)] is then
    NaN. *)
Definition distance (this coordinates : LatLon) : num :=
  let C := Math_PI / Fin 180 in
  let dlat := lat this - lat coordinates in
  let dlon := lon this - lon coordinates in
  let a :=
    jpow (Math_sin ((C * dlat) / Fin 2)) 2 +
    Math_cos (C * lat this) *
      Math_cos (C * lat coordinates) *
      jpow (Math_sin ((C * dlon) / Fin 2)) 2 in
  Fin 12756274 * Math_atan2 (Math_sqrt a) (Math_sqrt (Fin 1 - a)).

(** [SpheroidProjection] *)
Definition pi : num := Math_PI.
Definition number180 : num := Fin 180.
Definition rad : num := Fin 6378137.
Definition originShift : num := pi * rad.
Definition pi_180 : num := pi / number180.

Definition LatLonToMeters (coordinates : LatLon) : Point :=
  mkPoint
    (lon coordinates * rad * pi_180)
    (Math_log (Math_tan (((Fin 90 + lat coordinates) * pi_180) / Fin 2)) * rad).

Definition MetersToLatLon (mxy : Point) : LatLon :=
  mkLatLon
    ((Fin 2 * Math_atan (Math_exp (py mxy / rad)) - pi / Fin 2) / pi_180)
    (px mxy / rad / pi_180).

Definition resolution (zoom : nat) : num :=
  (Fin 2 * originShift) / (Fin 256 * jpow (Fin 2) zoom).

(** The loop [for (let i = 0; i < 30; i++)] of [zoomForPixelSize], run
    from [i] for [n] more rounds.  [None] is the [undefined] the
    function yields when it falls off the loop. *)
Fixpoint zoomLoop (pixelSize : num) (i : nat) (n : nat) : option Z :=
  match n with
  | O => None
  | S n' =>
      if jgt pixelSize (resolution i)
      then Some (Z.max (Z.of_nat i - 1) 0)
      else zoomLoop pixelSize (S i) n'
  end.

Definition zoomForPixelSize (pixelSize : num) : option Z :=
  zoomLoop pixelSize 0 30.

(** Matrices are flat arrays of nine numbers; reading past the end of an
    array gives [undefined], which arithmetic turns into NaN. *)
Definition idx (m : list num) (i : nat) : num := nth i m NaN.

Definition adj (m : list num) : list num :=
  [ idx m 4 * idx m 8 - idx m 5 * idx m 7;
    idx m 2 * idx m 7 - idx m 1 * idx m 8;
    idx m 1 * idx m 5 - idx m 2 * idx m 4;
    idx m 5 * idx m 6 - idx m 3 * idx m 8;
    idx m 0 * idx m 8 - idx m 2 * idx m 6;
    idx m 2 * idx m 3 - idx m 0 * idx m 5;
    idx m 3 * idx m 7 - idx m 4 * idx m 6;
    idx m 1 * idx m 6 - idx m 0 * idx m 7;
    idx m 0 * idx m 4 - idx m 1 * idx m 3 ].

(** [multmm]: the entry [c[3*i+j]] accumulates from 0 over [k]. *)
Definition multmm_entry (a b : list num) (i j : nat) : num :=
  fold_left
    (fun cij k => cij + idx a (3 * i + k) * idx b (3 * k + j))
    [0; 1; 2]%nat (Fin 0).

Definition multmm (a b : list num) : list num :=
  flat_map (fun i => map (fun j => multmm_entry a b i j) [0; 1; 2]%nat)
    [0; 1; 2]%nat.

Definition multmv (m v : list num) : list num :=
  [ idx m 0 * idx v 0 + idx m 1 * idx v 1 + idx m 2 * idx v 2;
    idx m 3 * idx v 0 + idx m 4 * idx v 1 + idx m 5 * idx v 2;
    idx m 6 * idx v 0 + idx m 7 * idx v 1 + idx m 8 * idx v 2 ].

Definition basisToPoints (x1 y1 x2 y2 x3 y3 x4 y4 : num) : list num :=
  let m := [x1; x2; x3; y1; y2; y3; Fin 1; Fin 1; Fin 1] in
  let v := multmv (adj m) [x4; y4; Fin 1] in
  multmm m [idx v 0; Fin 0; Fin 0; Fin 0; idx v 1; Fin 0; Fin 0; Fin 0; idx v 2].

Definition general2DProjection
  (x1s y1s x1d y1d x2s y2s x2d y2d x3s y3s x3d y3d x4s y4s x4d y4d : num)
  : list num :=
  let s := basisToPoints x1s y1s x2s y2s x3s y3s x4s y4s in
  let d := basisToPoints x1d y1d x2d y2d x3d y3d x4d y4d in
  multmm d (adj s).

(** [project].  On a singular calibration exact arithmetic cancels to
    0/0, which is NaN; rounded determinants can leave a small divisor and
    finite quotients instead. *)
Definition project (m : list num) (x y : num) : num * num :=
  let v := multmv m [x; y; Fin 1] in
  (idx v 0 / idx v 2, idx v 1 / idx v 2).

(** The matrix [cornerCalTransform] builds before it returns its closure. *)
Definition cornerCalMatrix (width height : num)
  (top_left top_right bottom_right bottom_left : LatLon) : list num :=
  let top_left_meters := LatLonToMeters top_left in
  let top_right_meters := LatLonToMeters top_right in
  let bottom_right_meters := LatLonToMeters bottom_right in
  let bottom_left_meters := LatLonToMeters bottom_left in
  general2DProjection
    (px top_left_meters) (py top_left_meters) (Fin 0) (Fin 0)
    (px top_right_meters) (py top_right_meters) width (Fin 0)
    (px bottom_right_meters) (py bottom_right_meters) width height
    (px bottom_left_meters) (py bottom_left_meters) (Fin 0) height.

(** [cornerCalTransform] has no [throw] and no check of its matrix: it
    always returns the closure, here the function of [latLon]. *)
Definition cornerCalTransform (width height : num)
  (top_left top_right bottom_right bottom_left : LatLon)
  : LatLon -> Point :=
  let matrix3d :=
    cornerCalMatrix width height top_left top_right bottom_right bottom_left in
  fun latLon =>
    let meters := LatLonToMeters latLon in
    let xy := project matrix3d (px meters) (py meters) in
    mkPoint (fst xy) (snd xy).

Definition getResolution (width height : num)
  (top_left top_right bottom_right bottom_left : LatLon) : num :=
  let transform :=
    cornerCalTransform width height top_left top_right bottom_right bottom_left in
  let topLeftMapXY := transform top_left in
  let topRightMapXY := transform top_right in
  let bottomRightMapXY := transform bottom_right in
  let bottomLeftMapXY := transform bottom_left in
  let top_left_meters := LatLonToMeters top_left in
  let top_right_meters := LatLonToMeters top_right in
  let bottom_right_meters := LatLonToMeters bottom_right in
  let bottom_left_meters := LatLonToMeters bottom_left in
  let resA :=
    Math_sqrt
      (jpow (px top_left_meters - px bottom_right_meters) 2 +
       jpow (py top_left_meters - py bottom_right_meters) 2) /
    Math_sqrt
      (jpow (px topLeftMapXY - px bottomRightMapXY) 2 +
       jpow (py topLeftMapXY - py bottomRightMapXY) 2) in
  let resB :=
    Math_sqrt
      (jpow (px top_right_meters - px bottom_left_meters) 2 +
       jpow (py top_right_meters - py bottom_left_meters) 2) /
    Math_sqrt
      (jpow (px topRightMapXY - px bottomLeftMapXY) 2 +
       jpow (py topRightMapXY - py bottomLeftMapXY) 2) in
  (resA + resB) / Fin 2.

(** [SpheroidProjection.pixelsToMeters] *)
Definition pixelsToMeters (px py : num) (zoom : nat) : Point :=
  let res := resolution zoom in
  let mx := px * res - originShift in
  let my := py * res - originShift in
  mkPoint mx my.

(** The matrix [cornerBackTransform] builds: pixels to meters. *)
Definition cornerBackMatrix (width height : num)
  (top_left top_right bottom_right bottom_left : LatLon) : list num :=
  let top_left_meters := LatLonToMeters top_left in
  let top_right_meters := LatLonToMeters top_right in
  let bottom_right_meters := LatLonToMeters bottom_right in
  let bottom_left_meters := LatLonToMeters bottom_left in
  general2DProjection
    (Fin 0) (Fin 0) (px top_left_meters) (py top_left_meters)
    width (Fin 0) (px top_right_meters) (py top_right_meters)
    width height (px bottom_right_meters) (py bottom_right_meters)
    (Fin 0) height (px bottom_left_meters) (py bottom_left_meters).

Definition cornerBackTransform (width height : num)
  (top_left top_right bottom_right bottom_left : LatLon)
  : Point -> LatLon :=
  let matrix3d :=
    cornerBackMatrix width height top_left top_right bottom_right bottom_left in
  fun coords =>
    let xy := project matrix3d (px coords) (py coords) in
    MetersToLatLon (mkPoint (fst xy) (snd xy)).

End Geo.

(* ================================================================== *)
(** ** Exceptions *)
(* ================================================================== *)

(** A JavaScript call either returns or throws.  The only exception the
    modelled code can raise is the [TypeError] of reading a property of
    [undefined].  The texts of the header band are kept as the values
    they print; formatting them can raise a [RangeError] in the host
    ([toISOString] on an elapsed time that is no valid date,
    [toLocaleString] with an unknown time zone), which is not modelled:
    what is stated of a pass with a header is stated of the image it
    returns, if it returns. *)
Inductive JSError : Type := TypeError.

Inductive outcome (A : Type) : Type :=
  | Returned (a : A)
  | Thrown (e : JSError).

Arguments Returned {A} a.
Arguments Thrown {A} e.

Definition bind {A B : Type} (c : outcome A) (k : A -> outcome B) : outcome B :=
  match c with
  | Returned a => k a
  | Thrown e => Thrown e
  end.

Notation "x <- c ;; k" := (bind c (fun x => k))
  (at level 61, c at next level, right associativity).

(* ================================================================== *)
(** ** lib/mapdump.js: speed series, bounds, rendering *)
(* ================================================================== *)

Module Mapdump.

Import Geo.
Local Open Scope js_scope.

(** A track point [{time, coordinates: [lat, lon]}]. *)
Record TrackPoint : Type := mkTrackPoint {
  time : num;
  coordinates : num * num
}.

Definition latLonOf (tp : TrackPoint) : LatLon :=
  mkLatLon (fst (coordinates tp)) (snd (coordinates tp)).

(** The loop [for (j = 0; j < pts.length - 1; j++) distance += ...]
    over the consecutive pairs of [pts]. *)
Fixpoint sumDistances (distance : num) (pts : list TrackPoint) : num :=
  match pts with
  | from :: (to :: _) as rest =>
      sumDistances (distance + Geo.distance (latLonOf from) (latLonOf to)) rest
  | _ => distance
  end.

(** [trackPoints.slice(start, end)] for [0 <= start]. *)
Definition slice {A : Type} (l : list A) (start stop : Z) : list A :=
  firstn (Z.to_nat (stop - start)) (skipn (Z.to_nat start) l).

(** [trackPoints[k].time]; inside the loops below [k] is in range. *)
Definition timeAt (trackPoints : list TrackPoint) (k : Z) : num :=
  match nth_error trackPoints (Z.to_nat k) with
  | Some tp => time tp
  | None => NaN
  end.

(** The body of the loop of [extractSpeed] at index [i]: the speed
    before the NaN test. *)
Definition rawSpeed (trackPoints : list TrackPoint) (i : nat) : num :=
  let minIdx := Z.max (Z.of_nat i - 10) 0 in
  let maxIdx := Z.min (minIdx + 10) (Z.of_nat (List.length trackPoints) - 1) in
  let trackPointsPortion := slice trackPoints minIdx maxIdx in
  let distance := sumDistances (Fin 0) trackPointsPortion in
  (distance / (timeAt trackPoints maxIdx - timeAt trackPoints minIdx)) * Fin 3600.

Fixpoint speedLoop (trackPoints : list TrackPoint) (indices : list nat)
  (prevSpeed : num) : list num :=
  match indices with
  | [] => []
  | i :: rest =>
      let speed := rawSpeed trackPoints i in
      let speed := if isNaN speed then prevSpeed else speed in
      speed :: speedLoop trackPoints rest speed
  end.

Definition extractSpeed (trackPoints : list TrackPoint) : list num :=
  speedLoop trackPoints (seq 0 (List.length trackPoints)) (Fin 1).

Definition extractDistance (trackPoints : list TrackPoint) : num :=
  sumDistances (Fin 0) trackPoints.

(** Images and canvases.  Of an image only the size matters here. *)
Record Image : Type := mkImage { width : num; height : num }.

Record Corners : Type := mkCorners {
  top_left : LatLon;
  top_right : LatLon;
  bottom_right : LatLon;
  bottom_left : LatLon
}.

Record Bounds : Type := mkBounds { minX : num; maxX : num; minY : num; maxY : num }.

Definition boundsStep (transform : LatLon -> Point) (b : Bounds) (tp : TrackPoint)
  : Bounds :=
  let pt := transform (latLonOf tp) in
  mkBounds
    (if jlt (px pt) (minX b) then px pt else minX b)
    (if jgt (px pt) (maxX b) then px pt else maxX b)
    (if jlt (py pt) (minY b) then py pt else minY b)
    (if jgt (py pt) (maxY b) then py pt else maxY b).

Definition extractBounds (image : Image) (cornersCoordinates : Corners)
  (trackPoints : list TrackPoint) : Bounds :=
  let transform :=
    cornerCalTransform (width image) (height image)
      (top_left cornersCoordinates) (top_right cornersCoordinates)
      (bottom_right cornersCoordinates) (bottom_left cornersCoordinates) in
  let b :=
    fold_left (boundsStep transform) trackPoints
      (mkBounds (Fin 0) (width image) (Fin 0) (height image)) in
  mkBounds (Math_floor (minX b)) (Math_ceil (maxX b))
           (Math_floor (minY b)) (Math_ceil (maxY b)).

(** [scaleImage]: the scaled canvas, used as the image of the next
    pass.  The products are exact here; the program floors the rounded
    products, which gives one pixel less where a product that is a whole
    number is rounded down. *)
Definition scaleImage (image : Image) (ratio : num) : Image :=
  mkImage (Math_floor (width image * ratio)) (Math_floor (height image * ratio)).

Definition MAX : num := Fin 32767.

(** What is drawn on a canvas, in drawing order.  Text is kept as the
    value it prints, colours as the palette entries read. *)
Inductive DrawOp : Type :=
  | FillRect (style : string) (x y w h : num)
  | DrawImage (w h : num) (dx dy dw dh : num)
  | StrokePath (lineWidth : num) (path : list (num * num))
  | ErasePath (lineWidth : num) (path : list (num * num))
  | Segment (lineWidth : num) (x0 y0 x1 y1 : num) (startRGB endRGB : list (option Z))
  | Tick (lineWidth : num) (x0 y0 x1 y1 : num)
  | Layer (alpha : num) (content : list DrawOp)
  | DrawCanvas (content : list DrawOp) (dx dy : num)
  | Legend (stops : list (list (option Z)))
  | TextSpeed (v : num)
  | TextDistanceKm (v : num)
  | TextElapsed (ms : num)
  | TextStart (t : num) (timezoneName : string)
  | TextWatermark (x y : num).

Record Canvas : Type := mkCanvas {
  cwidth : num;
  cheight : num;
  drawn : list DrawOp
}.

(** [arr[i]] for a number [i]: defined when [i] is a non-negative
    integer below the length. *)
Definition arrayGet {A : Type} (arr : list A) (i : num) : option A :=
  match i with
  | Fin r =>
      if Reqb (IZR (Zfloor r)) r && Rleb 0 r
      then nth_error arr (Z.to_nat (Zfloor r))
      else None
  | _ => None
  end.

(** [null] takes part in arithmetic as 0. *)
Definition toNumber (v : option num) : num :=
  match v with Some x => x | None => Fin 0 end.

Section Render.

(** The 1x256 RGBA gradient read back from the palette canvas. *)
Variable palette : list Z.

Definition paletteIndex (valueRelative : num) : num :=
  Math_min (Math_floor (valueRelative * Fin 256) * Fin 4)
           (ofNat (List.length palette) - Fin 4).

Definition getRGBForPercent (valueRelative : num) : list (option Z) :=
  let paletteIndex := paletteIndex valueRelative in
  [ arrayGet palette paletteIndex;
    arrayGet palette (paletteIndex + Fin 1);
    arrayGet palette (paletteIndex + Fin 2) ].

Definition relativeValue (minSpeed maxSpeed : option num) (value : num) : num :=
  let valueRelative :=
    Math_min
      (Math_max ((value - toNumber minSpeed) /
                 (toNumber maxSpeed - toNumber minSpeed)) (Fin 0))
      (Fin 0.999) in
  if isNaN valueRelative then Fin 0 else valueRelative.

Definition getRGBForValue (minSpeed maxSpeed : option num) (value : num)
  : list (option Z) :=
  getRGBForPercent (relativeValue minSpeed maxSpeed value).

(** [minSpeed] and [maxSpeed]: [null] for an empty speed series. *)
Definition speedRange (speeds : list num) : option num * option num :=
  match speeds with
  | [] => (None, None)
  | _ =>
      let n := ofNat (List.length speeds) in
      let sumSpeeds := fold_left (fun a b => a + b) speeds (Fin 0) in
      let avgSpeed := sumSpeeds / n in
      let sumVariance :=
        fold_left (fun a b => a + jpow (b - avgSpeed) 2) speeds (Fin 0) in
      let standardDev := Math_sqrt (sumVariance / n) in
      (Some (avgSpeed - standardDev), Some (avgSpeed + standardDev))
  end.

(** drawOutline: the points that get a [lineTo]. *)
Fixpoint outlinePath (transform : LatLon -> Point) (bounds : Bounds)
  (weight : num) (trackPoints : list TrackPoint) (prevPt : option Point)
  : list (num * num) :=
  match trackPoints with
  | [] => []
  | tp :: rest =>
      let pt := transform (latLonOf tp) in
      let far :=
        match prevPt with
        | None => true
        | Some prev =>
            jgt (Math_sqrt
                   (Math_round (px prev) - jpow (Math_round (px pt)) 2 +
                    (Math_round (py prev) - jpow (Math_round (py pt)) 2)))
                weight
        end in
      if far
      then (Math_round (px pt - minX bounds), Math_round (py pt - minY bounds))
             :: outlinePath transform bounds weight rest (Some pt)
      else outlinePath transform bounds weight rest prevPt
  end.

(** drawColoredPath: the loop [for (j = 1; j < trackPoints.length; j++)],
    at index [j] with the points from [j] on still to visit. *)
Fixpoint coloredPathLoop (transform : LatLon -> Point) (bounds : Bounds)
  (weight : num) (minSpeed maxSpeed : option num) (speeds : list num)
  (rest : list TrackPoint) (j : nat) (pointStart : Point) : list DrawOp :=
  match rest with
  | [] => []
  | tp :: rest' =>
      let pointEnd := transform (latLonOf tp) in
      let distanceX := px pointEnd - px pointStart in
      let distanceY := px pointEnd - px pointStart in
      let d := Math_sqrt (jpow distanceX 2 + jpow distanceY 2) in
      if jlt d (Fin 1)
      then coloredPathLoop transform bounds weight minSpeed maxSpeed speeds
             rest' (S j) pointStart
      else
        Segment weight
          (Math_round (px pointStart - minX bounds))
          (Math_round (py pointStart - minY bounds))
          (Math_round (px pointEnd - minX bounds))
          (Math_round (py pointEnd - minY bounds))
          (getRGBForValue minSpeed maxSpeed (nth (j - 1) speeds NaN))
          (getRGBForValue minSpeed maxSpeed (nth j speeds NaN))
        :: coloredPathLoop transform bounds weight minSpeed maxSpeed speeds
             rest' (S j) pointEnd
  end.

(** [trackPoints[0].coordinates] throws on an empty track. *)
Definition drawColoredPath (transform : LatLon -> Point) (bounds : Bounds)
  (weight : num) (minSpeed maxSpeed : option num) (speeds : list num)
  (trackPoints : list TrackPoint) : outcome (list DrawOp) :=
  match trackPoints with
  | [] => Thrown TypeError
  | tp0 :: rest =>
      let pointStart := transform (latLonOf tp0) in
      Returned (coloredPathLoop transform bounds weight minSpeed maxSpeed
                  speeds rest 1 pointStart)
  end.

(** The direction ticks: the loop [for (j = 1; j < trackPoints.length - 1;
    j++)] visits every point together with its two neighbours. *)
Fixpoint ticksLoop (transform : LatLon -> Point) (bounds : Bounds)
  (resolution size : num) (pts : list TrackPoint) (prevT : num) (count : nat)
  : list DrawOp :=
  match pts with
  | tpPrev :: ((tp :: (tpNext :: _)) as rest) =>
      if jge (time tp) (prevT + Fin 10000)
      then
        let lineWidth := (if Nat.eqb (count mod 6) 0 then Fin 3 else Fin 1) / resolution in
        let pointStart := transform (latLonOf tpPrev) in
        let point := transform (latLonOf tp) in
        let pointNext := transform (latLonOf tpNext) in
        let angle :=
          Math_atan2 (py pointNext - py pointStart) (px pointNext - px pointStart)
          + Math_PI / Fin 2 in
        Tick lineWidth
          (Math_round (px point - minX bounds - Math_cos angle * size))
          (Math_round (py point - minY bounds - Math_sin angle * size))
          (Math_round (px point - minX bounds + Math_cos angle * size))
          (Math_round (py point - minY bounds + Math_sin angle * size))
        :: ticksLoop transform bounds resolution size rest (time tp) (S count)
      else ticksLoop transform bounds resolution size rest prevT count
  | _ => []
  end.

Definition hasFirstTime (trackPoints : list TrackPoint) : bool :=
  match trackPoints with
  | [] => false
  | tp0 :: _ => truthy (time tp0)
  end.

Definition drawTicks (transform : LatLon -> Point) (bounds : Bounds)
  (resolution : num) (trackPoints : list TrackPoint) : list DrawOp :=
  if hasFirstTime trackPoints
  then
    let prevT := timeAt trackPoints 0 - Fin 20000 in
    let size := Math_min (Fin 3) (Fin 3 / resolution) in
    ticksLoop transform bounds resolution size trackPoints prevT 0
  else [].

(** The block [if (includeTrack) { ... }]: the two layers composited
    onto the base canvas. *)
Definition trackLayers (image : Image) (cornersCoordinates : Corners)
  (bounds : Bounds) (resolution outlineWidth weight : num)
  (minSpeed maxSpeed : option num) (speeds : list num)
  (trackPoints : list TrackPoint) : outcome (list DrawOp) :=
  let transform :=
    cornerCalTransform (width image) (height image)
      (top_left cornersCoordinates) (top_right cornersCoordinates)
      (bottom_right cornersCoordinates) (bottom_left cornersCoordinates) in
  let path := outlinePath transform bounds weight trackPoints None in
  let outline :=
    [StrokePath (weight + Fin 2 * outlineWidth) path; ErasePath weight path] in
  colored <- drawColoredPath transform bounds weight minSpeed maxSpeed speeds
               trackPoints ;;
  let ticks := drawTicks transform bounds resolution trackPoints in
  Returned [Layer (Fin 0.45) colored; Layer (Fin 0.7) (outline ++ ticks)].

(** [getSpeedText]: [s.toFixed(1)] throws on [null]. *)
Definition getSpeedText (s : option num) : outcome DrawOp :=
  match s with
  | Some v => Returned (TextSpeed v)
  | None => Thrown TypeError
  end.

Definition headerHeight : num := Fin 70.

(** The block [if (includeHeader) { ... }].  [TextElapsed] stands for
    the text of [printTime] and [TextStart] for that of [toLocaleString]
    in the time zone [timezoneName]; the RangeError that either call can
    raise is left out. *)
Definition withHeader (canvas : Canvas) (minSpeed maxSpeed : option num)
  (trackPoints : list TrackPoint) (timezoneName : string) (includeTrack : bool)
  : outcome Canvas :=
  let base :=
    [DrawCanvas (drawn canvas) (Fin 0) headerHeight;
     FillRect "#222" (Fin 0) (Fin 0) (cwidth canvas) headerHeight] in
  legend <-
    (if includeTrack && negb (Nat.eqb (List.length trackPoints) 0)
          && hasFirstTime trackPoints
     then
       minSpeedTxt <- getSpeedText minSpeed ;;
       let medSpeedTxt :=
         TextSpeed ((toNumber maxSpeed + toNumber minSpeed) / Fin 2) in
       maxSpeedTxt <- getSpeedText maxSpeed ;;
       Returned
         [Legend [getRGBForPercent (Fin 0); getRGBForPercent (Fin 0.5);
                  getRGBForPercent (Fin 1)];
          minSpeedTxt; medSpeedTxt; maxSpeedTxt]
     else Returned []) ;;
  let metrics :=
    if includeTrack && negb (Nat.eqb (List.length trackPoints) 0)
    then
      let dist := extractDistance trackPoints in
      [TextDistanceKm (dist / Fin 1000);
       TextElapsed
         (timeAt trackPoints (Z.of_nat (List.length trackPoints) - 1)
          - timeAt trackPoints 0);
       TextStart (timeAt trackPoints 0) timezoneName]
    else [] in
  Returned
    (mkCanvas (cwidth canvas) (cheight canvas + headerHeight)
       (base ++ legend ++ metrics
        ++ [TextWatermark (cwidth canvas - Fin 400) (headerHeight - Fin 17)])).

(** One pass of [drawTrackOnMap] once the bounds fit: everything after
    the size test. *)
Definition render (image : Image) (cornersCoordinates : Corners)
  (bounds : Bounds) (trackPoints : list TrackPoint) (timezoneName : string)
  (includeHeader includeTrack : bool) : outcome Canvas :=
  let resolution :=
    getResolution (width image) (height image)
      (top_left cornersCoordinates) (top_right cornersCoordinates)
      (bottom_right cornersCoordinates) (bottom_left cornersCoordinates)
    / Fin 1.702 in
  let cw := maxX bounds - minX bounds in
  let ch := maxY bounds - minY bounds in
  let background :=
    [FillRect "white" (Fin 0) (Fin 0) cw ch;
     DrawImage (width image) (height image)
       (Math_round (jneg (minX bounds))) (Math_round (jneg (minY bounds)))
       (Math_round (width image)) (Math_round (height image))] in
  let outlineWidth := Math_max (Fin 2) (Fin 2 / resolution) in
  let weight := Math_max (Fin 4) (Fin 4 / resolution) in
  let speeds := extractSpeed trackPoints in
  let minSpeed := fst (speedRange speeds) in
  let maxSpeed := snd (speedRange speeds) in
  layers <-
    (if includeTrack
     then trackLayers image cornersCoordinates bounds resolution outlineWidth
            weight minSpeed maxSpeed speeds trackPoints
     else Returned []) ;;
  let canvas := mkCanvas cw ch (background ++ layers) in
  if includeHeader
  then withHeader canvas minSpeed maxSpeed trackPoints timezoneName includeTrack
  else Returned canvas.

(** [drawTrackOnMap].  The recursion on the scaled image is bounded by
    [fuel]; [None] means the passes were used up before a pass rendered. *)
Fixpoint drawTrackOnMap (fuel : nat) (image : Image)
  (cornersCoordinates : Corners) (trackPoints : list TrackPoint)
  (timezoneName : string) (includeHeader includeTrack : bool)
  : option (outcome Canvas) :=
  match fuel with
  | O => None
  | S fuel' =>
      let bounds := extractBounds image cornersCoordinates trackPoints in
      let mWidth := maxX bounds - minX bounds in
      let mHeight := maxY bounds - minY bounds in
      if jgt mHeight MAX || jgt mWidth MAX
      then
        let scaledImg := scaleImage image (MAX / Math_max mHeight mWidth) in
        drawTrackOnMap fuel' scaledImg cornersCoordinates trackPoints
          timezoneName includeHeader includeTrack
      else
        Some (render image cornersCoordinates bounds trackPoints timezoneName
                includeHeader includeTrack)
  end.

End Render.

End Mapdump.

(* ================================================================== *)
(** ** Regular expressions *)
(* ================================================================== *)

(** The two patterns of map_edit.js use characters, the class [\d],
    concatenation, alternation, [?], [+] and bounded repetition.
    Strings are lists of characters. *)
Module Regex.

Inductive regex : Type :=
  | Void
  | Eps
  | Sym (p : ascii -> bool)
  | Cat (r1 r2 : regex)
  | Alt (r1 r2 : regex)
  | Star (r : regex).

Definition Chr (c : ascii) : regex := Sym (Ascii.eqb c).
Definition Opt (r : regex) : regex := Alt Eps r.
Definition Plus (r : regex) : regex := Cat r (Star r).

Fixpoint Rep (n : nat) (r : regex) : regex :=
  match n with
  | O => Eps
  | S n' => Cat r (Rep n' r)
  end.

Fixpoint Lit (s : list ascii) : regex :=
  match s with
  | [] => Eps
  | c :: s' => Cat (Chr c) (Lit s')
  end.

(** The language of an expression. *)
Inductive Matches : regex -> list ascii -> Prop :=
  | MEps : Matches Eps []
  | MSym p c : p c = true -> Matches (Sym p) [c]
  | MCat r1 r2 s1 s2 :
      Matches r1 s1 -> Matches r2 s2 -> Matches (Cat r1 r2) (s1 ++ s2)
  | MAltL r1 r2 s : Matches r1 s -> Matches (Alt r1 r2) s
  | MAltR r1 r2 s : Matches r2 s -> Matches (Alt r1 r2) s
  | MStar0 r : Matches (Star r) []
  | MStarS r s1 s2 :
      Matches r s1 -> Matches (Star r) s2 -> Matches (Star r) (s1 ++ s2).

(** Matching by derivatives. *)
Fixpoint nullable (r : regex) : bool :=
  match r with
  | Void => false
  | Eps => true
  | Sym _ => false
  | Cat r1 r2 => nullable r1 && nullable r2
  | Alt r1 r2 => nullable r1 || nullable r2
  | Star _ => true
  end.

Fixpoint deriv (c : ascii) (r : regex) : regex :=
  match r with
  | Void => Void
  | Eps => Void
  | Sym p => if p c then Eps else Void
  | Cat r1 r2 =>
      if nullable r1
      then Alt (Cat (deriv c r1) r2) (deriv c r2)
      else Cat (deriv c r1) r2
  | Alt r1 r2 => Alt (deriv c r1) (deriv c r2)
  | Star r1 => Cat (deriv c r1) (Star r1)
  end.

Fixpoint matches (r : regex) (s : list ascii) : bool :=
  match s with
  | [] => nullable r
  | c :: s' => matches (deriv c r) s'
  end.

(** [s.match(/r$/)]: the pattern is searched from the leftmost start
    position on; as it is anchored at the end, the matched text
    [found[0]] is the first suffix of [s] that the pattern accepts. *)
Fixpoint matchToEnd (r : regex) (s : list ascii) : option (list ascii) :=
  if matches r s then Some s
  else match s with
       | [] => None
       | _ :: s' => matchToEnd r s'
       end.

End Regex.

(* ================================================================== *)
(** ** dashboard/map_edit.js: file names, calibration strings, affine fit *)
(* ================================================================== *)

Module MapEdit.

Import Geo Regex.

Definition str (s : string) : list ascii := list_ascii_of_string s.

Definition isDigit (c : ascii) : bool :=
  (48 <=? nat_of_ascii c)%nat && (nat_of_ascii c <=? 57)%nat.

(** [[-]?\d+(\.\d+)?] *)
Definition numberRe : regex :=
  Cat (Opt (Chr "-"))
      (Cat (Plus (Sym isDigit)) (Opt (Cat (Chr ".") (Plus (Sym isDigit))))).

(** [gif|png|jpg|jpeg|webp] *)
Definition extensionRe : regex :=
  Alt (Lit (str "gif"))
    (Alt (Lit (str "png"))
       (Alt (Lit (str "jpg")) (Alt (Lit (str "jpeg")) (Lit (str "webp"))))).

(** [/(_[-]?\d+(\.\d+)?){8}_\.(gif|png|jpg|jpeg|webp)$/] *)
Definition filenameRe : regex :=
  Cat (Rep 8 (Cat (Chr "_") numberRe))
      (Cat (Chr "_") (Cat (Chr ".") extensionRe)).

(** [/^[-]?\d+(\.\d+)?(,[-]?\d+(\.\d+)?){7}$/] *)
Definition calibRe : regex :=
  Cat numberRe (Rep 7 (Cat (Chr ",") numberRe)).

(** [s.split(sep)] for a one-character separator. *)
Fixpoint split (sep : ascii) (s : list ascii) : list (list ascii) :=
  match s with
  | [] => [[]]
  | c :: s' =>
      if Ascii.eqb c sep then [] :: split sep s'
      else match split sep s' with
           | piece :: pieces => (c :: piece) :: pieces
           | [] => [[c]]
           end
  end.

(** [parts.join(sep)] *)
Fixpoint join (sep : list ascii) (parts : list (list ascii)) : list ascii :=
  match parts with
  | [] => []
  | [p] => p
  | p :: rest => p ++ sep ++ join sep rest
  end.

(** [coords.pop()] and [coords.shift()], as the array they leave. *)
Definition pop {A : Type} (l : list A) : list A := removelast l.
Definition shift {A : Type} (l : list A) : list A := tl l.

(** [extractCornersCoordsFromFilename]; [None] is the [false] returned
    when the pattern is not found. *)
Definition extractCornersCoordsFromFilename (filename : list ascii)
  : option (list ascii) :=
  match matchToEnd filenameRe filename with
  | None => None
  | Some found0 =>
      let coords := split "_" found0 in
      let coords := pop coords in
      let coords := shift coords in
      Some (join (str ",") coords)
  end.

(** [isValidCalibString]: the truth value of the match result. *)
Definition isValidCalibString (s : list ascii) : bool := matches calibRe s.

Local Open Scope js_scope.

(** A calibration point [{latLonMeters, xy}]. *)
Record CalPt : Type := mkCalPt { latLonMeters : Point; xy : Point }.

Definition solveAffineMatrix (r1 s1 t1 r2 s2 t2 r3 s3 t3 : num) : list num :=
  let a :=
    ((t2 - t3) * (s1 - s2) - (t1 - t2) * (s2 - s3)) /
    ((r2 - r3) * (s1 - s2) - (r1 - r2) * (s2 - s3)) in
  let b :=
    ((t2 - t3) * (r1 - r2) - (t1 - t2) * (r2 - r3)) /
    ((s2 - s3) * (r1 - r2) - (s1 - s2) * (r2 - r3)) in
  let c := t1 - r1 * a - s1 * b in
  [a; b; c].

(** [const e = 1e-15] *)
Definition e_value : R := 1e-15.
Definition e : num := Fin e_value.

(** The pixel coordinates as [deriveAffineTransform] leaves them: it
    nudges the points it was handed before it solves. *)
Definition nudge (a b c : CalPt) : CalPt * CalPt * CalPt :=
  (mkCalPt (latLonMeters a) (mkPoint (px (xy a) - e) (py (xy a) + e)),
   mkCalPt (latLonMeters b) (mkPoint (px (xy b) + e) (py (xy b) - e)),
   mkCalPt (latLonMeters c) (mkPoint (px (xy c) + e) (py (xy c) + e))).

(** [deriveAffineTransform]: the six coefficients, and the three points
    after the in-place update. *)
Definition deriveAffineTransform (a b c : CalPt)
  : list num * (CalPt * CalPt * CalPt) :=
  let '(a', b', c') := nudge a b c in
  let x :=
    solveAffineMatrix
      (px (xy a')) (py (xy a')) (px (latLonMeters a'))
      (px (xy b')) (py (xy b')) (px (latLonMeters b'))
      (px (xy c')) (py (xy c')) (px (latLonMeters c')) in
  let y :=
    solveAffineMatrix
      (px (xy a')) (py (xy a')) (py (latLonMeters a'))
      (px (xy b')) (py (xy b')) (py (latLonMeters b'))
      (px (xy c')) (py (xy c')) (py (latLonMeters c')) in
  (x ++ y, (a', b', c')).

(** The meters [mapXYtoLatLng] computes from the coefficients, before it
    converts them to a latitude and longitude. *)
Definition mapXYtoMeters (xyToLatLngMetersCoeffs : list num) (p : Point) : Point :=
  mkPoint
    (px p * idx xyToLatLngMetersCoeffs 0 + py p * idx xyToLatLngMetersCoeffs 1
     + idx xyToLatLngMetersCoeffs 2)
    (px p * idx xyToLatLngMetersCoeffs 3 + py p * idx xyToLatLngMetersCoeffs 4
     + idx xyToLatLngMetersCoeffs 5).

Definition mapXYtoLatLng (xyToLatLngMetersCoeffs : list num) (p : Point) : LatLon :=
  MetersToLatLon (mapXYtoMeters xyToLatLngMetersCoeffs p).

End MapEdit.

(* ================================================================== *)
(** ** dashboard/map_edit.js: the form and the calibration helper *)
(* ================================================================== *)

Module MapEditForm.

Import Geo Regex MapEdit.
Local Open Scope js_scope.

(** onPDF: the name given to the image rendered from a PDF,
    [ext = filenameRaw.split(".").pop()] and
    [filenameRaw.slice(0, filenameRaw.length - ext.length) + "jpg"]. *)
Definition pdfImageName (filenameRaw : list ascii) : list ascii :=
  let ext := last (split "." filenameRaw) [] in
  firstn (List.length filenameRaw - List.length ext) filenameRaw ++ str "jpg".

(** [[^/.]] *)
Definition notSlashDot (c : ascii) : bool :=
  negb (Ascii.eqb c "/" || Ascii.eqb c ".").

(** [/\.[^/.]+$/] *)
Definition lastExtensionRe : regex := Cat (Chr ".") (Plus (Sym notSlashDot)).

(** The default map name, [name.replace(/\.[^/.]+$/, "")]: the match, if
    any, runs to the end of the name and is removed. *)
Definition defaultName (name : list ascii) : list ascii :=
  match matchToEnd lastExtensionRe name with
  | Some found => firstn (List.length name - List.length found) name
  | None => name
  end.

(** The file has its own copies of the matrix functions of
    generate_map.js ([adjugateMatrix], [multiplyMatrices],
    [multiplyMatrixByVector] and [project] are [adj], [multmm], [multmv]
    and [project] word for word, [latlngToMeters] and [metersToLatLng]
    are [LatLonToMeters] and [MetersToLatLon]); [basisToPoints] and
    [general2DProjection] take points. *)
Definition basisToPoints (a b c d : Point) : list num :=
  let m := [px a; px b; px c; py a; py b; py c; Fin 1; Fin 1; Fin 1] in
  let v := multmv (adj m) [px d; py d; Fin 1] in
  multmm m [idx v 0; Fin 0; Fin 0; Fin 0; idx v 1; Fin 0; Fin 0; Fin 0; idx v 2].

Definition general2DProjection
  (pt1RefA pt1RefB pt2RefA pt2RefB pt3RefA pt3RefB pt4RefA pt4RefB : Point)
  : list num :=
  let refAMatrix := basisToPoints pt1RefA pt2RefA pt3RefA pt4RefA in
  let refBMatrix := basisToPoints pt1RefB pt2RefB pt3RefB pt4RefB in
  multmm refBMatrix (adj refAMatrix).

(** The state of the calibration helper that its handlers read and
    write.  A raster marker is kept as the pixel position it stands for,
    a world marker as its latitude and longitude; the two flags say
    whether the button to the second step is the enabled one and whether
    the three-points notice is shown. *)
Record Helper : Type := mkHelper {
  markersRaster : list Point;
  markersWorld : list LatLon;
  btnToPreview : bool;
  threePointsWarning : bool
}.

Definition checkCalib (s : Helper) : Helper :=
  let nWorld := List.length (markersWorld s) in
  let nRaster := List.length (markersRaster s) in
  mkHelper (markersRaster s) (markersWorld s)
    ((3 <=? nWorld)%nat && (3 <=? nRaster)%nat)
    ((3 <=? nWorld)%nat && (3 <=? nRaster)%nat
     && negb ((nWorld =? 4)%nat && (nRaster =? 4)%nat)).

Definition setRefPtsRaster (xy : Point) (s : Helper) : Helper :=
  if (List.length (markersRaster s) <? 4)%nat
  then checkCalib (mkHelper (markersRaster s ++ [xy]) (markersWorld s)
                     (btnToPreview s) (threePointsWarning s))
  else s.

Definition setRefPtsWorld (latlng : LatLon) (s : Helper) : Helper :=
  if (List.length (markersWorld s) <? 4)%nat
  then checkCalib (mkHelper (markersRaster s) (markersWorld s ++ [latlng])
                     (btnToPreview s) (threePointsWarning s))
  else s.

(** The click handlers of the two reset buttons. *)
Definition resetRasterMarkers (s : Helper) : Helper :=
  mkHelper [] (markersWorld s) false (threePointsWarning s).

Definition resetWorldMarkers (s : Helper) : Helper :=
  mkHelper (markersRaster s) [] false (threePointsWarning s).

Definition openCalibrationHelper (s : Helper) : Helper :=
  mkHelper [] [] false (threePointsWarning s).

Inductive Event : Type :=
  | ClickRaster (xy : Point)
  | ClickWorld (latlng : LatLon)
  | ResetRaster
  | ResetWorld
  | OpenHelper.

Definition handle (s : Helper) (ev : Event) : Helper :=
  match ev with
  | ClickRaster xy => setRefPtsRaster xy s
  | ClickWorld latlng => setRefPtsWorld latlng s
  | ResetRaster => resetRasterMarkers s
  | ResetWorld => resetWorldMarkers s
  | OpenHelper => openCalibrationHelper s
  end.

(** [computeCalibString] up to the corners it hands to
    [buildCalibString]: with four markers on each map the homography,
    with at least three on each the affine fit through the first three,
    and the corners as they were otherwise. *)
Definition computeCorners (s : Helper) (width height : num)
  (cornersLatLng : list LatLon) : list LatLon :=
  match markersRaster s, markersWorld s with
  | [r0; r1; r2; r3], [w0; w1; w2; w3] =>
      let matrix3d :=
        general2DProjection
          r0 (LatLonToMeters w0) r1 (LatLonToMeters w1)
          r2 (LatLonToMeters w2) r3 (LatLonToMeters w3) in
      let cornersXY :=
        [ project matrix3d (Fin 0) (Fin 0);
          project matrix3d width (Fin 0);
          project matrix3d width height;
          project matrix3d (Fin 0) height ] in
      map (fun xy => MetersToLatLon (mkPoint (fst xy) (snd xy))) cornersXY
      ++ skipn 4 cornersLatLng
  | r0 :: r1 :: r2 :: _, w0 :: w1 :: w2 :: _ =>
      let xyToLatLngMetersCoeffs :=
        fst (deriveAffineTransform
               (mkCalPt (LatLonToMeters w0) r0)
               (mkCalPt (LatLonToMeters w1) r1)
               (mkCalPt (LatLonToMeters w2) r2)) in
      [ mapXYtoLatLng xyToLatLngMetersCoeffs (mkPoint (Fin 0) (Fin 0));
        mapXYtoLatLng xyToLatLngMetersCoeffs (mkPoint width (Fin 0));
        mapXYtoLatLng xyToLatLngMetersCoeffs (mkPoint width height);
        mapXYtoLatLng xyToLatLngMetersCoeffs (mkPoint (Fin 0) height) ]
  | _, _ => cornersLatLng
  end.

End MapEditForm.

(* ================================================================== *)
(** ** Reference definitions used in the statements *)
(* ================================================================== *)

Module Ref.

Import Geo.

(** The resolution of a zoom level as a real number. *)
Definition resR (zoom : nat) : R := (2 * (PI * 6378137) / (256 * 2 ^ zoom))%R.

(** The wording of the specification for [zoomForPixelSize]: [z] is the
    smallest zoom level of 0..29 whose resolution is at most [size]. *)
Definition smallestZoomNotAbove (size : num) (z : Z) : Prop :=
  (0 <= z <= 29)%Z /\
  jle (resolution (Z.to_nat z)) size = true /\
  forall j : nat, (Z.of_nat j < z)%Z -> jle (resolution j) size = false.

End Ref.

Export Ref.

Module RefGeo.

Local Open Scope R_scope.

(** The determinant of the basis matrix [[x1 x2 x3; y1 y2 y3; 1 1 1]] of
    three points: it vanishes exactly when the points are collinear. *)
Definition det3 (x1 y1 x2 y2 x3 y3 : R) : R :=
  x1 * (y2 - y3) - x2 * (y1 - y3) + x3 * (y1 - y2).

(** The spherical Mercator coordinates of a finite longitude and of a
    finite latitude of (-90, 90), as real numbers. *)
Definition mercX (lo : R) : R := lo * 6378137 * (PI / 180).
Definition mercY (la : R) : R := ln (tan ((90 + la) * (PI / 180) / 2)) * 6378137.

(** Numbers that behave as a zero factor: 0 itself and NaN. *)
Definition zeroish (a : num) : Prop := a = NaN \/ a = Fin 0.

(** A matrix all of whose entries are zero factors; reading outside the
    array gives NaN, so the entries may be taken at every index. *)
Definition zeroMatrix (m : list num) : Prop := forall i, zeroish (Geo.idx m i).

End RefGeo.

Export RefGeo.

Module RefSpeed.

Import Geo Mapdump.
Local Open Scope js_scope.

(** The wording of the specification for the speed at index [i]: the
    distances between the consecutive points of the window from
    [max(i-10,0)] to that index plus 10 (clamped to the last index), both
    ends included, divided by the time from the first to the last point
    of the window, in km/h. *)
Definition windowSpeed (trackPoints : list TrackPoint) (i : nat) : num :=
  let minIdx := Z.max (Z.of_nat i - 10) 0 in
  let maxIdx := Z.min (minIdx + 10) (Z.of_nat (List.length trackPoints) - 1) in
  let window := slice trackPoints minIdx (maxIdx + 1) in
  (sumDistances (Fin 0) window
   / (timeAt trackPoints maxIdx - timeAt trackPoints minIdx)) * Fin 3600.

(** The haversine term [a] of [LatLon.distance] on finite coordinates. *)
Definition haversineR (la1 lo1 la2 lo2 : R) : R :=
  (sin (PI / 180 * (la1 + - la2) / 2) ^ 2 +
   cos (PI / 180 * la1) * cos (PI / 180 * la2) *
   sin (PI / 180 * (lo1 + - lo2) / 2) ^ 2)%R.

End RefSpeed.

Export RefSpeed.

Module RefBounds.

Local Open Scope R_scope.

(** The shapes the running bounds can take: a lower bound is a real
    number at most 0 or minus infinity, an upper bound is a real number
    at least [c] or plus infinity.  Neither is ever NaN. *)
Definition lowish (a : num) : Prop := a = NInf \/ exists r, a = Fin r /\ r <= 0.

Definition highish (c : R) (a : num) : Prop :=
  a = PInf \/ exists r, a = Fin r /\ c <= r.

End RefBounds.

Export RefBounds.

Module RefFilename.

Import MapEdit.

(** A non-empty run of decimal digits. *)
Definition digits (s : list ascii) : Prop :=
  s <> [] /\ Forall (fun c => isDigit c = true) s.

(** A signed decimal number: an optional minus sign, digits, and
    optionally a dot followed by digits. *)
Definition signedDecimal (s : list ascii) : Prop :=
  exists sign int frac,
    s = sign ++ int ++ frac /\
    (sign = [] \/ sign = ["-"%char]) /\
    digits int /\
    (frac = [] \/ exists f, frac = "."%char :: f /\ digits f).

(** The recognised image extensions. *)
Definition extensions : list (list ascii) :=
  [str "gif"; str "png"; str "jpg"; str "jpeg"; str "webp"].

(** The end of a file name that carries a calibration: every number is
    preceded by an underscore, and one more underscore stands between the
    last number and the dot of the extension, as in
    [_n1_n2_n3_n4_n5_n6_n7_n8_.png]. *)
Fixpoint afterUnderscore (numbers : list (list ascii)) (ext : list ascii)
  : list ascii :=
  match numbers with
  | [] => "."%char :: ext
  | n :: rest => n ++ "_"%char :: afterUnderscore rest ext
  end.

Definition conventionSuffix (numbers : list (list ascii)) (ext : list ascii)
  : list ascii :=
  "_"%char :: afterUnderscore numbers ext.

End RefFilename.

Export RefFilename.

Module RefMercator.

Local Open Scope R_scope.

(** The longitude and the latitude of finite Mercator coordinates, as
    real numbers. *)
Definition unmercX (x : R) : R := x / 6378137 / (PI / 180).
Definition unmercY (y : R) : R :=
  (2 * atan (exp (y / 6378137)) - PI / 2) / (PI / 180).

(** Coordinates that are both finite numbers. *)
Definition finiteLatLon (p : Geo.LatLon) : Prop :=
  finite (Geo.lat p) /\ finite (Geo.lon p).

End RefMercator.

Export RefMercator.

Module RefTrack.

Import Geo Mapdump.
Local Open Scope R_scope.

(** A track point whose latitude and longitude are finite numbers. *)
Definition finiteCoordinates (tp : TrackPoint) : Prop :=
  finite (fst (coordinates tp)) /\ finite (snd (coordinates tp)).

(** Timestamps that are finite numbers and strictly increase along the
    track. *)
Definition increasingTimes (trackPoints : list TrackPoint) : Prop :=
  forall i j p q,
    (i < j)%nat ->
    nth_error trackPoints i = Some p -> nth_error trackPoints j = Some q ->
    exists a b, time p = Fin a /\ time q = Fin b /\ a < b.

(** No comparison of the code puts the point [pt] outside the bounds
    [b]. *)
Definition inside (b : Bounds) (pt : Point) : Prop :=
  jlt (px pt) (minX b) = false /\ jgt (px pt) (maxX b) = false /\
  jlt (py pt) (minY b) = false /\ jgt (py pt) (maxY b) = false.

(** Mean and population standard deviation of a series of real numbers. *)
Definition sumR (vs : list R) : R := fold_right Rplus 0 vs.
Definition meanR (vs : list R) : R := sumR vs / INR (List.length vs).
Definition sumSquaredDeviations (m : R) (vs : list R) : R :=
  fold_right (fun v acc => (v - m) ^ 2 + acc) 0 vs.
Definition deviationR (vs : list R) : R :=
  sqrt (sumSquaredDeviations (meanR vs) vs / INR (List.length vs)).

(** Segments that form one connected line from [start]: each begins
    where the one before it ended. *)
Fixpoint chained (start : num * num) (ops : list DrawOp) : Prop :=
  match ops with
  | [] => True
  | Segment _ x0 y0 x1 y1 _ _ :: rest => (x0, y0) = start /\ chained (x1, y1) rest
  | _ => False
  end.

(** [Math.round] on a real number. *)
Definition roundR (r : R) : R := IZR (Zfloor (r + / 2)).

(** Two positions with latitudes from -90 to 90 that are at most 90
    degrees apart in latitude and at most 90 degrees apart in longitude.
    Their haversine term is at most 3/4, well below 1. *)
Definition withinQuarterTurn (p q : LatLon) : Prop :=
  exists la1 lo1 la2 lo2,
    p = mkLatLon (Fin la1) (Fin lo1) /\ q = mkLatLon (Fin la2) (Fin lo2) /\
    -90 <= la1 <= 90 /\ -90 <= la2 <= 90 /\
    -90 <= la1 - la2 <= 90 /\ -90 <= lo1 - lo2 <= 90.

(** A track each point of which is within a quarter turn of the next. *)
Fixpoint shortSteps (trackPoints : list TrackPoint) : Prop :=
  match trackPoints with
  | p :: ((q :: _) as rest) =>
      withinQuarterTurn (latLonOf p) (latLonOf q) /\ shortSteps rest
  | _ => True
  end.

End RefTrack.

Export RefTrack.

Module RefForm.

Import MapEditForm.

(** The numbers of a file name that carries a calibration, each followed
    by its underscore, as they stand between the first underscore and
    the dot of the extension. *)
Definition underscored (numbers : list (list ascii)) : list ascii :=
  List.concat (map (fun n => n ++ ["_"%char]) numbers).

(** What holds of the calibration helper between two events: at most
    four markers on each map, and the button to the second step enabled
    exactly when each map has at least three. *)
Definition consistent (s : Helper) : Prop :=
  (List.length (markersRaster s) <= 4)%nat /\
  (List.length (markersWorld s) <= 4)%nat /\
  btnToPreview s =
    ((3 <=? List.length (markersWorld s))%nat
     && (3 <=? List.length (markersRaster s))%nat).

End RefForm.

Export RefForm.

(* ================================================================== *)
(** * Properties *)
(* ================================================================== *)

(** ** Arithmetic of JavaScript numbers *)

Section NumFacts.

Local Open Scope R_scope.

Lemma Rltb_true a b : a < b -> Rltb a b = true.
Proof. intros H; unfold Rltb; destruct (Rlt_dec a b); [reflexivity | contradiction]. Qed.

Lemma Rltb_false a b : ~ a < b -> Rltb a b = false.
Proof. intros H; unfold Rltb; destruct (Rlt_dec a b); [contradiction | reflexivity]. Qed.

Lemma Rltb_iff a b : Rltb a b = true <-> a < b.
Proof. unfold Rltb; destruct (Rlt_dec a b); split; intros; (assumption || discriminate || reflexivity || contradiction). Qed.

Lemma Rleb_true a b : a <= b -> Rleb a b = true.
Proof. intros H; unfold Rleb; destruct (Rle_dec a b); [reflexivity | contradiction]. Qed.

Lemma Rleb_false a b : ~ a <= b -> Rleb a b = false.
Proof. intros H; unfold Rleb; destruct (Rle_dec a b); [contradiction | reflexivity]. Qed.

Lemma Rleb_iff a b : Rleb a b = true <-> a <= b.
Proof. unfold Rleb; destruct (Rle_dec a b); split; intros; (assumption || discriminate || reflexivity || contradiction). Qed.

Lemma Reqb_true a b : a = b -> Reqb a b = true.
Proof. intros H; unfold Reqb; destruct (Req_dec_T a b); [reflexivity | contradiction]. Qed.

Lemma Reqb_false a b : a <> b -> Reqb a b = false.
Proof. intros H; unfold Reqb; destruct (Req_dec_T a b); [contradiction | reflexivity]. Qed.

Lemma Reqb_refl a : Reqb a a = true.
Proof. now apply Reqb_true. Qed.

Lemma jdiv_fin a b : b <> 0 -> jdiv (Fin a) (Fin b) = Fin (a / b).
Proof. intros H; simpl; now rewrite Reqb_false. Qed.

Lemma jdiv_zero_zero : jdiv (Fin 0) (Fin 0) = NaN.
Proof. simpl. rewrite Reqb_refl. unfold signed_inf. now rewrite Reqb_refl. Qed.

Lemma jdiv_pos_zero a : 0 < a -> jdiv (Fin a) (Fin 0) = PInf.
Proof.
  intros H; simpl. rewrite Reqb_refl. unfold signed_inf.
  rewrite Reqb_false by lra. now rewrite Rltb_true.
Qed.

Lemma jlt_fin a b : jlt (Fin a) (Fin b) = Rltb a b.
Proof. reflexivity. Qed.

Lemma jle_fin a b : jle (Fin a) (Fin b) = Rleb a b.
Proof. reflexivity. Qed.

Lemma Zfloor_IZR_id z : Zfloor (IZR z) = z.
Proof. apply Zfloor_eq; lra. Qed.

Lemma Zceil_IZR_id z : Zceil (IZR z) = z.
Proof. unfold Zceil. rewrite <- opp_IZR, Zfloor_IZR_id. lia. Qed.

End NumFacts.

(** ** Tile resolution and [zoomForPixelSize] *)

Section Zoom.

Import Geo.
Local Open Scope R_scope.

Lemma resolution_fin zoom : resolution zoom = Fin (resR zoom).
Proof.
  unfold resolution, originShift, pi, Math_PI, rad, resR.
  assert (H : 256 * 2 ^ zoom <> 0).
  { apply Rmult_integral_contrapositive_currified; [lra | apply pow_nonzero; lra]. }
  destruct zoom as [|z].
  - simpl jpow. simpl jmul. rewrite jdiv_fin; [reflexivity | simpl in H; lra].
  - simpl jpow. simpl jmul. now rewrite jdiv_fin.
Qed.

Lemma resR_pos zoom : 0 < resR zoom.
Proof.
  unfold resR. apply Rdiv_lt_0_compat.
  - generalize PI_RGT_0; lra.
  - apply Rmult_lt_0_compat; [lra | apply pow_lt; lra].
Qed.

Lemma resR_half zoom : resR (S zoom) = resR zoom / 2.
Proof.
  unfold resR. simpl pow. field. apply pow_nonzero; lra.
Qed.

Lemma resR_succ_lt zoom : resR (S zoom) < resR zoom.
Proof. rewrite resR_half. generalize (resR_pos zoom); lra. Qed.

Lemma resR_antitone i j : (i <= j)%nat -> resR j <= resR i.
Proof.
  induction 1 as [|j _ IH]; [lra|].
  generalize (resR_succ_lt j); lra.
Qed.

Lemma resR_strict i j : (i < j)%nat -> resR j < resR i.
Proof.
  intros H. apply Rle_lt_trans with (resR (S i)).
  - apply resR_antitone; lia.
  - apply resR_succ_lt.
Qed.

End Zoom.

Section ZoomForPixelSize.

Import Geo.
Local Open Scope R_scope.

(** What the loop returns when started at zoom [i] with [n] rounds left. *)
Lemma zoomLoop_some s i n z :
  zoomLoop (Fin s) i n = Some z ->
  exists k, (i <= k < i + n)%nat /\ z = Z.max (Z.of_nat k - 1) 0 /\
            resR k < s /\ forall j, (i <= j < k)%nat -> s <= resR j.
Proof.
  revert i; induction n as [|n IH]; intros i H; simpl in H; [discriminate|].
  unfold jgt in H. rewrite resolution_fin, jlt_fin in H.
  destruct (Rltb (resR i) s) eqn:E.
  - inversion H; subst. exists i. repeat split; try lia.
    now apply Rltb_iff.
  - destruct (IH _ H) as (k & Hk & Hz & Hlt & Hall).
    exists k. repeat split; try lia; try assumption.
    intros j Hj. destruct (Nat.eq_dec j i) as [->|Hne].
    + apply Rnot_lt_le. intros C. apply Rltb_iff in C. congruence.
    + apply Hall; lia.
Qed.

Lemma zoomLoop_none s i n :
  zoomLoop (Fin s) i n = None ->
  forall j, (i <= j < i + n)%nat -> s <= resR j.
Proof.
  revert i; induction n as [|n IH]; intros i H j Hj; [lia|].
  simpl in H. unfold jgt in H. rewrite resolution_fin, jlt_fin in H.
  destruct (Rltb (resR i) s) eqn:E; [discriminate|].
  destruct (Nat.eq_dec j i) as [->|Hne].
  - apply Rnot_lt_le. intros C. apply Rltb_iff in C. congruence.
  - apply (IH _ H); lia.
Qed.

(** C6 (as amended): [zoomForPixelSize] returns one less than the first
    zoom level of 0..29 whose resolution is strictly below the pixel
    size, floored at 0.  So a returned [z] is the largest zoom level whose
    resolution is still at least the size (or 0 when the size is above
    the resolution of zoom 0), and nothing is returned when no zoom level
    of 0..29 has a resolution below the size. *)
Theorem zoomForPixelSize_largest_not_below (s : R) :
  match zoomForPixelSize (Fin s) with
  | Some z =>
      (0 <= z <= 28)%Z /\
      jlt (resolution (Z.to_nat z + 1)) (Fin s) = true /\
      (jle (Fin s) (resolution (Z.to_nat z)) = true \/
       (z = 0%Z /\ jlt (resolution 0) (Fin s) = true)) /\
      (forall j : nat, jle (Fin s) (resolution j) = true -> (Z.of_nat j <= z)%Z)
  | None => forall j : nat, (j < 30)%nat -> jle (Fin s) (resolution j) = true
  end.
Proof.
  destruct (zoomForPixelSize (Fin s)) as [z|] eqn:E; unfold zoomForPixelSize in E.
  - apply zoomLoop_some in E. destruct E as (k & Hk & Hz & Hlt & Hall).
    assert (Hbig : forall j : nat, jle (Fin s) (resolution j) = true -> (j < k)%nat).
    { intros j Hj. rewrite resolution_fin, jle_fin in Hj. apply Rleb_iff in Hj.
      destruct (Nat.lt_ge_cases j k) as [|Hge]; [assumption|].
      generalize (resR_antitone Hge); lra. }
    destruct k as [|k].
    + subst z. simpl. repeat split; try lia.
      * rewrite resolution_fin, jlt_fin. apply Rltb_true.
        generalize (resR_succ_lt 0); lra.
      * right. split; [reflexivity|]. rewrite resolution_fin, jlt_fin.
        now apply Rltb_true.
      * intros j Hj. apply Hbig in Hj. lia.
    + assert (Hzk : z = Z.of_nat k) by lia. clear Hz. subst z.
      rewrite Nat2Z.id. replace (k + 1)%nat with (S k) by lia.
      repeat split; try lia.
      * rewrite resolution_fin, jlt_fin. now apply Rltb_true.
      * left. rewrite resolution_fin, jle_fin. apply Rleb_true. apply Hall; lia.
      * intros j Hj. apply Hbig in Hj. lia.
  - intros j Hj. rewrite resolution_fin, jle_fin. apply Rleb_true.
    apply (zoomLoop_none _ _ E). lia.
Qed.

(** C6, counterexample: for a pixel size three quarters of the resolution
    of zoom 0 the function returns 0, although the resolution of zoom 0 is
    above that size; the smallest zoom level whose resolution is at most
    the size is 1. *)
Lemma zoomForPixelSize_not_smallest :
  zoomForPixelSize (Fin (0.75 * resR 0)) = Some 0%Z /\
  ~ smallestZoomNotAbove (Fin (0.75 * resR 0)) 0 /\
  smallestZoomNotAbove (Fin (0.75 * resR 0)) 1.
Proof.
  assert (P0 := resR_pos 0). assert (H1 := resR_half 0).
  split; [|split].
  - unfold zoomForPixelSize. simpl zoomLoop. unfold jgt.
    rewrite !resolution_fin, !jlt_fin.
    rewrite (@Rltb_false (resR 0) (0.75 * resR 0)) by lra.
    rewrite (@Rltb_true (resR 1) (0.75 * resR 0)) by lra. reflexivity.
  - intros (_ & H & _). change (Z.to_nat 0) with 0%nat in H.
    rewrite resolution_fin, jle_fin in H.
    apply Rleb_iff in H. lra.
  - split; [lia|]. split.
    + change (Z.to_nat 1) with 1%nat.
      rewrite resolution_fin, jle_fin. apply Rleb_true. lra.
    + intros j Hj. assert (j = 0%nat) by lia. subst j.
      rewrite resolution_fin, jle_fin. apply Rleb_false. lra.
Qed.

End ZoomForPixelSize.

(** ** Palette look-up: [getRGBForPercent] and [getRGBForValue] *)

Section Palette.

Import Mapdump.
Local Open Scope R_scope.

Variable palette : list Z.

(** The clamped value is a real number of [0, 0.999], whatever the
    quotient was. *)
Lemma clamp_range (q : num) :
  exists v, 0 <= v <= 0.999 /\
    (let valueRelative := Math_min (Math_max q (Fin 0)) (Fin 0.999) in
     if isNaN valueRelative then Fin 0 else valueRelative) = Fin v.
Proof.
  destruct q as [r| | |]; simpl.
  - destruct (Rltb r 0) eqn:E0; simpl.
    + rewrite Rltb_false by lra. simpl. exists 0; split; [lra|reflexivity].
    + assert (0 <= r).
      { apply Rnot_lt_le. intros C. apply Rltb_iff in C. congruence. }
      destruct (Rltb 0.999 r) eqn:E1; simpl.
      * exists 0.999; split; [lra|reflexivity].
      * exists r; split; [|reflexivity]. split; [assumption|].
        apply Rnot_lt_le. intros C. apply Rltb_iff in C. congruence.
  - exists 0.999; split; [lra|reflexivity].
  - rewrite Rltb_false by lra. simpl. exists 0; split; [lra|reflexivity].
  - exists 0; split; [lra|reflexivity].
Qed.

Lemma relativeValue_range minSpeed maxSpeed value :
  exists v, 0 <= v <= 0.999 /\ relativeValue minSpeed maxSpeed value = Fin v.
Proof. unfold relativeValue. apply clamp_range. Qed.

Lemma arrayGet_int {A : Type} (arr : list A) (i : Z) (r : R) :
  r = IZR i -> (0 <= i)%Z ->
  arrayGet arr (Fin r) = nth_error arr (Z.to_nat i).
Proof.
  intros -> Hi. unfold arrayGet. rewrite Zfloor_IZR_id, Reqb_refl.
  rewrite Rleb_true by (apply IZR_le; assumption). reflexivity.
Qed.

Lemma nth_error_defined {A : Type} (arr : list A) (n : nat) :
  (n < List.length arr)%nat -> exists x, nth_error arr n = Some x.
Proof.
  intros H. destruct (nth_error arr n) eqn:E; [eauto|].
  apply nth_error_None in E. lia.
Qed.

(** The index computed for a value of [0, 0.999] is a multiple-of-one
    integer between 0 and [palette.length - 4]. *)
Lemma paletteIndex_range v :
  (4 <= List.length palette)%nat -> 0 <= v <= 0.999 ->
  exists i : Z, (0 <= i <= Z.of_nat (List.length palette) - 4)%Z /\
                paletteIndex palette (Fin v) = Fin (IZR i).
Proof.
  intros Hlen Hv. unfold paletteIndex, ofNat. simpl jmul. simpl jsub.
  set (k := Zfloor (v * 256)).
  assert (Hk : (0 <= k)%Z).
  { apply Zfloor_lub. simpl. lra. }
  assert (HL : INR (List.length palette) + - (4) = IZR (Z.of_nat (List.length palette) - 4)).
  { rewrite minus_IZR, <- INR_IZR_INZ. lra. }
  rewrite HL.
  replace (IZR k * 4) with (IZR (k * 4)) by (rewrite mult_IZR; reflexivity).
  unfold Math_min. rewrite jlt_fin.
  destruct (Rltb (IZR (Z.of_nat (List.length palette) - 4)) (IZR (k * 4))) eqn:E.
  - exists (Z.of_nat (List.length palette) - 4)%Z. split; [lia|reflexivity].
  - exists (k * 4)%Z. split; [|reflexivity]. split; [lia|].
    apply le_IZR. apply Rnot_lt_le. intros C. apply Rltb_iff in C. congruence.
Qed.

(** C10: for every value, NaN and the infinities included, and whatever
    [minSpeed] and [maxSpeed] are ([null] included), the palette index is
    an integer between 0 and [palette.length - 4], the three components
    read from the palette are defined, and a NaN normalised value is
    replaced by 0, which selects index 0. *)
Theorem getRGBForValue_index_in_bounds
  (minSpeed maxSpeed : option num) (value : num) :
  (4 <= List.length palette)%nat ->
  (exists i : Z,
      (0 <= i <= Z.of_nat (List.length palette) - 4)%Z /\
      paletteIndex palette (relativeValue minSpeed maxSpeed value) = Fin (IZR i) /\
      exists r g b,
        getRGBForValue palette minSpeed maxSpeed value = [Some r; Some g; Some b]) /\
  (isNaN (Math_min
            (Math_max (jdiv (jsub value (toNumber minSpeed))
                            (jsub (toNumber maxSpeed) (toNumber minSpeed)))
                      (Fin 0))
            (Fin 0.999)) = true ->
   relativeValue minSpeed maxSpeed value = Fin 0 /\
   paletteIndex palette (relativeValue minSpeed maxSpeed value) = Fin 0).
Proof.
  intros Hlen. split.
  - destruct (relativeValue_range minSpeed maxSpeed value) as (v & Hv & Ev).
    destruct (paletteIndex_range Hlen Hv) as (i & Hi & Ei).
    exists i. split; [assumption|]. rewrite Ev. split; [assumption|].
    unfold getRGBForValue, getRGBForPercent. rewrite Ev, Ei. simpl jadd.
    rewrite (@arrayGet_int _ palette i (IZR i)) by (reflexivity || lia).
    rewrite (@arrayGet_int _ palette (i + 1) (IZR i + 1))
      by (rewrite ?plus_IZR; reflexivity || lia).
    rewrite (@arrayGet_int _ palette (i + 2) (IZR i + 2))
      by (rewrite ?plus_IZR; reflexivity || lia).
    destruct (@nth_error_defined _ palette (Z.to_nat i)) as (r & Er); [lia|].
    destruct (@nth_error_defined _ palette (Z.to_nat (i + 1))) as (g & Eg); [lia|].
    destruct (@nth_error_defined _ palette (Z.to_nat (i + 2))) as (b & Eb); [lia|].
    exists r, g, b. now rewrite Er, Eg, Eb.
  - intros HN. assert (E : relativeValue minSpeed maxSpeed value = Fin 0).
    { unfold relativeValue. now rewrite HN. }
    split; [assumption|]. rewrite E.
    unfold paletteIndex, ofNat. simpl jmul. simpl jsub.
    replace (Zfloor (0 * 256)) with 0%Z
      by (symmetry; apply Zfloor_eq; simpl; lra).
    unfold Math_min. rewrite jlt_fin. rewrite Rltb_false; [f_equal; simpl; lra|].
    replace (0 * 4) with 0 by lra.
    assert (4 <= INR (List.length palette)).
    { replace 4 with (INR 4) by (simpl; lra). apply le_INR. assumption. }
    lra.
Qed.

End Palette.

(** C10, instance: a 1x256 RGBA palette (1024 entries, here all zero),
    no speed range and a NaN speed. *)
Lemma getRGBForValue_index_in_bounds_witness :
  (exists i : Z,
      (0 <= i <= Z.of_nat (List.length (repeat 0%Z 1024)) - 4)%Z /\
      Mapdump.paletteIndex (repeat 0%Z 1024)
        (Mapdump.relativeValue None None NaN) = Fin (IZR i) /\
      exists r g b,
        Mapdump.getRGBForValue (repeat 0%Z 1024) None None NaN
        = [Some r; Some g; Some b]) /\
  (isNaN (Math_min
            (Math_max (jdiv (jsub NaN (Mapdump.toNumber None))
                            (jsub (Mapdump.toNumber None) (Mapdump.toNumber None)))
                      (Fin 0))
            (Fin 0.999)) = true ->
   Mapdump.relativeValue None None NaN = Fin 0 /\
   Mapdump.paletteIndex (repeat 0%Z 1024) (Mapdump.relativeValue None None NaN)
   = Fin 0).
Proof.
  apply (@getRGBForValue_index_in_bounds (repeat 0%Z 1024) None None NaN).
  rewrite repeat_length. lia.
Defined.

(** ** Spherical Mercator on finite coordinates *)

Section Mercator.

Import Geo.
Local Open Scope R_scope.

Lemma pi_180_fin : pi_180 = Fin (PI / 180).
Proof. unfold pi_180, pi, Math_PI, number180. apply jdiv_fin. lra. Qed.

Lemma half_angle_range la :
  -90 < la < 90 -> 0 < (90 + la) * (PI / 180) / 2 < PI / 2.
Proof. intros H. generalize PI_RGT_0. intros. split; nra. Qed.

Lemma LatLonToMeters_fin la lo :
  -90 < la < 90 ->
  LatLonToMeters (mkLatLon (Fin la) (Fin lo)) = mkPoint (Fin (mercX lo)) (Fin (mercY la)).
Proof.
  intros H. destruct (half_angle_range H) as [H0 H1].
  unfold LatLonToMeters, rad. rewrite pi_180_fin. cbn [lat lon jmul jadd].
  rewrite jdiv_fin by lra. unfold Math_tan.
  assert (Hc : 0 < cos ((90 + la) * (PI / 180) / 2)) by (apply cos_gt_0; lra).
  assert (Hs : 0 < sin ((90 + la) * (PI / 180) / 2)) by (apply sin_gt_0; lra).
  rewrite jdiv_fin by lra. unfold Math_log.
  assert (Ht : 0 < sin ((90 + la) * (PI / 180) / 2) / cos ((90 + la) * (PI / 180) / 2))
    by (apply Rdiv_lt_0_compat; assumption).
  rewrite Rltb_false by lra. rewrite Reqb_false by lra. reflexivity.
Qed.

Lemma mercY_increasing a b : -90 < a -> a < b -> b < 90 -> mercY a < mercY b.
Proof.
  intros Ha Hab Hb. unfold mercY.
  assert (Ra : -90 < a < 90) by lra. assert (Rb : -90 < b < 90) by lra.
  destruct (half_angle_range Ra) as [A0 A1].
  destruct (half_angle_range Rb) as [B0 B1].
  generalize PI_RGT_0; intros HPI.
  apply Rmult_lt_compat_r; [lra|].
  apply ln_increasing.
  - apply tan_gt_0; assumption.
  - apply tan_increasing; nra.
Qed.

Lemma mercX_increasing a b : a < b -> mercX a < mercX b.
Proof. intros H. unfold mercX. generalize PI_RGT_0; intros. nra. Qed.

End Mercator.

(** ** The homography of [general2DProjection] *)

Section Homography.

Import Geo.
Local Open Scope R_scope.

Variables x1s y1s x2s y2s x3s y3s x4s y4s : R.
Variables x1d y1d x2d y2d x3d y3d x4d y4d : R.

Let H : list num :=
  general2DProjection
    (Fin x1s) (Fin y1s) (Fin x1d) (Fin y1d) (Fin x2s) (Fin y2s) (Fin x2d) (Fin y2d)
    (Fin x3s) (Fin y3s) (Fin x3d) (Fin y3d) (Fin x4s) (Fin y4s) (Fin x4d) (Fin y4d).

Lemma scaled_quotient k x : k <> 0 -> k * x / k = x.
Proof. intros. field. assumption. Qed.

Lemma prod4_nonzero a b c d : a <> 0 -> b <> 0 -> c <> 0 -> d <> 0 -> a * b * c * d <> 0.
Proof. intros. repeat apply Rmult_integral_contrapositive_currified; assumption. Qed.

(** The image of a source point [i] is the homogeneous vector
    [k * (xd, yd, 1)], with [k] the product of three source determinants
    and one destination determinant. *)
Ltac homography k :=
  unfold H, general2DProjection, basisToPoints, project;
  cbn -[Rmult Rplus Ropp Rminus Rdiv Reqb jdiv];
  match goal with
  | |- (jdiv (Fin ?a) (Fin ?c), jdiv (Fin ?b) (Fin ?c)) = (Fin ?xd, Fin ?yd) =>
      let Hc := fresh "Hc" in
      let Ha := fresh "Ha" in
      let Hb := fresh "Hb" in
      assert (Hc : c = k) by (unfold det3; ring);
      assert (Ha : a = k * xd) by (unfold det3; ring);
      assert (Hb : b = k * yd) by (unfold det3; ring);
      rewrite Hc, Ha, Hb; clear Hc Ha Hb;
      rewrite !jdiv_fin by assumption;
      rewrite !scaled_quotient by assumption; reflexivity
  end.

Lemma project_p1 :
  det3 x1s y1s x2s y2s x3s y3s <> 0 ->
  det3 x1s y1s x4s y4s x3s y3s <> 0 ->
  det3 x1s y1s x2s y2s x4s y4s <> 0 ->
  det3 x4d y4d x2d y2d x3d y3d <> 0 ->
  project H (Fin x1s) (Fin y1s) = (Fin x1d, Fin y1d).
Proof.
  intros H1 H2 H3 H4.
  pose proof (prod4_nonzero H1 H2 H3 H4) as K.
  homography (det3 x1s y1s x2s y2s x3s y3s * det3 x1s y1s x4s y4s x3s y3s *
              det3 x1s y1s x2s y2s x4s y4s * det3 x4d y4d x2d y2d x3d y3d).
Qed.

Lemma project_p2 :
  det3 x1s y1s x2s y2s x3s y3s <> 0 ->
  det3 x4s y4s x2s y2s x3s y3s <> 0 ->
  det3 x1s y1s x2s y2s x4s y4s <> 0 ->
  det3 x1d y1d x4d y4d x3d y3d <> 0 ->
  project H (Fin x2s) (Fin y2s) = (Fin x2d, Fin y2d).
Proof.
  intros H1 H2 H3 H4.
  pose proof (prod4_nonzero H1 H2 H3 H4) as K.
  homography (det3 x1s y1s x2s y2s x3s y3s * det3 x4s y4s x2s y2s x3s y3s *
              det3 x1s y1s x2s y2s x4s y4s * det3 x1d y1d x4d y4d x3d y3d).
Qed.

Lemma project_p3 :
  det3 x1s y1s x2s y2s x3s y3s <> 0 ->
  det3 x4s y4s x2s y2s x3s y3s <> 0 ->
  det3 x1s y1s x4s y4s x3s y3s <> 0 ->
  det3 x1d y1d x2d y2d x4d y4d <> 0 ->
  project H (Fin x3s) (Fin y3s) = (Fin x3d, Fin y3d).
Proof.
  intros H1 H2 H3 H4.
  pose proof (prod4_nonzero H1 H2 H3 H4) as K.
  homography (det3 x1s y1s x2s y2s x3s y3s * det3 x4s y4s x2s y2s x3s y3s *
              det3 x1s y1s x4s y4s x3s y3s * det3 x1d y1d x2d y2d x4d y4d).
Qed.

Lemma project_p4 :
  det3 x4s y4s x2s y2s x3s y3s <> 0 ->
  det3 x1s y1s x4s y4s x3s y3s <> 0 ->
  det3 x1s y1s x2s y2s x4s y4s <> 0 ->
  det3 x1d y1d x2d y2d x3d y3d <> 0 ->
  project H (Fin x4s) (Fin y4s) = (Fin x4d, Fin y4d).
Proof.
  intros H1 H2 H3 H4.
  pose proof (prod4_nonzero H1 H2 H3 H4) as K.
  homography (det3 x4s y4s x2s y2s x3s y3s * det3 x1s y1s x4s y4s x3s y3s *
              det3 x1s y1s x2s y2s x4s y4s * det3 x1d y1d x2d y2d x3d y3d).
Qed.

End Homography.

(** ** Exact interpolation of the control points *)

Section ExactInterpolation.

Import Geo MapEdit.
Local Open Scope R_scope.

(** The four corners under [cornerCalTransform], for finite projected
    corners of which no three are collinear and an image with non-zero
    width and height. *)
Lemma cornerCalTransform_corners (w h : R) (tl tr br bl : LatLon)
  (x1 y1 x2 y2 x3 y3 x4 y4 : R) :
  LatLonToMeters tl = mkPoint (Fin x1) (Fin y1) ->
  LatLonToMeters tr = mkPoint (Fin x2) (Fin y2) ->
  LatLonToMeters br = mkPoint (Fin x3) (Fin y3) ->
  LatLonToMeters bl = mkPoint (Fin x4) (Fin y4) ->
  w <> 0 -> h <> 0 ->
  det3 x1 y1 x2 y2 x3 y3 <> 0 ->
  det3 x4 y4 x2 y2 x3 y3 <> 0 ->
  det3 x1 y1 x4 y4 x3 y3 <> 0 ->
  det3 x1 y1 x2 y2 x4 y4 <> 0 ->
  cornerCalTransform (Fin w) (Fin h) tl tr br bl tl = mkPoint (Fin 0) (Fin 0) /\
  cornerCalTransform (Fin w) (Fin h) tl tr br bl tr = mkPoint (Fin w) (Fin 0) /\
  cornerCalTransform (Fin w) (Fin h) tl tr br bl br = mkPoint (Fin w) (Fin h) /\
  cornerCalTransform (Fin w) (Fin h) tl tr br bl bl = mkPoint (Fin 0) (Fin h).
Proof.
  intros E1 E2 E3 E4 Hw Hh D123 D423 D143 D124.
  assert (Hwh : w * h <> 0) by (apply Rmult_integral_contrapositive_currified; assumption).
  assert (Q423 : det3 0 h w 0 w h <> 0) by (unfold det3; intros C; apply Hwh; lra).
  assert (Q143 : det3 0 0 0 h w h <> 0) by (unfold det3; intros C; apply Hwh; lra).
  assert (Q124 : det3 0 0 w 0 0 h <> 0) by (unfold det3; intros C; apply Hwh; lra).
  assert (Q123 : det3 0 0 w 0 w h <> 0) by (unfold det3; intros C; apply Hwh; lra).
  unfold cornerCalTransform, cornerCalMatrix.
  rewrite E1, E2, E3, E4. cbn [px py].
  repeat split.
  - rewrite project_p1 by assumption. reflexivity.
  - rewrite project_p2 by assumption. reflexivity.
  - rewrite project_p3 by assumption. reflexivity.
  - rewrite project_p4 by assumption. reflexivity.
Qed.

(** The same for corners given by finite latitudes and longitudes that
    form a north-up rectangle, as a calibration string of an unrotated
    map does. *)
Lemma cornerCalTransform_rectangle (w h north south west east : R) :
  w <> 0 -> h <> 0 ->
  -90 < south -> south < north -> north < 90 -> west < east ->
  let tl := mkLatLon (Fin north) (Fin west) in
  let tr := mkLatLon (Fin north) (Fin east) in
  let br := mkLatLon (Fin south) (Fin east) in
  let bl := mkLatLon (Fin south) (Fin west) in
  cornerCalTransform (Fin w) (Fin h) tl tr br bl tl = mkPoint (Fin 0) (Fin 0) /\
  cornerCalTransform (Fin w) (Fin h) tl tr br bl tr = mkPoint (Fin w) (Fin 0) /\
  cornerCalTransform (Fin w) (Fin h) tl tr br bl br = mkPoint (Fin w) (Fin h) /\
  cornerCalTransform (Fin w) (Fin h) tl tr br bl bl = mkPoint (Fin 0) (Fin h).
Proof.
  intros Hw Hh Hs Hsn Hn Hwe tl tr br bl.
  assert (HY : mercY south < mercY north) by (apply mercY_increasing; lra).
  assert (HX : mercX west < mercX east) by (apply mercX_increasing; lra).
  apply cornerCalTransform_corners
    with (x1 := mercX west) (y1 := mercY north) (x2 := mercX east) (y2 := mercY north)
         (x3 := mercX east) (y3 := mercY south) (x4 := mercX west) (y4 := mercY south);
    try assumption;
    try (apply LatLonToMeters_fin; lra);
    unfold det3; intros C; nra.
Qed.

(** The affine fit on finite points whose nudged pixel positions are not
    collinear. *)
Lemma deriveAffineTransform_exact
  (ax ay amx amy bx by_ bmx bmy cx cy cmx cmy : R) :
  let a := mkCalPt (mkPoint (Fin amx) (Fin amy)) (mkPoint (Fin ax) (Fin ay)) in
  let b := mkCalPt (mkPoint (Fin bmx) (Fin bmy)) (mkPoint (Fin bx) (Fin by_)) in
  let c := mkCalPt (mkPoint (Fin cmx) (Fin cmy)) (mkPoint (Fin cx) (Fin cy)) in
  det3 (ax - e_value) (ay + e_value) (bx + e_value) (by_ - e_value) (cx + e_value) (cy + e_value) <> 0 ->
  let coeffs := fst (deriveAffineTransform a b c) in
  let a' := fst (fst (snd (deriveAffineTransform a b c))) in
  let b' := snd (fst (snd (deriveAffineTransform a b c))) in
  let c' := snd (snd (deriveAffineTransform a b c)) in
  (xy a' = mkPoint (Fin (ax - e_value)) (Fin (ay + e_value)) /\
   xy b' = mkPoint (Fin (bx + e_value)) (Fin (by_ - e_value)) /\
   xy c' = mkPoint (Fin (cx + e_value)) (Fin (cy + e_value))) /\
  mapXYtoMeters coeffs (xy a') = latLonMeters a /\
  mapXYtoMeters coeffs (xy b') = latLonMeters b /\
  mapXYtoMeters coeffs (xy c') = latLonMeters c.
Proof.
  intros a b c HD coeffs a' b' c'.
  unfold coeffs, a', b', c', a, b, c.
  unfold deriveAffineTransform, nudge, solveAffineMatrix, mapXYtoMeters, e.
  cbn -[Rmult Rplus Ropp Rminus Rdiv Reqb jdiv jmul jadd jsub e_value].
  unfold jsub. cbn -[Rmult Rplus Ropp Rminus Rdiv Reqb jdiv e_value].
  set (r1 := ax + - e_value) in *. set (s1 := ay + e_value) in *.
  set (r2 := bx + e_value) in *. set (s2 := by_ + - e_value) in *.
  set (r3 := cx + e_value) in *. set (s3 := cy + e_value) in *.
  assert (HD' : det3 r1 s1 r2 s2 r3 s3 <> 0).
  { intros C. apply HD. rewrite <- C. unfold r1, s1, r2, s2, r3, s3, det3. ring. }
  assert (Da : (r2 + - r3) * (s1 + - s2) + - ((r1 + - r2) * (s2 + - s3)) <> 0).
  { intros C. apply HD'. unfold det3. lra. }
  assert (Db : (s2 + - s3) * (r1 + - r2) + - ((s1 + - s2) * (r2 + - r3)) <> 0).
  { intros C. apply HD'. unfold det3. lra. }
  rewrite !(fun n => @jdiv_fin n _ Da), !(fun n => @jdiv_fin n _ Db).
  cbn -[Rmult Rplus Ropp Rminus Rdiv e_value].
  split.
  - unfold r1, s1, r2, s2, r3, s3. repeat split; f_equal; f_equal; ring.
  - repeat split; f_equal; f_equal; field; split; assumption.
Qed.

(** C2: the transform of [cornerCalTransform] sends the four corner
    coordinates of a non-degenerate calibration to (0,0), (w,0), (w,h)
    and (0,h) exactly, and the affine coefficients of
    [deriveAffineTransform] reproduce each of the three correspondences
    at pixel positions that are the given ones moved by [e] = 1e-15 in
    each coordinate.  Non-degenerate: the projected corners are finite, no
    three of them are collinear, and the image has non-zero width and
    height; for the affine fit, the three nudged pixel positions are not
    collinear. *)
Theorem calibration_reproduces_control_points :
  (forall (w h : R) (tl tr br bl : LatLon) (x1 y1 x2 y2 x3 y3 x4 y4 : R),
      LatLonToMeters tl = mkPoint (Fin x1) (Fin y1) ->
      LatLonToMeters tr = mkPoint (Fin x2) (Fin y2) ->
      LatLonToMeters br = mkPoint (Fin x3) (Fin y3) ->
      LatLonToMeters bl = mkPoint (Fin x4) (Fin y4) ->
      w <> 0 -> h <> 0 ->
      det3 x1 y1 x2 y2 x3 y3 <> 0 ->
      det3 x4 y4 x2 y2 x3 y3 <> 0 ->
      det3 x1 y1 x4 y4 x3 y3 <> 0 ->
      det3 x1 y1 x2 y2 x4 y4 <> 0 ->
      cornerCalTransform (Fin w) (Fin h) tl tr br bl tl = mkPoint (Fin 0) (Fin 0) /\
      cornerCalTransform (Fin w) (Fin h) tl tr br bl tr = mkPoint (Fin w) (Fin 0) /\
      cornerCalTransform (Fin w) (Fin h) tl tr br bl br = mkPoint (Fin w) (Fin h) /\
      cornerCalTransform (Fin w) (Fin h) tl tr br bl bl = mkPoint (Fin 0) (Fin h)) /\
  (forall (ax ay amx amy bx by_ bmx bmy cx cy cmx cmy : R),
      let a := mkCalPt (mkPoint (Fin amx) (Fin amy)) (mkPoint (Fin ax) (Fin ay)) in
      let b := mkCalPt (mkPoint (Fin bmx) (Fin bmy)) (mkPoint (Fin bx) (Fin by_)) in
      let c := mkCalPt (mkPoint (Fin cmx) (Fin cmy)) (mkPoint (Fin cx) (Fin cy)) in
      det3 (ax - e_value) (ay + e_value) (bx + e_value) (by_ - e_value)
           (cx + e_value) (cy + e_value) <> 0 ->
      let coeffs := fst (deriveAffineTransform a b c) in
      let a' := fst (fst (snd (deriveAffineTransform a b c))) in
      let b' := snd (fst (snd (deriveAffineTransform a b c))) in
      let c' := snd (snd (deriveAffineTransform a b c)) in
      (xy a' = mkPoint (Fin (ax - e_value)) (Fin (ay + e_value)) /\
       xy b' = mkPoint (Fin (bx + e_value)) (Fin (by_ - e_value)) /\
       xy c' = mkPoint (Fin (cx + e_value)) (Fin (cy + e_value))) /\
      mapXYtoMeters coeffs (xy a') = latLonMeters a /\
      mapXYtoMeters coeffs (xy b') = latLonMeters b /\
      mapXYtoMeters coeffs (xy c') = latLonMeters c).
Proof.
  split.
  - intros. now apply cornerCalTransform_corners
      with (x1 := x1) (y1 := y1) (x2 := x2) (y2 := y2)
           (x3 := x3) (y3 := y3) (x4 := x4) (y4 := y4).
  - intros. now apply deriveAffineTransform_exact.
Qed.

End ExactInterpolation.

Lemma e_value_small : (0 < MapEdit.e_value < 1)%R.
Proof. unfold MapEdit.e_value. lra. Qed.

(** C2, instance: the calibration
    [60.1,24.9,60.1,25.0,60.0,25.0,60.0,24.9] on a 1000x800 image, and an
    affine fit through the pixels (0,0), (1000,0) and (0,800). *)
Lemma calibration_reproduces_control_points_witness :
  (let tl := Geo.mkLatLon (Fin 60.1) (Fin 24.9) in
   let tr := Geo.mkLatLon (Fin 60.1) (Fin 25) in
   let br := Geo.mkLatLon (Fin 60) (Fin 25) in
   let bl := Geo.mkLatLon (Fin 60) (Fin 24.9) in
   Geo.cornerCalTransform (Fin 1000) (Fin 800) tl tr br bl tl
     = Geo.mkPoint (Fin 0) (Fin 0) /\
   Geo.cornerCalTransform (Fin 1000) (Fin 800) tl tr br bl tr
     = Geo.mkPoint (Fin 1000) (Fin 0) /\
   Geo.cornerCalTransform (Fin 1000) (Fin 800) tl tr br bl br
     = Geo.mkPoint (Fin 1000) (Fin 800) /\
   Geo.cornerCalTransform (Fin 1000) (Fin 800) tl tr br bl bl
     = Geo.mkPoint (Fin 0) (Fin 800)) /\
  (let a := MapEdit.mkCalPt (Geo.mkPoint (Fin 0) (Fin 0)) (Geo.mkPoint (Fin 0) (Fin 0)) in
   let b := MapEdit.mkCalPt (Geo.mkPoint (Fin 2000) (Fin 0)) (Geo.mkPoint (Fin 1000) (Fin 0)) in
   let c := MapEdit.mkCalPt (Geo.mkPoint (Fin 0) (Fin (-1600))) (Geo.mkPoint (Fin 0) (Fin 800)) in
   let coeffs := fst (MapEdit.deriveAffineTransform a b c) in
   let a' := fst (fst (snd (MapEdit.deriveAffineTransform a b c))) in
   let b' := snd (fst (snd (MapEdit.deriveAffineTransform a b c))) in
   let c' := snd (snd (MapEdit.deriveAffineTransform a b c)) in
   MapEdit.mapXYtoMeters coeffs (MapEdit.xy a') = MapEdit.latLonMeters a /\
   MapEdit.mapXYtoMeters coeffs (MapEdit.xy b') = MapEdit.latLonMeters b /\
   MapEdit.mapXYtoMeters coeffs (MapEdit.xy c') = MapEdit.latLonMeters c).
Proof.
  destruct calibration_reproduces_control_points as [P1 P2].
  split.
  - assert (HY : (mercY 60 < mercY 60.1)%R) by (apply mercY_increasing; lra).
    assert (HX : (mercX 24.9 < mercX 25)%R) by (apply mercX_increasing; lra).
    apply (P1 1000%R 800%R _ _ _ _
             (mercX 24.9) (mercY 60.1) (mercX 25) (mercY 60.1)
             (mercX 25) (mercY 60) (mercX 24.9) (mercY 60));
      try (apply LatLonToMeters_fin; lra); try lra;
      unfold det3; intros C; nra.
  - apply (P2 0 0 0 0 1000 0 2000 0 0 800 0 (-1600))%R.
    generalize e_value_small. generalize MapEdit.e_value. intros e He.
    unfold det3. intros C. nra.
Defined.

(** ** Degenerate calibrations *)

Section Degenerate.

Import Geo.
Local Open Scope R_scope.

Lemma zeroish_mul_l a b : zeroish a -> zeroish (jmul a b).
Proof.
  intros [->| ->]; [left; reflexivity|].
  destruct b as [y| | |]; simpl.
  - right. f_equal. ring.
  - left. unfold signed_inf. now rewrite Reqb_refl.
  - left. unfold signed_inf. now rewrite Reqb_refl.
  - left. reflexivity.
Qed.

Lemma zeroish_mul_r a b : zeroish b -> zeroish (jmul a b).
Proof.
  intros [->| ->]; [left; destruct a; reflexivity|].
  destruct a as [y| | |]; simpl.
  - right. f_equal. ring.
  - left. unfold signed_inf. now rewrite Reqb_refl.
  - left. unfold signed_inf. now rewrite Reqb_refl.
  - left. reflexivity.
Qed.

Lemma zeroish_add a b : zeroish a -> zeroish b -> zeroish (jadd a b).
Proof.
  intros [->| ->] [->| ->]; simpl; try (left; reflexivity).
  right. f_equal. ring.
Qed.

Lemma zeroish_neg a : zeroish a -> zeroish (jneg a).
Proof. intros [->| ->]; simpl; [left; reflexivity | right; f_equal; ring]. Qed.

Lemma zeroish_sub a b : zeroish a -> zeroish b -> zeroish (jsub a b).
Proof. intros. unfold jsub. apply zeroish_add; [assumption | now apply zeroish_neg]. Qed.

Lemma zeroish_div a b : zeroish a -> zeroish b -> jdiv a b = NaN.
Proof.
  intros [->| ->] [->| ->]; try reflexivity. apply jdiv_zero_zero.
Qed.

Lemma zeroish_zero : zeroish (Fin 0).
Proof. now right. Qed.

Lemma adj_zeroMatrix m : zeroMatrix m -> zeroMatrix (adj m).
Proof.
  intros Hm i. unfold adj.
  do 9 (destruct i as [|i];
        [cbn [idx nth]; apply zeroish_sub; apply zeroish_mul_l; apply Hm|]).
  left. unfold idx. destruct i; reflexivity.
Qed.

Lemma multmm_zeroMatrix_r a b : zeroMatrix b -> zeroMatrix (multmm a b).
Proof.
  intros Hb i. unfold multmm, multmm_entry.
  cbn [flat_map map app fold_left].
  do 9 (destruct i as [|i];
        [cbn [idx nth];
         repeat apply zeroish_add; try apply zeroish_zero;
         apply zeroish_mul_r; apply Hb|]).
  left. unfold idx. destruct i; reflexivity.
Qed.

Lemma multmm_zeroMatrix_l a b : zeroMatrix a -> zeroMatrix (multmm a b).
Proof.
  intros Ha i. unfold multmm, multmm_entry.
  cbn [flat_map map app fold_left].
  do 9 (destruct i as [|i];
        [cbn [idx nth];
         repeat apply zeroish_add; try apply zeroish_zero;
         apply zeroish_mul_l; apply Ha|]).
  left. unfold idx. destruct i; reflexivity.
Qed.

(** Projecting with a zero matrix divides a zero factor by a zero factor. *)
Lemma project_zeroMatrix m x y : zeroMatrix m -> project m x y = (NaN, NaN).
Proof.
  intros Hm. unfold project, multmv. cbn [idx nth].
  rewrite !zeroish_div; try reflexivity;
    repeat apply zeroish_add; apply zeroish_mul_l; apply Hm.
Qed.

End Degenerate.

(** ** The homography in closed form *)

Section Canonical.

Import Geo.
Local Open Scope R_scope.

Variables x1s y1s x2s y2s x3s y3s x4s y4s : R.
Variables x1d y1d x2d y2d x3d y3d x4d y4d : R.
Variables x y : R.

Let H : list num :=
  general2DProjection
    (Fin x1s) (Fin y1s) (Fin x1d) (Fin y1d) (Fin x2s) (Fin y2s) (Fin x2d) (Fin y2d)
    (Fin x3s) (Fin y3s) (Fin x3d) (Fin y3d) (Fin x4s) (Fin y4s) (Fin x4d) (Fin y4d).

(** Weights of the fourth point on the first three, source and
    destination, and weights of the projected point. *)
Let v0 := det3 x4s y4s x2s y2s x3s y3s.
Let v1 := det3 x1s y1s x4s y4s x3s y3s.
Let v2 := det3 x1s y1s x2s y2s x4s y4s.
Let w0 := det3 x4d y4d x2d y2d x3d y3d.
Let w1 := det3 x1d y1d x4d y4d x3d y3d.
Let w2 := det3 x1d y1d x2d y2d x4d y4d.
Let u0 := det3 x y x2s y2s x3s y3s.
Let u1 := det3 x1s y1s x y x3s y3s.
Let u2 := det3 x1s y1s x2s y2s x y.

Lemma project_closed_form :
  project H (Fin x) (Fin y) =
  (jdiv (Fin (x1d * w0 * (v1 * v2 * u0) + x2d * w1 * (v0 * v2 * u1)
              + x3d * w2 * (v0 * v1 * u2)))
        (Fin (w0 * (v1 * v2 * u0) + w1 * (v0 * v2 * u1) + w2 * (v0 * v1 * u2))),
   jdiv (Fin (y1d * w0 * (v1 * v2 * u0) + y2d * w1 * (v0 * v2 * u1)
              + y3d * w2 * (v0 * v1 * u2)))
        (Fin (w0 * (v1 * v2 * u0) + w1 * (v0 * v2 * u1) + w2 * (v0 * v1 * u2)))).
Proof.
  unfold H, general2DProjection, basisToPoints, project.
  cbn -[Rmult Rplus Ropp Rminus Rdiv Reqb jdiv].
  unfold v0, v1, v2, w0, w1, w2, u0, u1, u2, det3.
  f_equal; f_equal; f_equal; ring.
Qed.

End Canonical.

(** ** [cornerCalTransform] on collinear control points *)

Section CollinearCalibration.

Import Geo.
Local Open Scope R_scope.

Lemma basisToPoints_weights (x1 y1 x2 y2 x3 y3 x4 y4 : R) :
  basisToPoints (Fin x1) (Fin y1) (Fin x2) (Fin y2) (Fin x3) (Fin y3) (Fin x4) (Fin y4) =
  [ Fin (x1 * det3 x4 y4 x2 y2 x3 y3); Fin (x2 * det3 x1 y1 x4 y4 x3 y3);
    Fin (x3 * det3 x1 y1 x2 y2 x4 y4);
    Fin (y1 * det3 x4 y4 x2 y2 x3 y3); Fin (y2 * det3 x1 y1 x4 y4 x3 y3);
    Fin (y3 * det3 x1 y1 x2 y2 x4 y4);
    Fin (det3 x4 y4 x2 y2 x3 y3); Fin (det3 x1 y1 x4 y4 x3 y3);
    Fin (det3 x1 y1 x2 y2 x4 y4) ].
Proof.
  unfold basisToPoints. cbn -[Rmult Rplus Ropp Rminus Rdiv].
  unfold det3. repeat (f_equal; try ring).
Qed.

Lemma basisToPoints_zeroMatrix (x1 y1 x2 y2 x3 y3 x4 y4 : R) :
  det3 x4 y4 x2 y2 x3 y3 = 0 ->
  det3 x1 y1 x4 y4 x3 y3 = 0 ->
  det3 x1 y1 x2 y2 x4 y4 = 0 ->
  zeroMatrix
    (basisToPoints (Fin x1) (Fin y1) (Fin x2) (Fin y2) (Fin x3) (Fin y3)
                   (Fin x4) (Fin y4)).
Proof.
  intros E0 E1 E2 i. rewrite basisToPoints_weights, E0, E1, E2.
  do 9 (destruct i as [|i]; [right; cbn [idx nth]; f_equal; ring|]).
  left. unfold idx. destruct i; reflexivity.
Qed.

(** All four control points on one line: over exact arithmetic the three
    weights vanish, the matrix is a zero matrix and every coordinate,
    finite or not, is sent to (NaN, NaN). *)
Lemma cornerCalTransform_all_collinear (width height : num)
  (tl tr br bl : LatLon) (x1 y1 x2 y2 x3 y3 x4 y4 : R) :
  LatLonToMeters tl = mkPoint (Fin x1) (Fin y1) ->
  LatLonToMeters tr = mkPoint (Fin x2) (Fin y2) ->
  LatLonToMeters br = mkPoint (Fin x3) (Fin y3) ->
  LatLonToMeters bl = mkPoint (Fin x4) (Fin y4) ->
  det3 x4 y4 x2 y2 x3 y3 = 0 ->
  det3 x1 y1 x4 y4 x3 y3 = 0 ->
  det3 x1 y1 x2 y2 x4 y4 = 0 ->
  forall latLon,
    cornerCalTransform width height tl tr br bl latLon = mkPoint NaN NaN.
Proof.
  intros E1 E2 E3 E4 D0 D1 D2 latLon.
  unfold cornerCalTransform, cornerCalMatrix, general2DProjection.
  rewrite E1, E2, E3, E4. cbn [px py].
  rewrite project_zeroMatrix; [reflexivity|].
  apply multmm_zeroMatrix_r, adj_zeroMatrix.
  now apply basisToPoints_zeroMatrix.
Qed.

(** Two equal columns in the basis matrix: the matrix of the weighted
    columns has rank at most one, and its adjugate vanishes. *)
Lemma adj_basisToPoints_zeroMatrix (x1 y1 x2 y2 x3 y3 x4 y4 : R) :
  (x1 = x2 /\ y1 = y2) \/ (x2 = x3 /\ y2 = y3) \/ (x1 = x3 /\ y1 = y3) ->
  zeroMatrix
    (adj (basisToPoints (Fin x1) (Fin y1) (Fin x2) (Fin y2) (Fin x3) (Fin y3)
                        (Fin x4) (Fin y4))).
Proof.
  intros H i. rewrite basisToPoints_weights. unfold adj, det3.
  cbn -[Rmult Rplus Ropp Rminus].
  do 9 (destruct i as [|i];
        [right; cbn [idx nth]; f_equal;
         destruct H as [[-> ->]|[[-> ->]|[-> ->]]]; ring|]).
  left. unfold idx. destruct i; reflexivity.
Qed.

(** C1 (as amended): [cornerCalTransform] has no failure path and does
    not inspect its coefficients, so a calibration with a singular basis
    matrix still yields a transform, and what that transform returns need
    not be finite.  When two of the control points top-left, top-right
    and bottom-right coincide, so that the basis matrix has two equal
    columns, then whatever the other control points and the size of the
    image are, the transform returned sends every coordinate, finite or
    not, to (NaN, NaN).  (The weights of the two equal columns are
    opposite and the third weight is 0, so every entry of the adjugate of
    the weighted matrix is the difference of two equal products: the
    cancellation does not rest on exact arithmetic.) *)
Theorem cornerCalTransform_degenerate (width height : num) (tl tr br bl : LatLon)
  (x1 y1 x2 y2 x3 y3 x4 y4 : R) :
  LatLonToMeters tl = mkPoint (Fin x1) (Fin y1) ->
  LatLonToMeters tr = mkPoint (Fin x2) (Fin y2) ->
  LatLonToMeters br = mkPoint (Fin x3) (Fin y3) ->
  LatLonToMeters bl = mkPoint (Fin x4) (Fin y4) ->
  tl = tr \/ tr = br \/ tl = br ->
  forall latLon,
    cornerCalTransform width height tl tr br bl latLon = mkPoint NaN NaN.
Proof.
  intros E1 E2 E3 E4 H latLon.
  assert (C : (x1 = x2 /\ y1 = y2) \/ (x2 = x3 /\ y2 = y3) \/ (x1 = x3 /\ y1 = y3)).
  { destruct H as [H|[H|H]]; subst.
    - left. rewrite E1 in E2. inversion E2. now split.
    - right; left. rewrite E2 in E3. inversion E3. now split.
    - right; right. rewrite E1 in E3. inversion E3. now split. }
  unfold cornerCalTransform, cornerCalMatrix, general2DProjection.
  rewrite E1, E2, E3, E4. cbn [px py].
  rewrite project_zeroMatrix; [reflexivity|].
  apply multmm_zeroMatrix_r. now apply adj_basisToPoints_zeroMatrix.
Qed.

End CollinearCalibration.

(** C1, instance: on a 1000x800 image, the top-left and the top-right
    control point both at 60.1 N 24.9 E, the other two at 60 N 25 E and
    60 N 24.9 E; the coordinate (60.05, 24.95). *)
Lemma cornerCalTransform_degenerate_witness :
  Geo.cornerCalTransform (Fin 1000) (Fin 800)
    (Geo.mkLatLon (Fin 60.1) (Fin 24.9)) (Geo.mkLatLon (Fin 60.1) (Fin 24.9))
    (Geo.mkLatLon (Fin 60) (Fin 25)) (Geo.mkLatLon (Fin 60) (Fin 24.9))
    (Geo.mkLatLon (Fin 60.05) (Fin 24.95))
  = Geo.mkPoint NaN NaN.
Proof.
  apply (@cornerCalTransform_degenerate (Fin 1000) (Fin 800) _ _ _ _
           (mercX 24.9) (mercY 60.1) (mercX 24.9) (mercY 60.1)
           (mercX 25) (mercY 60) (mercX 24.9) (mercY 60));
    try (apply LatLonToMeters_fin; lra).
  left. reflexivity.
Defined.

(** C1, counterexample: with the four control points on the equator the
    calibration is built all the same, and the transform it returns sends
    the top-left control point to (NaN, NaN). *)
Lemma cornerCalTransform_collinear_not_rejected :
  Geo.cornerCalTransform (Fin 1000) (Fin 800)
    (Geo.mkLatLon (Fin 0) (Fin 0)) (Geo.mkLatLon (Fin 0) (Fin 1))
    (Geo.mkLatLon (Fin 0) (Fin 2)) (Geo.mkLatLon (Fin 0) (Fin 3))
    (Geo.mkLatLon (Fin 0) (Fin 0))
  = Geo.mkPoint NaN NaN.
Proof.
  assert (R0 : (-90 < 0 < 90)%R) by lra.
  apply (@cornerCalTransform_all_collinear (Fin 1000) (Fin 800) _ _ _ _
           (mercX 0) (mercY 0) (mercX 1) (mercY 0)
           (mercX 2) (mercY 0) (mercX 3) (mercY 0));
    try (apply LatLonToMeters_fin; lra); unfold det3; ring.
Qed.

(** ** Great-circle distance *)

Section Distance.

Import Geo.
Local Open Scope R_scope.

Lemma distance_fin la1 lo1 la2 lo2 :
  0 <= haversineR la1 lo1 la2 lo2 <= 1 ->
  distance (mkLatLon (Fin la1) (Fin lo1)) (mkLatLon (Fin la2) (Fin lo2)) =
  Fin (12756274 * atan2R (sqrt (haversineR la1 lo1 la2 lo2))
                         (sqrt (1 + - haversineR la1 lo1 la2 lo2))).
Proof.
  intros [H0 H1]. unfold distance, Math_PI.
  rewrite jdiv_fin by lra.
  cbn -[Rmult Rplus Ropp Rminus Rdiv Reqb jdiv pow Math_sqrt].
  rewrite !jdiv_fin by lra.
  cbn -[Rmult Rplus Ropp Rminus Rdiv Reqb pow Math_sqrt].
  fold (haversineR la1 lo1 la2 lo2).
  unfold Math_sqrt. rewrite !Rltb_false by lra. reflexivity.
Qed.

Lemma haversine_same_longitude la1 la2 lo :
  haversineR la1 lo la2 lo = sin (PI / 180 * (la1 + - la2) / 2) ^ 2.
Proof.
  unfold haversineR.
  replace (PI / 180 * (lo + - lo) / 2) with 0 by field.
  rewrite sin_0. ring.
Qed.

Lemma atan2R_pos y x : 0 < y -> 0 < x -> 0 < atan2R y x.
Proof.
  intros Hy Hx. unfold atan2R. rewrite Rltb_true by assumption.
  rewrite <- atan_0. apply atan_increasing. now apply Rdiv_lt_0_compat.
Qed.

Lemma atan2R_zero x : 0 < x -> atan2R 0 x = 0.
Proof.
  intros Hx. unfold atan2R. rewrite Rltb_true by assumption.
  replace (0 / x) with 0 by (field; lra). apply atan_0.
Qed.

(** Two points on one meridian, less than 180 degrees of latitude apart,
    are a positive distance apart. *)
Lemma distance_same_longitude_pos la1 la2 lo :
  la1 <> la2 -> -180 < la1 - la2 < 180 ->
  exists d, 0 < d /\
    distance (mkLatLon (Fin la1) (Fin lo)) (mkLatLon (Fin la2) (Fin lo)) = Fin d.
Proof.
  intros Hne Hr. generalize PI_RGT_0; intros HPI.
  set (t := PI / 180 * (la1 + - la2) / 2).
  assert (Ht : - (PI / 2) < t < PI / 2) by (unfold t; split; nra).
  assert (Ht0 : t <> 0) by (unfold t; intros C; apply Hne; nra).
  assert (Hc : 0 < cos t) by (apply cos_gt_0; lra).
  assert (Hs : sin t <> 0).
  { destruct (Rtotal_order t 0) as [L|[E|G]]; [|contradiction|].
    - apply Rlt_not_eq. apply sin_lt_0_var; lra.
    - apply Rgt_not_eq. apply sin_gt_0; lra. }
  assert (Ha : haversineR la1 lo la2 lo = sin t ^ 2) by apply haversine_same_longitude.
  assert (H1 : 1 + - sin t ^ 2 = cos t ^ 2).
  { generalize (sin2_cos2 t). unfold Rsqr. intros. ring_simplify. lra. }
  assert (Hs2 : 0 < sin t ^ 2).
  { simpl. destruct (Rtotal_order (sin t) 0) as [L|[E|G]]; [nra|contradiction|nra]. }
  assert (Hc2 : 0 < cos t ^ 2) by (simpl; nra).
  eexists. split; [|apply distance_fin; rewrite Ha; lra].
  rewrite Ha, H1.
  apply Rmult_lt_0_compat; [lra|].
  apply atan2R_pos; apply sqrt_lt_R0; assumption.
Qed.

(** A point is at distance 0 from itself. *)
Lemma distance_self la lo :
  distance (mkLatLon (Fin la) (Fin lo)) (mkLatLon (Fin la) (Fin lo)) = Fin 0.
Proof.
  assert (Ha : haversineR la lo la lo = 0).
  { rewrite haversine_same_longitude.
    replace (PI / 180 * (la + - la) / 2) with 0 by field. rewrite sin_0. ring. }
  rewrite distance_fin by (rewrite Ha; lra).
  rewrite Ha. rewrite sqrt_0.
  replace (1 + - 0) with 1 by ring. rewrite sqrt_1.
  rewrite atan2R_zero by lra. f_equal. ring.
Qed.

End Distance.

(** ** The speed series of [extractSpeed] *)

Section Speed.

Import Geo Mapdump.
Local Open Scope R_scope.

(** On a track of two points the slice of every window holds the first
    point only, so no distance is ever added. *)
Lemma extractSpeed_two_points (p0 p1 : TrackPoint) :
  extractSpeed [p0; p1] =
  (let speed := jmul (jdiv (Fin 0) (jsub (time p1) (time p0))) (Fin 3600) in
   let s0 := if isNaN speed then Fin 1 else speed in
   let s1 := if isNaN speed then s0 else speed in
   [s0; s1]).
Proof. reflexivity. Qed.

(** C3, at a failing input: a track of two points 0.01 degree of
    latitude and 10 s apart.  The code returns the speeds 0 and 0; the
    window of the specification holds both points, so the specified speed
    at index 0 is the positive distance between them divided by the 10 s. *)
Theorem extractSpeed_drops_last_segment :
  let track :=
    [ mkTrackPoint (Fin 0) (Fin 60.05, Fin 24.95);
      mkTrackPoint (Fin 10000) (Fin 60.06, Fin 24.95) ] in
  extractSpeed track = [Fin 0; Fin 0] /\
  exists v, 0 < v /\ windowSpeed track 0 = Fin v.
Proof.
  intros track. split.
  - unfold track. rewrite extractSpeed_two_points.
    cbn -[Rmult Rplus Ropp Rminus Rdiv Reqb jdiv].
    rewrite jdiv_fin by lra.
    cbn -[Rmult Rplus Ropp Rminus Rdiv].
    repeat f_equal; field.
  - destruct (@distance_same_longitude_pos 60.05 60.06 24.95) as (d & Hd & Ed);
      [lra | lra |].
    exists ((0 + d) / (10000 + - 0) * 3600).
    split.
    + apply Rmult_lt_0_compat; [|lra]. apply Rdiv_lt_0_compat; lra.
    + unfold windowSpeed, track.
      change (slice _ _ _) with
        [ mkTrackPoint (Fin 0) (Fin 60.05, Fin 24.95);
          mkTrackPoint (Fin 10000) (Fin 60.06, Fin 24.95) ].
      cbn [sumDistances]. unfold latLonOf. cbn [coordinates fst snd].
      rewrite Ed.
      change (timeAt _ (Z.min _ _)) with (Fin 10000).
      change (timeAt _ (Z.max _ _)) with (Fin 0).
      cbn -[Rmult Rplus Ropp Rminus Rdiv Reqb jdiv].
      rewrite jdiv_fin by lra. reflexivity.
Qed.

(** On a track of three points every window runs from the first to the
    last point, and its slice holds the first two. *)
Lemma extractSpeed_three_points (p0 p1 p2 : TrackPoint) :
  extractSpeed [p0; p1; p2] =
  (let speed :=
     jmul (jdiv (jadd (Fin 0) (distance (latLonOf p0) (latLonOf p1)))
                (jsub (time p2) (time p0))) (Fin 3600) in
   let s0 := if isNaN speed then Fin 1 else speed in
   let s1 := if isNaN speed then s0 else speed in
   let s2 := if isNaN speed then s1 else speed in
   [s0; s1; s2]).
Proof. reflexivity. Qed.

(** C4, at a failing input: three points with one and the same
    timestamp, the first two 0.01 degree of latitude apart.  The quotient
    is a positive distance over zero, an infinity and not NaN, so it passes
    the NaN test and every speed of the series is infinite. *)
Theorem extractSpeed_infinite_on_equal_timestamps :
  extractSpeed
    [ mkTrackPoint (Fin 0) (Fin 60.05, Fin 24.95);
      mkTrackPoint (Fin 0) (Fin 60.06, Fin 24.95);
      mkTrackPoint (Fin 0) (Fin 60.06, Fin 24.95) ]
  = [PInf; PInf; PInf].
Proof.
  rewrite extractSpeed_three_points.
  destruct (@distance_same_longitude_pos 60.05 60.06 24.95) as (d & Hd & Ed);
    [lra | lra |].
  unfold latLonOf. cbn [coordinates fst snd time]. rewrite Ed.
  cbn -[Rmult Rplus Ropp Rminus Rdiv Reqb jdiv jmul].
  replace (0 + - 0) with 0 by ring.
  rewrite jdiv_pos_zero by lra.
  cbn -[Rmult Rplus Ropp Rminus Rdiv Reqb Rltb].
  unfold signed_inf. rewrite Reqb_false by lra. rewrite Rltb_true by lra.
  reflexivity.
Qed.

End Speed.

(** ** The coloured path *)

Section ColoredPath.

Import Geo Mapdump.
Local Open Scope R_scope.

Variable palette : list Z.

(** C8, at a failing input: on a 1000x800 image calibrated by
    [60.1,24.9,60.1,25.0,60.0,25.0,60.0,24.9], a track from the top-left
    to the bottom-left corner projects to the pixels (0,0) and (0,800),
    800 pixels apart, yet its only segment is skipped: the length is
    computed from the horizontal difference twice and comes out as 0. *)
Theorem drawColoredPath_skips_vertical_segment
  (bounds : Bounds) (weight : num) (minSpeed maxSpeed : option num)
  (speeds : list num) :
  let transform :=
    cornerCalTransform (Fin 1000) (Fin 800)
      (mkLatLon (Fin 60.1) (Fin 24.9)) (mkLatLon (Fin 60.1) (Fin 25))
      (mkLatLon (Fin 60) (Fin 25)) (mkLatLon (Fin 60) (Fin 24.9)) in
  let p0 := mkTrackPoint (Fin 0) (Fin 60.1, Fin 24.9) in
  let p1 := mkTrackPoint (Fin 10000) (Fin 60, Fin 24.9) in
  transform (latLonOf p0) = mkPoint (Fin 0) (Fin 0) /\
  transform (latLonOf p1) = mkPoint (Fin 0) (Fin 800) /\
  drawColoredPath palette transform bounds weight minSpeed maxSpeed speeds [p0; p1]
  = Returned [].
Proof.
  intros transform p0 p1.
  destruct (@cornerCalTransform_rectangle 1000 800 60.1 60 24.9 25)
    as (E0 & _ & _ & E1); try lra.
  fold transform in E0, E1.
  assert (F0 : transform (latLonOf p0) = mkPoint (Fin 0) (Fin 0)) by exact E0.
  assert (F1 : transform (latLonOf p1) = mkPoint (Fin 0) (Fin 800)) by exact E1.
  split; [assumption|]. split; [assumption|].
  unfold drawColoredPath. cbn [coloredPathLoop].
  rewrite F0, F1. cbn [px py].
  cbn -[Rmult Rplus Ropp Rminus Rdiv Reqb Rltb sqrt pow].
  replace ((0 + - 0) ^ 2 + (0 + - 0) ^ 2) with 0 by ring.
  rewrite Rltb_false by lra. cbn [jlt]. rewrite sqrt_0.
  rewrite Rltb_true by lra. reflexivity.
Qed.

(** The loop of drawColoredPath never reaches the track: the first
    statement of the block reads [trackPoints[0].coordinates]. *)
Lemma render_empty_track_throws (image : Image) (cornersCoordinates : Corners)
  (bounds : Bounds) (timezoneName : string) (includeHeader : bool) :
  render palette image cornersCoordinates bounds [] timezoneName includeHeader true
  = Thrown TypeError.
Proof. reflexivity. Qed.

Lemma drawTrackOnMap_fits (fuel : nat) (image : Image) (cornersCoordinates : Corners)
  (trackPoints : list TrackPoint) (timezoneName : string)
  (includeHeader includeTrack : bool) :
  let bounds := extractBounds image cornersCoordinates trackPoints in
  jgt (jsub (maxY bounds) (minY bounds)) MAX
  || jgt (jsub (maxX bounds) (minX bounds)) MAX = false ->
  drawTrackOnMap palette (S fuel) image cornersCoordinates trackPoints
    timezoneName includeHeader includeTrack
  = Some (render palette image cornersCoordinates bounds trackPoints timezoneName
            includeHeader includeTrack).
Proof. intros bounds E. cbn [drawTrackOnMap]. fold bounds. now rewrite E. Qed.

Lemma drawTrackOnMap_retry (fuel : nat) (image : Image) (cornersCoordinates : Corners)
  (trackPoints : list TrackPoint) (timezoneName : string)
  (includeHeader includeTrack : bool) :
  let bounds := extractBounds image cornersCoordinates trackPoints in
  let mWidth := jsub (maxX bounds) (minX bounds) in
  let mHeight := jsub (maxY bounds) (minY bounds) in
  jgt mHeight MAX || jgt mWidth MAX = true ->
  drawTrackOnMap palette (S fuel) image cornersCoordinates trackPoints
    timezoneName includeHeader includeTrack
  = drawTrackOnMap palette fuel
      (scaleImage image (jdiv MAX (Math_max mHeight mWidth)))
      cornersCoordinates trackPoints timezoneName includeHeader includeTrack.
Proof.
  intros bounds mWidth mHeight E. cbn [drawTrackOnMap].
  fold bounds. fold mWidth. fold mHeight. now rewrite E.
Qed.

End ColoredPath.

(** ** Render bounds *)

Section RenderBounds.

Import Geo Mapdump.
Local Open Scope R_scope.

Lemma lowish_update (p m : num) :
  lowish m -> lowish (if jlt p m then p else m).
Proof.
  intros Hm. destruct (jlt p m) eqn:E; [|assumption].
  destruct Hm as [->|(r & -> & Hr)].
  - destruct p; discriminate.
  - destruct p as [x| | |]; try discriminate.
    + right. exists x. split; [reflexivity|].
      rewrite jlt_fin in E. apply Rltb_iff in E. lra.
    + now left.
Qed.

Lemma highish_update c (p m : num) :
  highish c m -> highish c (if jgt p m then p else m).
Proof.
  intros Hm. unfold jgt. destruct (jlt m p) eqn:E; [|assumption].
  destruct Hm as [->|(r & -> & Hr)].
  - destruct p; discriminate.
  - destruct p as [x| | |]; try discriminate.
    + right. exists x. split; [reflexivity|].
      rewrite jlt_fin in E. apply Rltb_iff in E. lra.
    + now left.
Qed.

Lemma bounds_fold_shape transform trackPoints (b : Bounds) cx cy :
  lowish (minX b) -> highish cx (maxX b) ->
  lowish (minY b) -> highish cy (maxY b) ->
  let b' := fold_left (boundsStep transform) trackPoints b in
  lowish (minX b') /\ highish cx (maxX b') /\
  lowish (minY b') /\ highish cy (maxY b').
Proof.
  revert b. induction trackPoints as [|tp rest IH]; intros b H1 H2 H3 H4.
  - simpl. repeat split; assumption.
  - cbn [fold_left]. apply IH; unfold boundsStep; cbn [minX maxX minY maxY].
    + now apply lowish_update.
    + now apply highish_update.
    + now apply lowish_update.
    + now apply highish_update.
Qed.

Lemma lowish_floor a : lowish a -> lowish (Math_floor a).
Proof.
  intros [->|(r & -> & Hr)]; [now left|].
  right. eexists. split; [reflexivity|].
  generalize (Zfloor_bound r). lra.
Qed.

Lemma highish_ceil c a : highish c a -> highish c (Math_ceil a).
Proof.
  intros [->|(r & -> & Hr)]; [now left|].
  right. eexists. split; [reflexivity|].
  generalize (Zceil_bound r). lra.
Qed.

Lemma highish_span c hi lo : highish c hi -> lowish lo -> highish c (jsub hi lo).
Proof.
  intros [->|(a & -> & Ha)] [->|(b & -> & Hb)]; try (now left).
  right. exists (a + - b). split; [reflexivity | lra].
Qed.

(** The width and the height of the bounds of an image [W] by [H]. *)
Lemma extractBounds_span W Hh cornersCoordinates trackPoints :
  let b := extractBounds (mkImage (Fin W) (Fin Hh)) cornersCoordinates trackPoints in
  highish W (jsub (maxX b) (minX b)) /\ highish Hh (jsub (maxY b) (minY b)).
Proof.
  intros b. unfold b, extractBounds. cbn [width height minX maxX minY maxY].
  match goal with
  | |- context [fold_left (boundsStep ?t) trackPoints ?b0] =>
      destruct (@bounds_fold_shape t trackPoints b0 W Hh) as (A & B & C & D)
  end; cbn [minX maxX minY maxY].
  - right. exists 0. split; [reflexivity | lra].
  - right. exists W. split; [reflexivity | lra].
  - right. exists 0. split; [reflexivity | lra].
  - right. exists Hh. split; [reflexivity | lra].
  - split; apply highish_span;
      (apply highish_ceil || apply lowish_floor); assumption.
Qed.

(** A span that does not exceed [MAX] is a real number. *)
Lemma highish_fits c a :
  highish c a -> jgt a MAX = false -> exists r, a = Fin r /\ c <= r <= 32767.
Proof.
  intros [->|(r & -> & Hr)] E; [discriminate|].
  exists r. split; [reflexivity|]. split; [assumption|].
  unfold jgt, MAX in E. rewrite jlt_fin in E.
  apply Rnot_lt_le. intros C. apply Rltb_iff in C. congruence.
Qed.

(** The ratio of a retry is a real number of [0, 1). *)
Lemma retry_ratio cw ch mW mH :
  0 <= cw -> 0 <= ch -> highish cw mW -> highish ch mH ->
  jgt mH MAX || jgt mW MAX = true ->
  exists rho, 0 <= rho < 1 /\ jdiv MAX (Math_max mH mW) = Fin rho.
Proof.
  intros Hcw Hch [->|(a & -> & Ha)] [->|(b & -> & Hb)] E; unfold MAX in *.
  - exists 0. split; [lra|reflexivity].
  - exists 0. split; [lra|]. unfold Math_max. cbn. reflexivity.
  - exists 0. split; [lra|]. unfold Math_max. cbn. reflexivity.
  - unfold jgt in E. rewrite !jlt_fin in E.
    unfold Math_max. rewrite jlt_fin.
    assert (Hm : 32767 < (if Rltb b a then a else b)).
    { destruct (Rltb b a) eqn:Eba.
      - apply Rltb_iff in Eba. apply orb_true_iff in E.
        destruct E as [E|E]; apply Rltb_iff in E; lra.
      - assert (a <= b).
        { apply Rnot_lt_le. intros C. apply Rltb_iff in C. congruence. }
        apply orb_true_iff in E. destruct E as [E|E]; apply Rltb_iff in E; lra. }
    destruct (Rltb b a).
    + exists (32767 / a). split.
      * split; [apply Rlt_le, Rdiv_lt_0_compat; lra|].
        apply Rmult_lt_reg_r with a; [lra|]. unfold Rdiv.
        rewrite Rmult_assoc, Rinv_l by lra. lra.
      * apply jdiv_fin. lra.
    + exists (32767 / b). split.
      * split; [apply Rlt_le, Rdiv_lt_0_compat; lra|].
        apply Rmult_lt_reg_r with b; [lra|]. unfold Rdiv.
        rewrite Rmult_assoc, Rinv_l by lra. lra.
      * apply jdiv_fin. lra.
Qed.

(** Scaling a whole number of pixels by a ratio of [0, 1): the result is
    a whole number within one pixel below the exact product, and smaller
    than the original unless that was 0. *)
Lemma scaled_dimension (z : Z) rho :
  (0 <= z)%Z -> 0 <= rho < 1 ->
  let z' := Zfloor (IZR z * rho) in
  (0 <= z' <= z)%Z /\ ((0 < z)%Z -> (z' < z)%Z) /\
  IZR z * rho - 1 < IZR z' <= IZR z * rho.
Proof.
  intros Hz Hr z'. assert (Hzr : 0 <= IZR z) by (apply IZR_le; assumption).
  generalize (Zfloor_bound (IZR z * rho)). fold z'. intros [B1 B2].
  assert (P : 0 <= IZR z * rho) by (apply Rmult_le_pos; lra).
  assert (Q : IZR z * rho <= IZR z) by nra.
  split; [split|split].
  - apply Zfloor_lub. exact P.
  - apply le_IZR. lra.
  - intros Hpos. apply lt_IZR. assert (0 < IZR z) by (apply IZR_lt; assumption).
    assert (IZR z * rho < IZR z) by nra. lra.
  - lra.
Qed.

(** An image without width and height cannot be calibrated: every point
    goes to (NaN, NaN) and the bounds stay those of the image. *)
Lemma cornerCalTransform_zero_image tl tr br bl latLon :
  cornerCalTransform (Fin 0) (Fin 0) tl tr br bl latLon = mkPoint NaN NaN.
Proof.
  unfold cornerCalTransform, cornerCalMatrix, general2DProjection.
  rewrite project_zeroMatrix; [reflexivity|].
  apply multmm_zeroMatrix_l.
  apply basisToPoints_zeroMatrix; unfold det3; ring.
Qed.

Lemma bounds_fold_nan transform trackPoints (b : Bounds) :
  (forall p, transform p = mkPoint NaN NaN) ->
  fold_left (boundsStep transform) trackPoints b = b.
Proof.
  intros HT. revert b. induction trackPoints as [|tp rest IH]; intros b; [reflexivity|].
  cbn [fold_left]. rewrite <- (IH b) at 2. f_equal.
  unfold boundsStep. rewrite HT. cbn [px py]. unfold jgt.
  destruct b as [a1 a2 a3 a4]; cbn [minX maxX minY maxY].
  destruct a1, a2, a3, a4; reflexivity.
Qed.

Lemma extractBounds_zero_image cornersCoordinates trackPoints :
  extractBounds (mkImage (Fin 0) (Fin 0)) cornersCoordinates trackPoints
  = mkBounds (Fin 0) (Fin 0) (Fin 0) (Fin 0).
Proof.
  unfold extractBounds. cbn [width height].
  rewrite bounds_fold_nan by (intros; apply cornerCalTransform_zero_image).
  cbn [minX maxX minY maxY Math_floor Math_ceil].
  change 0 with (IZR 0). rewrite Zfloor_IZR_id, Zceil_IZR_id. reflexivity.
Qed.

End RenderBounds.

(** ** The passes of [drawTrackOnMap] *)

Section Passes.

Import Geo Mapdump.
Local Open Scope R_scope.

Variable palette : list Z.
Variable cornersCoordinates : Corners.
Variable trackPoints : list TrackPoint.
Variable timezoneName : string.
Variables includeHeader includeTrack : bool.


(** One retry on an image of whole non-negative size. *)
Lemma retry_step (zw zh : Z) :
  (0 <= zw)%Z -> (0 <= zh)%Z ->
  let image := mkImage (ofZ zw) (ofZ zh) in
  let bounds := extractBounds image cornersCoordinates trackPoints in
  let mWidth := jsub (maxX bounds) (minX bounds) in
  let mHeight := jsub (maxY bounds) (minY bounds) in
  jgt mHeight MAX || jgt mWidth MAX = true ->
  exists rho (zw' zh' : Z),
    0 <= rho < 1 /\
    jdiv MAX (Math_max mHeight mWidth) = Fin rho /\
    scaleImage image (Fin rho) = mkImage (ofZ zw') (ofZ zh') /\
    (0 <= zw' <= zw)%Z /\ (0 <= zh' <= zh)%Z /\
    (zw' + zh' < zw + zh)%Z /\
    IZR zw * rho - 1 < IZR zw' <= IZR zw * rho /\
    IZR zh * rho - 1 < IZR zh' <= IZR zh * rho.
Proof.
  intros Hw Hh image bounds mWidth mHeight E.
  assert (Pw : 0 <= IZR zw) by (apply IZR_le; assumption).
  assert (Ph : 0 <= IZR zh) by (apply IZR_le; assumption).
  destruct (@extractBounds_span (IZR zw) (IZR zh) cornersCoordinates trackPoints)
    as [SW SH].
  fold image in SW, SH. fold bounds in SW, SH. fold mWidth in SW. fold mHeight in SH.
  destruct (@retry_ratio (IZR zw) (IZR zh) mWidth mHeight Pw Ph SW SH E)
    as (rho & Hrho & Erho).
  destruct (@scaled_dimension zw rho Hw Hrho) as (W1 & W2 & W3).
  destruct (@scaled_dimension zh rho Hh Hrho) as (H1 & H2 & H3).
  exists rho, (Zfloor (IZR zw * rho)), (Zfloor (IZR zh * rho)).
  repeat split; try assumption; try lia; try lra.
  (* the sum shrinks: not both sizes are 0, else the bounds would fit *)
  destruct (Z.eq_dec zw 0) as [Zw|Zw]; destruct (Z.eq_dec zh 0) as [Zh|Zh]; try lia.
  exfalso. subst zw zh.
  unfold mHeight, mWidth, bounds, image, ofZ in E.
  rewrite extractBounds_zero_image in E.
  cbn [minX maxX minY maxY] in E. unfold jgt, MAX, jsub in E. cbn [jneg jadd] in E.
  rewrite !jlt_fin in E. rewrite !Rltb_false in E by lra. discriminate.
Qed.

(** With enough passes allowed, [drawTrackOnMap] reaches a pass whose
    bounds fit and returns what that pass renders. *)
Lemma drawTrackOnMap_reaches_render (fuel : nat) :
  forall zw zh : Z,
    (0 <= zw)%Z -> (0 <= zh)%Z -> (Z.to_nat (zw + zh) < fuel)%nat ->
    exists zw' zh' : Z,
      (0 <= zw' <= zw)%Z /\ (0 <= zh' <= zh)%Z /\
      let image' := mkImage (ofZ zw') (ofZ zh') in
      let bounds' := extractBounds image' cornersCoordinates trackPoints in
      jgt (jsub (maxY bounds') (minY bounds')) MAX
      || jgt (jsub (maxX bounds') (minX bounds')) MAX = false /\
      drawTrackOnMap palette fuel (mkImage (ofZ zw) (ofZ zh)) cornersCoordinates
        trackPoints timezoneName includeHeader includeTrack
      = Some (render palette image' cornersCoordinates bounds' trackPoints
                timezoneName includeHeader includeTrack).
Proof.
  induction fuel as [|fuel IH]; intros zw zh Hw Hh Hf; [lia|].
  set (image := mkImage (ofZ zw) (ofZ zh)).
  set (bounds := extractBounds image cornersCoordinates trackPoints).
  destruct (jgt (jsub (maxY bounds) (minY bounds)) MAX
            || jgt (jsub (maxX bounds) (minX bounds)) MAX) eqn:E.
  - destruct (@retry_step zw zh Hw Hh E)
      as (rho & zw1 & zh1 & Hrho & Erho & Escale & Hw1 & Hh1 & Hsum & _).
    destruct (IH zw1 zh1) as (zw' & zh' & A & B & C); try lia.
    exists zw', zh'. split; [lia|]. split; [lia|].
    cbv zeta in C. destruct C as [C1 C2]. cbv zeta. split; [exact C1|].
    rewrite drawTrackOnMap_retry by exact E.
    subst bounds image. cbv zeta in Erho, Escale.
    rewrite Erho, Escale. exact C2.
  - exists zw, zh. split; [lia|]. split; [lia|]. cbv zeta.
    fold image. fold bounds. split; [exact E|].
    now apply drawTrackOnMap_fits.
Qed.

End Passes.

(** ** Size cap and short tracks *)

Section SizeCap.

Import Geo Mapdump.
Local Open Scope R_scope.

Lemma ofNat_ofZ n : ofNat n = ofZ (Z.of_nat n).
Proof. unfold ofNat, ofZ. now rewrite INR_IZR_INZ. Qed.

Lemma drawTrackOnMap_result (palette : list Z) (cornersCoordinates : Corners)
  (trackPoints : list TrackPoint) (timezoneName : string)
  (includeHeader includeTrack : bool) (w h : nat) :
  exists (w' h' : nat) (bounds' : Bounds) (cw ch : R),
    (w' <= w)%nat /\ (h' <= h)%nat /\
    jsub (maxX bounds') (minX bounds') = Fin cw /\ 0 <= cw <= 32767 /\
    jsub (maxY bounds') (minY bounds') = Fin ch /\ 0 <= ch <= 32767 /\
    drawTrackOnMap palette (S (w + h)) (mkImage (ofNat w) (ofNat h))
      cornersCoordinates trackPoints timezoneName includeHeader includeTrack
    = Some (render palette (mkImage (ofNat w') (ofNat h')) cornersCoordinates
              bounds' trackPoints timezoneName includeHeader includeTrack).
Proof.
  destruct (@drawTrackOnMap_reaches_render palette cornersCoordinates trackPoints
              timezoneName includeHeader includeTrack (S (w + h))
              (Z.of_nat w) (Z.of_nat h))
    as (zw' & zh' & Hw & Hh & C); try lia.
  cbv zeta in C. destruct C as [Efit Erun].
  apply orb_false_iff in Efit. destruct Efit as [EH EW].
  destruct (@extractBounds_span (IZR zw') (IZR zh') cornersCoordinates trackPoints)
    as [SW SH].
  fold (ofZ zw') in SW, SH. fold (ofZ zh') in SW, SH.
  destruct (highish_fits SW EW) as (cw & Ecw & Hcw).
  destruct (highish_fits SH EH) as (ch & Ech & Hch).
  assert (Pw : 0 <= IZR zw') by (apply IZR_le; lia).
  assert (Ph : 0 <= IZR zh') by (apply IZR_le; lia).
  exists (Z.to_nat zw'), (Z.to_nat zh'),
    (extractBounds (mkImage (ofZ zw') (ofZ zh')) cornersCoordinates trackPoints),
    cw, ch.
  rewrite !ofNat_ofZ, !Z2Nat.id by lia.
  repeat split; try assumption; try lia; try lra.
Qed.


(** C7, at the failing input: with the track layer requested, as by
    default, an empty track makes [drawTrackOnMap] throw a TypeError
    instead of returning an image, whatever the image, the calibration
    and the header flag are. *)
Theorem drawTrackOnMap_empty_track_throws (palette : list Z)
  (cornersCoordinates : Corners) (timezoneName : string) (includeHeader : bool)
  (w h : nat) :
  drawTrackOnMap palette (S (w + h)) (mkImage (ofNat w) (ofNat h))
    cornersCoordinates [] timezoneName includeHeader true
  = Some (Thrown TypeError).
Proof.
  destruct (drawTrackOnMap_result palette cornersCoordinates [] timezoneName
              includeHeader true w h)
    as (w' & h' & b' & cw & ch & _ & _ & _ & _ & _ & _ & Erun).
  rewrite Erun. now rewrite render_empty_track_throws.
Qed.

End SizeCap.

Section SizeCapInstances.

Import Geo Mapdump.
Local Open Scope R_scope.




End SizeCapInstances.

(** ** A map turned by 45 degrees and a track far beyond it *)

Section TurnedMap.

Import Geo Mapdump.
Local Open Scope R_scope.











End TurnedMap.




(** ** Matching by derivatives is matching *)

Section RegexCorrect.

Import Regex.

Lemma Matches_Void_inv s : ~ Matches Void s.
Proof. intros H. inversion H. Qed.

Lemma Matches_Eps_inv s : Matches Eps s -> s = [].
Proof. intros H. now inversion H. Qed.

Lemma Matches_Sym_inv p s : Matches (Sym p) s -> exists c, s = [c] /\ p c = true.
Proof. intros H. inversion H; subst. eauto. Qed.

Lemma Matches_Cat_inv r1 r2 s :
  Matches (Cat r1 r2) s ->
  exists s1 s2, s = s1 ++ s2 /\ Matches r1 s1 /\ Matches r2 s2.
Proof. intros H. inversion H; subst. eauto. Qed.

Lemma Matches_Alt_inv r1 r2 s :
  Matches (Alt r1 r2) s -> Matches r1 s \/ Matches r2 s.
Proof. intros H. inversion H; subst; auto. Qed.

(** A non-empty match of a star starts with a non-empty match of its body. *)
Lemma Matches_Star_inv r s :
  Matches (Star r) s ->
  s = [] \/
  exists s1 s2, s = s1 ++ s2 /\ s1 <> [] /\ Matches r s1 /\ Matches (Star r) s2.
Proof.
  intros H. remember (Star r) as r' eqn:E.
  induction H as [| | | | | r0 | r0 s1 s2 H1 _ H2 IH2]; try discriminate.
  - now left.
  - inversion E; subst r0. destruct s1 as [|c s1].
    + simpl. now apply IH2.
    + right. exists (c :: s1), s2. repeat split; try assumption. discriminate.
Qed.

Lemma nullable_Matches r : nullable r = true <-> Matches r [].
Proof.
  induction r as [| |p|r1 IH1 r2 IH2|r1 IH1 r2 IH2|r IH]; simpl.
  - split; [discriminate | intros H; inversion H].
  - split; [constructor | reflexivity].
  - split; [discriminate | intros H; inversion H].
  - rewrite andb_true_iff, IH1, IH2. split.
    + intros [H1 H2]. change (@nil ascii) with (@nil ascii ++ []). now constructor.
    + intros H. apply Matches_Cat_inv in H. destruct H as (s1 & s2 & E & H1 & H2).
      symmetry in E. apply app_eq_nil in E. destruct E; subst. now split.
  - rewrite orb_true_iff, IH1, IH2. split.
    + intros [H|H]; [now apply MAltL | now apply MAltR].
    + apply Matches_Alt_inv.
  - split; [constructor | reflexivity].
Qed.

Lemma deriv_Matches c r : forall s, Matches (deriv c r) s <-> Matches r (c :: s).
Proof.
  induction r as [| |p|r1 IH1 r2 IH2|r1 IH1 r2 IH2|r IH]; intros s; simpl.
  - split; intros H; inversion H.
  - split; intros H; inversion H.
  - destruct (p c) eqn:E; split; intros H.
    + apply Matches_Eps_inv in H. subst. now constructor.
    + inversion H; subst. constructor.
    + inversion H.
    + inversion H; subst. congruence.
  - assert (Fwd : Matches (Cat (deriv c r1) r2) s -> Matches (Cat r1 r2) (c :: s)).
    { intros H. apply Matches_Cat_inv in H. destruct H as (s1 & s2 & -> & H1 & H2).
      apply IH1 in H1. change (c :: s1 ++ s2) with ((c :: s1) ++ s2). now constructor. }
    assert (Bwd : Matches (Cat r1 r2) (c :: s) ->
                  Matches (Cat (deriv c r1) r2) s \/
                  (Matches r1 [] /\ Matches (deriv c r2) s)).
    { intros H. apply Matches_Cat_inv in H. destruct H as (s1 & s2 & E & H1 & H2).
      destruct s1 as [|c1 s1].
      - simpl in E. subst s2. right. split; [assumption | now apply IH2].
      - simpl in E. inversion E; subst. left. constructor; [now apply IH1 | assumption]. }
    destruct (nullable r1) eqn:N.
    + split.
      * intros H. apply Matches_Alt_inv in H. destruct H as [H|H]; [now apply Fwd|].
        apply IH2 in H. apply nullable_Matches in N.
        change (c :: s) with ([] ++ c :: s). now constructor.
      * intros H. destruct (Bwd H) as [H1|[_ H2]]; [now apply MAltL | now apply MAltR].
    + split; [exact Fwd|].
      intros H. destruct (Bwd H) as [H1|[H1 _]]; [assumption|].
      apply nullable_Matches in H1. congruence.
  - split; intros H.
    + apply Matches_Alt_inv in H. destruct H as [H|H];
        [apply MAltL; now apply IH1 | apply MAltR; now apply IH2].
    + apply Matches_Alt_inv in H. destruct H as [H|H];
        [apply MAltL; now apply IH1 | apply MAltR; now apply IH2].
  - split; intros H.
    + apply Matches_Cat_inv in H. destruct H as (s1 & s2 & -> & H1 & H2).
      apply IH in H1. change (c :: s1 ++ s2) with ((c :: s1) ++ s2). now constructor.
    + apply Matches_Star_inv in H. destruct H as [H|(s1 & s2 & E & Hne & H1 & H2)];
        [discriminate|].
      destruct s1 as [|c1 s1]; [contradiction|].
      simpl in E. inversion E; subst. constructor; [now apply IH | assumption].
Qed.

Theorem matches_Matches r s : matches r s = true <-> Matches r s.
Proof.
  revert r. induction s as [|c s IH]; intros r; simpl.
  - apply nullable_Matches.
  - rewrite IH. apply deriv_Matches.
Qed.

(** ** The language of the building blocks *)

Lemma Matches_Chr c s : Matches (Chr c) s <-> s = [c].
Proof.
  unfold Chr. split.
  - intros H. apply Matches_Sym_inv in H. destruct H as (x & -> & E).
    apply Ascii.eqb_eq in E. now subst.
  - intros ->. constructor. apply Ascii.eqb_refl.
Qed.

Lemma Matches_Opt r s : Matches (Opt r) s <-> s = [] \/ Matches r s.
Proof.
  unfold Opt. split.
  - intros H. apply Matches_Alt_inv in H. destruct H as [H|H]; [left|now right].
    now apply Matches_Eps_inv.
  - intros [->|H]; [apply MAltL; constructor | now apply MAltR].
Qed.

Lemma Matches_Lit l s : Matches (Lit l) s <-> s = l.
Proof.
  revert s. induction l as [|c l IH]; intros s; simpl.
  - split; [apply Matches_Eps_inv | intros ->; constructor].
  - split.
    + intros H. apply Matches_Cat_inv in H. destruct H as (s1 & s2 & -> & H1 & H2).
      apply Matches_Chr in H1. apply IH in H2. now subst.
    + intros ->. change (c :: l) with ([c] ++ l).
      constructor; [now apply Matches_Chr | now apply IH].
Qed.

Lemma Matches_Star_Sym p s :
  Matches (Star (Sym p)) s <-> Forall (fun c => p c = true) s.
Proof.
  split.
  - intros H. remember (Star (Sym p)) as r eqn:E.
    induction H as [| | | | | r0 | r0 s1 s2 H1 _ H2 IH2]; try discriminate.
    + constructor.
    + inversion E; subst r0. apply Matches_Sym_inv in H1.
      destruct H1 as (c & -> & Hc). simpl. constructor; [assumption | now apply IH2].
  - induction 1 as [|c s Hc _ IH]; [constructor|].
    change (c :: s) with ([c] ++ s). constructor; [now constructor | assumption].
Qed.

Lemma Matches_Plus_Sym p s :
  Matches (Plus (Sym p)) s <-> s <> [] /\ Forall (fun c => p c = true) s.
Proof.
  unfold Plus. split.
  - intros H. apply Matches_Cat_inv in H. destruct H as (s1 & s2 & -> & H1 & H2).
    apply Matches_Sym_inv in H1. destruct H1 as (c & -> & Hc).
    apply Matches_Star_Sym in H2. split; [discriminate|]. now constructor.
  - intros [Hne HF]. destruct s as [|c s]; [contradiction|].
    inversion HF; subst. change (c :: s) with ([c] ++ s).
    constructor; [now constructor | now apply Matches_Star_Sym].
Qed.

Lemma Matches_Rep n r s :
  Matches (Rep n r) s <->
  exists pieces, List.length pieces = n /\ Forall (Matches r) pieces /\
                 s = List.concat pieces.
Proof.
  revert s. induction n as [|n IH]; intros s; simpl.
  - split.
    + intros H. apply Matches_Eps_inv in H. subst. exists []. now repeat split.
    + intros (pieces & L & _ & ->). destruct pieces; [constructor | discriminate].
  - split.
    + intros H. apply Matches_Cat_inv in H. destruct H as (s1 & s2 & -> & H1 & H2).
      apply IH in H2. destruct H2 as (pieces & L & F & ->).
      exists (s1 :: pieces). simpl. repeat split; [now f_equal | now constructor].
    + intros (pieces & L & F & ->). destruct pieces as [|p pieces]; [discriminate|].
      inversion F; subst. simpl. constructor; [assumption|].
      apply IH. exists pieces. repeat split; [now inversion L | assumption].
Qed.

End RegexCorrect.

(** ** The file-name convention *)

Section FilenameConvention.

Import Regex MapEdit.

Lemma Matches_digits s : Matches (Plus (Sym isDigit)) s <-> digits s.
Proof. apply Matches_Plus_Sym. Qed.

Lemma Matches_numberRe s : Matches numberRe s <-> signedDecimal s.
Proof.
  unfold numberRe, signedDecimal. split.
  - intros H. apply Matches_Cat_inv in H. destruct H as (sign & rest & -> & Hs & H).
    apply Matches_Cat_inv in H. destruct H as (int & frac & -> & Hi & Hf).
    exists sign, int, frac. split; [reflexivity|].
    apply Matches_Opt in Hs. apply Matches_digits in Hi. apply Matches_Opt in Hf.
    repeat split; try (apply Hi).
    + destruct Hs as [->|Hs]; [now left|right]. now apply Matches_Chr in Hs.
    + destruct Hf as [->|Hf]; [now left|right].
      apply Matches_Cat_inv in Hf. destruct Hf as (d & f & -> & Hd & Hf).
      apply Matches_Chr in Hd. subst d. exists f. split; [reflexivity|].
      now apply Matches_digits.
  - intros (sign & int & frac & -> & Hs & Hi & Hf).
    constructor; [|constructor].
    + apply Matches_Opt. destruct Hs as [->| ->]; [now left|right].
      now apply Matches_Chr.
    + now apply Matches_digits.
    + apply Matches_Opt. destruct Hf as [->|(f & -> & Hf)]; [now left|right].
      change ("."%char :: f) with (["."%char] ++ f).
      constructor; [now apply Matches_Chr | now apply Matches_digits].
Qed.

Lemma Matches_extensionRe s : Matches extensionRe s <-> In s extensions.
Proof.
  unfold extensionRe, extensions. split.
  - intros H. repeat (apply Matches_Alt_inv in H; destruct H as [H|H]);
      apply Matches_Lit in H; subst; simpl; auto 10.
  - intros H. simpl in H.
    destruct H as [<-|[<-|[<-|[<-|[<-|[]]]]]].
    + apply MAltL. now apply Matches_Lit.
    + apply MAltR, MAltL. now apply Matches_Lit.
    + apply MAltR, MAltR, MAltL. now apply Matches_Lit.
    + apply MAltR, MAltR, MAltR, MAltL. now apply Matches_Lit.
    + apply MAltR, MAltR, MAltR, MAltR. now apply Matches_Lit.
Qed.

Lemma underscored_pieces (pieces : list (list ascii)) :
  Forall (Matches (Cat (Chr "_") numberRe)) pieces <->
  exists numbers, pieces = map (cons "_"%char) numbers /\ Forall signedDecimal numbers.
Proof.
  split.
  - induction 1 as [|p pieces Hp _ (numbers & -> & HF)].
    + exists []. split; [reflexivity | constructor].
    + apply Matches_Cat_inv in Hp. destruct Hp as (u & n & -> & Hu & Hn).
      apply Matches_Chr in Hu. subst u. apply Matches_numberRe in Hn.
      exists (n :: numbers). split; [reflexivity | now constructor].
  - intros (numbers & -> & HF). induction HF as [|n numbers Hn _ IH]; simpl.
    + constructor.
    + constructor; [|assumption].
      change ("_"%char :: n) with (["_"%char] ++ n).
      constructor; [now apply Matches_Chr | now apply Matches_numberRe].
Qed.

Lemma conventionSuffix_concat numbers ext :
  List.concat (map (cons "_"%char) numbers) ++ "_"%char :: "."%char :: ext
  = conventionSuffix numbers ext.
Proof.
  unfold conventionSuffix. induction numbers as [|n numbers IH]; [reflexivity|].
  simpl. rewrite <- app_assoc, IH. reflexivity.
Qed.

(** The strings the file-name pattern accepts. *)
Lemma Matches_filenameRe s :
  Matches filenameRe s <->
  exists numbers ext,
    List.length numbers = 8%nat /\ Forall signedDecimal numbers /\
    In ext extensions /\ s = conventionSuffix numbers ext.
Proof.
  unfold filenameRe. split.
  - intros H. apply Matches_Cat_inv in H. destruct H as (s1 & s2 & -> & H1 & H2).
    apply Matches_Rep in H1. destruct H1 as (pieces & L & F & ->).
    apply underscored_pieces in F. destruct F as (numbers & -> & HF).
    apply Matches_Cat_inv in H2. destruct H2 as (u & s3 & -> & Hu & H3).
    apply Matches_Chr in Hu. subst u.
    apply Matches_Cat_inv in H3. destruct H3 as (d & ext & -> & Hd & He).
    apply Matches_Chr in Hd. subst d. apply Matches_extensionRe in He.
    exists numbers, ext. rewrite length_map in L.
    repeat split; try assumption. apply conventionSuffix_concat.
  - intros (numbers & ext & L & HF & He & ->).
    rewrite <- conventionSuffix_concat. constructor.
    + apply Matches_Rep. exists (map (cons "_"%char) numbers).
      rewrite length_map. repeat split; [assumption|].
      apply underscored_pieces. now exists numbers.
    + change ("_"%char :: "."%char :: ext) with (["_"%char] ++ ["."%char] ++ ext).
      constructor; [now apply Matches_Chr|].
      constructor; [now apply Matches_Chr | now apply Matches_extensionRe].
Qed.

(** Numbers and extensions hold no underscore. *)
Lemma isDigit_not_underscore c : isDigit c = true -> c <> "_"%char.
Proof. intros H ->. discriminate. Qed.

Lemma digits_no_underscore s : digits s -> ~ In "_"%char s.
Proof.
  intros [_ HF] HIn. rewrite Forall_forall in HF.
  apply HF in HIn. now apply isDigit_not_underscore in HIn.
Qed.

Lemma signedDecimal_no_underscore s : signedDecimal s -> ~ In "_"%char s.
Proof.
  intros (sign & int & frac & -> & Hs & Hi & Hf) HIn.
  apply in_app_or in HIn. destruct HIn as [HIn|HIn].
  - destruct Hs as [->| ->]; simpl in HIn; [contradiction|].
    destruct HIn as [E|[]]; discriminate.
  - apply in_app_or in HIn. destruct HIn as [HIn|HIn].
    + now apply digits_no_underscore in HIn.
    + destruct Hf as [->|(f & -> & Hf)]; simpl in HIn; [contradiction|].
      destruct HIn as [E|HIn]; [discriminate|].
      now apply digits_no_underscore in HIn.
Qed.

Lemma extension_no_underscore ext : In ext extensions -> ~ In "_"%char ext.
Proof.
  unfold extensions. simpl.
  intros [<-|[<-|[<-|[<-|[<-|[]]]]]] HIn; simpl in HIn;
    repeat (destruct HIn as [E|HIn]; [discriminate|]); contradiction.
Qed.

End FilenameConvention.

(** ** Splitting, joining and the leftmost match *)

Section ExtractCorners.

Import Regex MapEdit.

Lemma split_no_separator sep s : ~ In sep s -> split sep s = [s].
Proof.
  induction s as [|c s IH]; intros H; [reflexivity|].
  simpl. destruct (Ascii.eqb c sep) eqn:E.
  - apply Ascii.eqb_eq in E. subst. exfalso. apply H. now left.
  - rewrite IH; [reflexivity|]. intros C. apply H. now right.
Qed.

Lemma split_at_separator sep s rest :
  ~ In sep s -> split sep (s ++ sep :: rest) = s :: split sep rest.
Proof.
  induction s as [|c s IH]; intros H; simpl.
  - now rewrite Ascii.eqb_refl.
  - destruct (Ascii.eqb c sep) eqn:E.
    + apply Ascii.eqb_eq in E. subst. exfalso. apply H. now left.
    + rewrite IH; [reflexivity|]. intros C. apply H. now right.
Qed.

Lemma split_afterUnderscore numbers ext :
  Forall signedDecimal numbers -> In ext extensions ->
  split "_" (afterUnderscore numbers ext) = numbers ++ ["."%char :: ext].
Proof.
  intros HF He. induction HF as [|n numbers Hn _ IH]; simpl afterUnderscore.
  - apply split_no_separator. intros [C|C]; [discriminate|].
    now apply extension_no_underscore in C.
  - rewrite split_at_separator by now apply signedDecimal_no_underscore.
    now rewrite IH.
Qed.

(** The words of a matched text: an empty first word, the numbers, and
    the dot with the extension. *)
Lemma split_conventionSuffix numbers ext :
  Forall signedDecimal numbers -> In ext extensions ->
  split "_" (conventionSuffix numbers ext) = [] :: numbers ++ ["."%char :: ext].
Proof.
  intros HF He. unfold conventionSuffix.
  change ("_"%char :: afterUnderscore numbers ext)
    with ([] ++ "_"%char :: afterUnderscore numbers ext).
  rewrite split_at_separator by (intros []).
  now rewrite split_afterUnderscore.
Qed.

Lemma shift_pop_words (numbers : list (list ascii)) (last : list ascii) :
  shift (pop ([] :: numbers ++ [last])) = numbers.
Proof.
  unfold shift, pop.
  change ([] :: numbers ++ [last]) with (([] :: numbers) ++ [last]).
  now rewrite removelast_last.
Qed.

Lemma join_cons sep p q rest :
  join sep (p :: q :: rest) = p ++ sep ++ join sep (q :: rest).
Proof. reflexivity. Qed.

Lemma join_concat sep p rest :
  join sep (p :: rest) = p ++ List.concat (map (app sep) rest).
Proof.
  revert p. induction rest as [|q rest IH]; intros p.
  - simpl. now rewrite app_nil_r.
  - rewrite join_cons, IH. simpl. now rewrite <- app_assoc.
Qed.

(** Eight numbers joined by commas are a calibration string. *)
Lemma joined_numbers_valid numbers :
  List.length numbers = 8%nat -> Forall signedDecimal numbers ->
  isValidCalibString (join (str ",") numbers) = true.
Proof.
  intros L HF. unfold isValidCalibString. apply matches_Matches.
  destruct numbers as [|n rest]; [discriminate|].
  inversion HF as [|? ? Hn Hrest]; subst.
  rewrite join_concat. unfold calibRe. constructor.
  - now apply Matches_numberRe.
  - apply Matches_Rep. exists (map (app (str ",")) rest).
    rewrite length_map. repeat split; [now inversion L|].
    clear L HF. induction Hrest as [|m rest Hm _ IH]; simpl; constructor.
    + apply (@MCat (Chr ",") numberRe [","%char] m);
        [now apply Matches_Chr | now apply Matches_numberRe].
    + assumption.
Qed.

Lemma matchToEnd_unfold r s :
  matchToEnd r s =
  if matches r s then Some s
  else match s with
       | [] => None
       | _ :: s' => matchToEnd r s'
       end.
Proof. destruct s; reflexivity. Qed.

(** The match found is a suffix the pattern accepts. *)
Lemma matchToEnd_Some r s found :
  matchToEnd r s = Some found ->
  matches r found = true /\ exists before, s = before ++ found.
Proof.
  induction s as [|c s IH]; rewrite matchToEnd_unfold.
  - destruct (matches r []) eqn:E; [|discriminate].
    intros H. inversion H; subst. split; [assumption | now exists []].
  - destruct (matches r (c :: s)) eqn:E.
    + intros H. inversion H; subst. split; [assumption | now exists []].
    + intros H. destruct (IH H) as (Hm & before & ->).
      split; [assumption | now exists (c :: before)].
Qed.

(** A suffix is found when no longer suffix is accepted. *)
Lemma matchToEnd_finds r before s :
  matches r s = true ->
  (forall x y, before = x ++ y -> y <> [] -> matches r (y ++ s) = false) ->
  matchToEnd r (before ++ s) = Some s.
Proof.
  intros Hs. induction before as [|c before IH]; intros Hno.
  - simpl. rewrite matchToEnd_unfold, Hs. reflexivity.
  - simpl app. rewrite matchToEnd_unfold.
    assert (Hc : matches r (c :: before ++ s) = false)
      by (apply (Hno [] (c :: before)); [reflexivity | discriminate]).
    rewrite Hc.
    apply IH. intros x y E Hy. apply (Hno (c :: x) y); [now rewrite E | assumption].
Qed.

Lemma count_afterUnderscore numbers ext :
  Forall signedDecimal numbers -> In ext extensions ->
  count_occ ascii_dec (afterUnderscore numbers ext) "_"%char = List.length numbers.
Proof.
  intros HF He. induction HF as [|n numbers Hn _ IH]; simpl afterUnderscore.
  - apply count_occ_not_In. intros [C|C]; [discriminate|].
    now apply extension_no_underscore in C.
  - rewrite count_occ_app. simpl count_occ.
    destruct (ascii_dec "_" "_") as [_|C]; [|contradiction].
    rewrite IH. simpl.
    assert (Z : count_occ ascii_dec n "_"%char = 0%nat).
    { apply count_occ_not_In. now apply signedDecimal_no_underscore. }
    now rewrite Z.
Qed.

(** An accepted text holds nine underscores and starts with one, so no
    text with something in front of an accepted text is accepted. *)
Lemma no_longer_match y s :
  y <> [] -> matches filenameRe s = true -> matches filenameRe (y ++ s) = false.
Proof.
  intros Hy Hs. destruct (matches filenameRe (y ++ s)) eqn:E; [|reflexivity].
  exfalso.
  apply matches_Matches, Matches_filenameRe in Hs.
  apply matches_Matches, Matches_filenameRe in E.
  destruct Hs as (ns & ext & L & HF & He & ->).
  destruct E as (ns' & ext' & L' & HF' & He' & E).
  assert (C : count_occ ascii_dec (y ++ conventionSuffix ns ext) "_"%char
              = count_occ ascii_dec (conventionSuffix ns' ext') "_"%char)
    by now rewrite E.
  rewrite count_occ_app in C. unfold conventionSuffix in C. simpl count_occ in C.
  destruct (ascii_dec "_" "_") as [_|N]; [|contradiction].
  rewrite !count_afterUnderscore in C by assumption.
  rewrite L, L' in C.
  assert (Z : count_occ ascii_dec y "_"%char = 0%nat) by lia.
  destruct y as [|c y]; [contradiction|].
  unfold conventionSuffix in E. simpl in E. inversion E; subst c.
  simpl in Z. destruct (ascii_dec "_" "_") as [_|N]; [discriminate | contradiction].
Qed.

(** C9 (as amended): for every file name that ends in eight signed
    decimal numbers, each preceded by an underscore, then one more
    underscore, a dot and one of the extensions gif, png, jpg, jpeg and
    webp, [extractCornersCoordsFromFilename] returns the eight numbers
    joined by commas, and [isValidCalibString] accepts that string; for
    every other file name it returns [false]. *)
Theorem extractCornersCoordsFromFilename_convention :
  (forall (before : list ascii) (numbers : list (list ascii)) (ext : list ascii),
      List.length numbers = 8%nat -> Forall signedDecimal numbers ->
      In ext extensions ->
      extractCornersCoordsFromFilename (before ++ conventionSuffix numbers ext)
      = Some (join (str ",") numbers) /\
      isValidCalibString (join (str ",") numbers) = true) /\
  (forall filename : list ascii,
      ~ (exists before numbers ext,
            List.length numbers = 8%nat /\ Forall signedDecimal numbers /\
            In ext extensions /\
            filename = before ++ conventionSuffix numbers ext) ->
      extractCornersCoordsFromFilename filename = None).
Proof.
  split.
  - intros before numbers ext L HF He.
    split; [|now apply joined_numbers_valid].
    assert (Hm : matches filenameRe (conventionSuffix numbers ext) = true).
    { apply matches_Matches, Matches_filenameRe. now exists numbers, ext. }
    unfold extractCornersCoordsFromFilename.
    rewrite matchToEnd_finds; [|assumption|].
    + rewrite split_conventionSuffix by assumption.
      now rewrite shift_pop_words.
    + intros x y _ Hy. now apply no_longer_match.
  - intros filename Hnot. unfold extractCornersCoordsFromFilename.
    destruct (matchToEnd filenameRe filename) as [found|] eqn:E; [|reflexivity].
    exfalso. apply Hnot.
    apply matchToEnd_Some in E. destruct E as (Hm & before & ->).
    apply matches_Matches, Matches_filenameRe in Hm.
    destruct Hm as (numbers & ext & L & HF & He & ->).
    now exists before, numbers, ext.
Qed.

End ExtractCorners.

(** C9, counterexample: a file name that ends in eight numbers separated
    by underscores right before [.png], without the underscore in front
    of the dot, is not recognised. *)
Lemma extractCornersCoordsFromFilename_needs_trailing_underscore :
  MapEdit.extractCornersCoordsFromFilename
    (MapEdit.str "map_60.1_24.9_60.1_25.0_60.0_25.0_60.0_24.9.png")
  = None.
Proof. vm_compute. reflexivity. Qed.

(** C9, instance: the file name
    [map_60.1_24.9_60.1_25.0_60.0_25.0_60.0_-24.9_.png]. *)
Lemma extractCornersCoordsFromFilename_convention_witness :
  MapEdit.extractCornersCoordsFromFilename
    (MapEdit.str "map" ++
     conventionSuffix
       [MapEdit.str "60.1"; MapEdit.str "24.9"; MapEdit.str "60.1";
        MapEdit.str "25.0"; MapEdit.str "60.0"; MapEdit.str "25.0";
        MapEdit.str "60.0"; MapEdit.str "-24.9"]
       (MapEdit.str "png"))
  = Some (MapEdit.str "60.1,24.9,60.1,25.0,60.0,25.0,60.0,-24.9") /\
  MapEdit.isValidCalibString
    (MapEdit.str "60.1,24.9,60.1,25.0,60.0,25.0,60.0,-24.9") = true.
Proof.
  destruct extractCornersCoordsFromFilename_convention as [P _].
  apply (P (MapEdit.str "map")
           [MapEdit.str "60.1"; MapEdit.str "24.9"; MapEdit.str "60.1";
            MapEdit.str "25.0"; MapEdit.str "60.0"; MapEdit.str "25.0";
            MapEdit.str "60.0"; MapEdit.str "-24.9"]
           (MapEdit.str "png")).
  - reflexivity.
  - assert (D2 : forall a b : ascii,
               MapEdit.isDigit a = true -> MapEdit.isDigit b = true ->
               digits [a; b]).
    { intros a b Ha Hb. split; [discriminate|]. repeat constructor; assumption. }
    assert (D1 : forall a : ascii, MapEdit.isDigit a = true -> digits [a]).
    { intros a Ha. split; [discriminate|]. repeat constructor; assumption. }
    assert (N : forall a b c : ascii,
               MapEdit.isDigit a = true -> MapEdit.isDigit b = true ->
               MapEdit.isDigit c = true ->
               signedDecimal [a; b; "."%char; c]).
    { intros a b c Ha Hb Hc. exists [], [a; b], ["."%char; c].
      repeat split; try reflexivity; try discriminate;
        [now left | repeat constructor; assumption |].
      right. exists [c]. split; [reflexivity | now apply D1]. }
    repeat (constructor; [apply N; reflexivity|]).
    constructor; [|constructor].
    exists ["-"%char], (MapEdit.str "24"), (MapEdit.str ".9").
    repeat split; try reflexivity; try discriminate;
      [now right | repeat constructor |].
    right. exists (MapEdit.str "9"). split; [reflexivity | now apply D1].
  - simpl. auto.
Defined.

(* ================================================================== *)
(** * Further properties *)
(* ================================================================== *)

(** ** The tile pyramid of [SpheroidProjection] *)

Section TilePyramid.

Import Geo.
Local Open Scope R_scope.

(** X1: the resolution of each zoom level is a positive finite number,
    half that of the level before it and so strictly below it. *)
Theorem resolution_halves zoom :
  resolution (S zoom) = jdiv (resolution zoom) (Fin 2) /\
  jlt (Fin 0) (resolution (S zoom)) = true /\
  jlt (resolution (S zoom)) (resolution zoom) = true.
Proof.
  rewrite !resolution_fin. rewrite jdiv_fin by lra. rewrite !jlt_fin.
  repeat split.
  - f_equal. apply resR_half.
  - apply Rltb_true, resR_pos.
  - apply Rltb_true, resR_succ_lt.
Qed.

(** X2: [zoomForPixelSize] undoes [resolution] on the zoom levels 0 to
    28; for the resolution of every zoom level from 29 on it falls off
    its loop and returns [undefined]. *)
Theorem zoomForPixelSize_resolution zoom :
  zoomForPixelSize (resolution zoom) =
  if (zoom <=? 28)%nat then Some (Z.of_nat zoom) else None.
Proof.
  rewrite resolution_fin. unfold zoomForPixelSize.
  destruct (zoomLoop (Fin (resR zoom)) 0 30) as [z|] eqn:E.
  - apply zoomLoop_some in E. destruct E as (k & Hk & Hz & Hlt & Hall).
    assert (Hzk : (zoom < k)%nat).
    { destruct (Nat.lt_ge_cases zoom k) as [|Hge]; [assumption|].
      generalize (resR_antitone Hge); lra. }
    assert (Hk1 : (k <= S zoom)%nat).
    { destruct (Nat.lt_ge_cases (S zoom) k) as [Hlt'|]; [|assumption].
      assert (Hx : resR zoom <= resR (S zoom)) by (apply Hall; lia).
      generalize (resR_succ_lt zoom); lra. }
    assert (k = S zoom) by lia. subst k.
    destruct (Nat.leb_spec zoom 28); [|lia].
    f_equal. lia.
  - destruct (Nat.leb_spec zoom 28) as [Hle|]; [|reflexivity].
    assert (Hx : resR zoom <= resR (S zoom)) by (apply (zoomLoop_none _ _ E); lia).
    generalize (resR_succ_lt zoom); lra.
Qed.

Lemma originShift_fin : originShift = Fin (PI * 6378137).
Proof. reflexivity. Qed.

Lemma pow2_pos n : 0 < 2 ^ n.
Proof. apply pow_lt; lra. Qed.

Lemma pixelsToMeters_fin a b zoom :
  pixelsToMeters (Fin a) (Fin b) zoom =
  mkPoint (Fin (a * resR zoom - PI * 6378137)) (Fin (b * resR zoom - PI * 6378137)).
Proof.
  unfold pixelsToMeters. rewrite resolution_fin, originShift_fin. reflexivity.
Qed.

(** X3: at every zoom level [pixelsToMeters] sends pixel 0 to minus the
    origin shift, the middle pixel [128 * 2^zoom] to 0 and the last pixel
    [256 * 2^zoom] to the origin shift, and a pixel of one zoom level
    and the pixel with twice its coordinates on the next level are the
    same point in meters. *)
Theorem pixelsToMeters_extent zoom :
  pixelsToMeters (Fin 0) (Fin 0) zoom = mkPoint (jneg originShift) (jneg originShift) /\
  pixelsToMeters (Fin (128 * 2 ^ zoom)) (Fin (128 * 2 ^ zoom)) zoom
    = mkPoint (Fin 0) (Fin 0) /\
  pixelsToMeters (Fin (256 * 2 ^ zoom)) (Fin (256 * 2 ^ zoom)) zoom
    = mkPoint originShift originShift /\
  forall a b : R,
    pixelsToMeters (jmul (Fin 2) (Fin a)) (jmul (Fin 2) (Fin b)) (S zoom)
    = pixelsToMeters (Fin a) (Fin b) zoom.
Proof.
  generalize (pow2_pos zoom); intros Hp.
  split; [|split; [|split]].
  - rewrite pixelsToMeters_fin, originShift_fin. cbn [jneg].
    f_equal; f_equal; ring.
  - rewrite pixelsToMeters_fin. unfold resR. f_equal; f_equal; field; lra.
  - rewrite pixelsToMeters_fin, originShift_fin. unfold resR.
    f_equal; f_equal; field; lra.
  - intros a b. cbn [jmul]. rewrite !pixelsToMeters_fin. rewrite resR_half.
    f_equal; f_equal; field.
Qed.

End TilePyramid.

(** ** [MetersToLatLon] undoes [LatLonToMeters], and back *)

Section MercatorInverse.

Import Geo.
Local Open Scope R_scope.

Lemma MetersToLatLon_fin x y :
  MetersToLatLon (mkPoint (Fin x) (Fin y)) = mkLatLon (Fin (unmercY y)) (Fin (unmercX x)).
Proof.
  generalize PI_RGT_0; intros HPI.
  unfold MetersToLatLon, rad, pi, Math_PI. rewrite pi_180_fin. cbn [px py].
  rewrite !(@jdiv_fin _ 6378137) by lra.
  cbn [Math_exp Math_atan jmul]. rewrite (@jdiv_fin PI 2) by lra.
  unfold jsub. cbn [jneg jadd].
  rewrite !jdiv_fin by lra. reflexivity.
Qed.

Lemma unmercY_range y : -90 < unmercY y < 90.
Proof.
  generalize PI_RGT_0; intros HPI.
  destruct (atan_bound (exp (y / 6378137))) as [_ Hhi].
  assert (Hlo : 0 < atan (exp (y / 6378137))).
  { rewrite <- atan_0. apply atan_increasing. apply exp_pos. }
  assert (E : unmercY y * (PI / 180) = 2 * atan (exp (y / 6378137)) - PI / 2)
    by (unfold unmercY; field; lra).
  split; nra.
Qed.

Lemma unmercY_mercY la : -90 < la < 90 -> unmercY (mercY la) = la.
Proof.
  intros H. generalize PI_RGT_0; intros HPI.
  destruct (half_angle_range H) as [H0 H1].
  unfold unmercY, mercY.
  replace (ln (tan ((90 + la) * (PI / 180) / 2)) * 6378137 / 6378137)
    with (ln (tan ((90 + la) * (PI / 180) / 2))) by (field).
  rewrite exp_ln by (apply tan_gt_0; assumption).
  rewrite atan_tan by lra.
  field. lra.
Qed.

Lemma mercY_unmercY y : mercY (unmercY y) = y.
Proof.
  generalize PI_RGT_0; intros HPI.
  unfold unmercY, mercY.
  replace ((90 + (2 * atan (exp (y / 6378137)) - PI / 2) / (PI / 180)) * (PI / 180) / 2)
    with (atan (exp (y / 6378137))) by (field; lra).
  rewrite tan_atan, ln_exp. field.
Qed.

Lemma unmercX_mercX lo : unmercX (mercX lo) = lo.
Proof. generalize PI_RGT_0; intros HPI. unfold unmercX, mercX. field. lra. Qed.

Lemma mercX_unmercX x : mercX (unmercX x) = x.
Proof. generalize PI_RGT_0; intros HPI. unfold unmercX, mercX. field. lra. Qed.

(** The south pole has no finite ordinate: the logarithm of the tangent
    of 0 is minus infinity. *)
Lemma LatLonToMeters_south_pole lo :
  LatLonToMeters (mkLatLon (Fin (-90)) (Fin lo)) = mkPoint (Fin (mercX lo)) NInf.
Proof.
  generalize PI_RGT_0; intros HPI.
  unfold LatLonToMeters, rad. rewrite pi_180_fin. cbn [lat lon jmul jadd].
  rewrite jdiv_fin by lra.
  replace ((90 + -90) * (PI / 180) / 2) with 0 by (field; lra).
  unfold Math_tan. rewrite sin_0, cos_0. rewrite jdiv_fin by lra.
  replace (0 / 1) with 0 by field.
  unfold Math_log. rewrite Rltb_false by lra. rewrite Reqb_refl.
  cbn [jmul]. unfold signed_inf. rewrite Reqb_false by lra.
  rewrite Rltb_true by lra. reflexivity.
Qed.

(** X4: [MetersToLatLon] gives back every finite longitude and every
    latitude from -90 up to, but not including, 90 that
    [LatLonToMeters] projected; the south pole makes the round trip
    through the ordinate minus infinity. *)
Theorem MetersToLatLon_LatLonToMeters la lo :
  -90 <= la < 90 ->
  MetersToLatLon (LatLonToMeters (mkLatLon (Fin la) (Fin lo)))
  = mkLatLon (Fin la) (Fin lo).
Proof.
  intros [Hlo Hhi]. generalize PI_RGT_0; intros HPI.
  destruct (Req_dec_T la (-90)) as [->|Hne].
  - rewrite LatLonToMeters_south_pole.
    unfold MetersToLatLon, rad, pi, Math_PI. rewrite pi_180_fin. cbn [px py].
    rewrite !(@jdiv_fin _ 6378137) by lra.
    cbn [jdiv]. rewrite Rltb_false by lra. rewrite !Reqb_false by lra.
    cbn [Math_exp Math_atan jmul].
    rewrite atan_0. unfold jsub. cbn [jneg jadd].
    rewrite jdiv_fin by lra. fold (mercX lo).
    f_equal; f_equal.
    + field. lra.
    + apply unmercX_mercX.
  - rewrite LatLonToMeters_fin by lra. rewrite MetersToLatLon_fin.
    rewrite unmercY_mercY by lra. now rewrite unmercX_mercX.
Qed.

Lemma LatLonToMeters_after_MetersToLatLon x y :
  LatLonToMeters (MetersToLatLon (mkPoint (Fin x) (Fin y))) = mkPoint (Fin x) (Fin y).
Proof.
  rewrite MetersToLatLon_fin.
  rewrite LatLonToMeters_fin by apply unmercY_range.
  now rewrite mercX_unmercX, mercY_unmercY.
Qed.

(** X5: [LatLonToMeters] gives back every finite point in meters that
    [MetersToLatLon] turned into a latitude and a longitude, and that
    latitude lies strictly between -90 and 90. *)
Theorem LatLonToMeters_MetersToLatLon x y :
  LatLonToMeters (MetersToLatLon (mkPoint (Fin x) (Fin y))) = mkPoint (Fin x) (Fin y) /\
  exists la lo,
    MetersToLatLon (mkPoint (Fin x) (Fin y)) = mkLatLon (Fin la) (Fin lo) /\
    -90 < la < 90.
Proof.
  split; [apply LatLonToMeters_after_MetersToLatLon|].
  exists (unmercY y), (unmercX x). split; [apply MetersToLatLon_fin | apply unmercY_range].
Qed.

End MercatorInverse.

(** X4, instance: the south pole at longitude 24.9. *)
Lemma MetersToLatLon_LatLonToMeters_witness :
  Geo.MetersToLatLon (Geo.LatLonToMeters (Geo.mkLatLon (Fin (-90)) (Fin 24.9)))
  = Geo.mkLatLon (Fin (-90)) (Fin 24.9).
Proof. apply (@MetersToLatLon_LatLonToMeters (-90) 24.9)%R. lra. Defined.

(** ** A homography and the one built through its images *)

Section ThroughImages.

Import Geo.
Local Open Scope R_scope.

Lemma signed_inf_not_fin r pos c : signed_inf r pos <> Fin c.
Proof.
  unfold signed_inf. destruct (Reqb r 0); [discriminate|].
  destruct (Rltb 0 r); destruct pos; discriminate.
Qed.

Lemma jdiv_fin_inv a b c : jdiv (Fin a) (Fin b) = Fin c -> b <> 0 /\ c = a / b.
Proof.
  intros H. destruct (Req_dec_T b 0) as [->|Hb].
  - simpl in H. rewrite Reqb_refl in H. now apply signed_inf_not_fin in H.
  - rewrite jdiv_fin in H by assumption. split; [assumption | congruence].
Qed.

Variables m0 m1 m2 m3 m4 m5 m6 m7 m8 : R.

Let M : list num :=
  [Fin m0; Fin m1; Fin m2; Fin m3; Fin m4; Fin m5; Fin m6; Fin m7; Fin m8].

Let detM : R :=
  m0 * (m4 * m8 - m5 * m7) - m1 * (m3 * m8 - m5 * m6) + m2 * (m3 * m7 - m4 * m6).

Let X (x y : R) : R := m0 * x + m1 * y + m2 * 1.
Let Y (x y : R) : R := m3 * x + m4 * y + m5 * 1.
Let W (x y : R) : R := m6 * x + m7 * y + m8 * 1.

Lemma project_matrix_inv x y a b :
  project M (Fin x) (Fin y) = (Fin a, Fin b) ->
  W x y <> 0 /\ a = X x y / W x y /\ b = Y x y / W x y.
Proof.
  unfold project, M. cbn -[Rmult Rplus Ropp Rminus Rdiv Reqb jdiv].
  fold (X x y) (Y x y) (W x y).
  intros E. injection E as Ea Eb.
  apply jdiv_fin_inv in Ea. apply jdiv_fin_inv in Eb. tauto.
Qed.

(** The determinant of three images is the determinant of the matrix
    times that of the points, up to the three weights. *)
Lemma det3_images xa ya xb yb xc yc :
  W xa ya <> 0 -> W xb yb <> 0 -> W xc yc <> 0 ->
  det3 (X xa ya / W xa ya) (Y xa ya / W xa ya)
       (X xb yb / W xb yb) (Y xb yb / W xb yb)
       (X xc yc / W xc yc) (Y xc yc / W xc yc)
  * (W xa ya * W xb yb * W xc yc)
  = detM * det3 xa ya xb yb xc yc.
Proof.
  intros Ha Hb Hc. unfold det3, detM.
  set (Wa := W xa ya) in *. set (Wb := W xb yb) in *. set (Wc := W xc yc) in *.
  transitivity
    (X xa ya * (Y xb yb * Wc - Y xc yc * Wb)
     - X xb yb * (Y xa ya * Wc - Y xc yc * Wa)
     + X xc yc * (Y xa ya * Wb - Y xb yb * Wa)).
  - field. repeat split; assumption.
  - unfold Wa, Wb, Wc, X, Y, W. ring.
Qed.

Lemma project_matrix_first_finite x y a :
  fst (project M (Fin x) (Fin y)) = Fin a ->
  exists b, project M (Fin x) (Fin y) = (Fin a, Fin b).
Proof.
  unfold project, M. cbn -[Rmult Rplus Ropp Rminus Rdiv Reqb jdiv].
  intros E. destruct (@jdiv_fin_inv _ _ _ E) as [HW _].
  rewrite E. rewrite jdiv_fin by assumption. eauto.
Qed.

(** Three points that are not collinear have images that are not
    collinear, once the matrix is known to keep some three points so. *)
Lemma images_not_collinear
  xa ya xb yb xc yc xa' ya' xb' yb' xc' yc'
  xp yp xq yq xr yr xp' yp' xq' yq' xr' yr' :
  project M (Fin xa) (Fin ya) = (Fin xa', Fin ya') ->
  project M (Fin xb) (Fin yb) = (Fin xb', Fin yb') ->
  project M (Fin xc) (Fin yc) = (Fin xc', Fin yc') ->
  det3 xa' ya' xb' yb' xc' yc' <> 0 ->
  project M (Fin xp) (Fin yp) = (Fin xp', Fin yp') ->
  project M (Fin xq) (Fin yq) = (Fin xq', Fin yq') ->
  project M (Fin xr) (Fin yr) = (Fin xr', Fin yr') ->
  det3 xp yp xq yq xr yr <> 0 ->
  det3 xp' yp' xq' yq' xr' yr' <> 0.
Proof.
  intros Ea Eb Ec Habc Ep Eq Er Hpqr.
  apply project_matrix_inv in Ea, Eb, Ec, Ep, Eq, Er.
  destruct Ea as (Wa & -> & ->). destruct Eb as (Wb & -> & ->).
  destruct Ec as (Wc & -> & ->). destruct Ep as (Wp & -> & ->).
  destruct Eq as (Wq & -> & ->). destruct Er as (Wr & -> & ->).
  assert (HD : detM <> 0).
  { intros Z. assert (T := det3_images Wa Wb Wc). rewrite Z, Rmult_0_l in T.
    apply Rmult_integral in T. destruct T as [T|T]; [contradiction|].
    apply Rmult_integral in T. destruct T as [T|T]; [|contradiction].
    apply Rmult_integral in T. destruct T as [T|T]; contradiction. }
  intros Z. assert (T := det3_images Wp Wq Wr). rewrite Z, Rmult_0_l in T.
  symmetry in T. apply Rmult_integral in T. destruct T; contradiction.
Qed.

Variables x1o y1o x2o y2o x3o y3o x4o y4o : R.

(** A matrix that sends four points of which no three are collinear to
    finite images, three of them not collinear: the homography that
    [general2DProjection] builds from the images back to the points undoes
    the matrix wherever the matrix gives a finite image. *)
Lemma through_images x y a b x1 y1 x2 y2 x3 y3 x4 y4 :
  det3 x1o y1o x2o y2o x3o y3o <> 0 ->
  det3 x4o y4o x2o y2o x3o y3o <> 0 ->
  det3 x1o y1o x4o y4o x3o y3o <> 0 ->
  det3 x1o y1o x2o y2o x4o y4o <> 0 ->
  det3 x1 y1 x2 y2 x3 y3 <> 0 ->
  project M (Fin x1o) (Fin y1o) = (Fin x1, Fin y1) ->
  project M (Fin x2o) (Fin y2o) = (Fin x2, Fin y2) ->
  project M (Fin x3o) (Fin y3o) = (Fin x3, Fin y3) ->
  project M (Fin x4o) (Fin y4o) = (Fin x4, Fin y4) ->
  project M (Fin x) (Fin y) = (Fin a, Fin b) ->
  project
    (general2DProjection
       (Fin x1) (Fin y1) (Fin x1o) (Fin y1o) (Fin x2) (Fin y2) (Fin x2o) (Fin y2o)
       (Fin x3) (Fin y3) (Fin x3o) (Fin y3o) (Fin x4) (Fin y4) (Fin x4o) (Fin y4o))
    (Fin a) (Fin b)
  = (Fin x, Fin y).
Proof.
  intros O123 O423 O143 O124 I123 E1 E2 E3 E4 E.
  apply project_matrix_inv in E1, E2, E3, E4, E.
  destruct E1 as (W1 & -> & ->). destruct E2 as (W2 & -> & ->).
  destruct E3 as (W3 & -> & ->). destruct E4 as (W4 & -> & ->).
  destruct E as (W0 & -> & ->).
  assert (HD : detM <> 0).
  { intros Z. assert (T := det3_images W1 W2 W3). rewrite Z, Rmult_0_l in T.
    apply Rmult_integral in T. destruct T as [T|T]; [contradiction|].
    apply Rmult_integral in T. destruct T as [T|T]; [|contradiction].
    apply Rmult_integral in T. destruct T as [T|T]; contradiction. }
  clear I123.
  rewrite project_closed_form.
  assert (V0 := det3_images W4 W2 W3).
  assert (V1 := det3_images W1 W4 W3).
  assert (V2 := det3_images W1 W2 W4).
  assert (U0 := det3_images W0 W2 W3).
  assert (U1 := det3_images W1 W0 W3).
  assert (U2 := det3_images W1 W2 W0).
  set (v0 := det3 (X x4o y4o / W x4o y4o) (Y x4o y4o / W x4o y4o)
                  (X x2o y2o / W x2o y2o) (Y x2o y2o / W x2o y2o)
                  (X x3o y3o / W x3o y3o) (Y x3o y3o / W x3o y3o)) in *.
  set (v1 := det3 (X x1o y1o / W x1o y1o) (Y x1o y1o / W x1o y1o)
                  (X x4o y4o / W x4o y4o) (Y x4o y4o / W x4o y4o)
                  (X x3o y3o / W x3o y3o) (Y x3o y3o / W x3o y3o)) in *.
  set (v2 := det3 (X x1o y1o / W x1o y1o) (Y x1o y1o / W x1o y1o)
                  (X x2o y2o / W x2o y2o) (Y x2o y2o / W x2o y2o)
                  (X x4o y4o / W x4o y4o) (Y x4o y4o / W x4o y4o)) in *.
  set (u0 := det3 (X x y / W x y) (Y x y / W x y)
                  (X x2o y2o / W x2o y2o) (Y x2o y2o / W x2o y2o)
                  (X x3o y3o / W x3o y3o) (Y x3o y3o / W x3o y3o)) in *.
  set (u1 := det3 (X x1o y1o / W x1o y1o) (Y x1o y1o / W x1o y1o)
                  (X x y / W x y) (Y x y / W x y)
                  (X x3o y3o / W x3o y3o) (Y x3o y3o / W x3o y3o)) in *.
  set (u2 := det3 (X x1o y1o / W x1o y1o) (Y x1o y1o / W x1o y1o)
                  (X x2o y2o / W x2o y2o) (Y x2o y2o / W x2o y2o)
                  (X x y / W x y) (Y x y / W x y)) in *.
  set (A := W x1o y1o) in *. set (B := W x2o y2o) in *. set (C := W x3o y3o) in *.
  set (D := W x4o y4o) in *. set (P := W x y) in *.
  clearbody v0 v1 v2 u0 u1 u2 A B C D P.
  set (q0 := det3 x4o y4o x2o y2o x3o y3o) in *.
  set (q1 := det3 x1o y1o x4o y4o x3o y3o) in *.
  set (q2 := det3 x1o y1o x2o y2o x4o y4o) in *.
  set (q3 := det3 x1o y1o x2o y2o x3o y3o) in *.
  set (p0 := det3 x y x2o y2o x3o y3o) in *.
  set (p1 := det3 x1o y1o x y x3o y3o) in *.
  set (p2 := det3 x1o y1o x2o y2o x y) in *.
  set (den := q0 * (v1 * v2 * u0) + q1 * (v0 * v2 * u1) + q2 * (v0 * v1 * u2)).
  set (S := P * (A * A) * (B * B) * (C * C) * (D * D)).
  set (K := detM * detM * detM * (q0 * q1 * q2)).
  assert (HS : S <> 0).
  { unfold S. repeat apply Rmult_integral_contrapositive_currified; assumption. }
  assert (HK : K <> 0).
  { unfold K. repeat apply Rmult_integral_contrapositive_currified; assumption. }
  assert (Eden : den * S = K * q3).
  { unfold den, S, K.
    replace ((q0 * (v1 * v2 * u0) + q1 * (v0 * v2 * u1) + q2 * (v0 * v1 * u2)) *
             (P * (A * A) * (B * B) * (C * C) * (D * D)))
      with (q0 * ((v1 * (A * D * C)) * (v2 * (A * B * D)) * (u0 * (P * B * C)))
            + q1 * ((v0 * (D * B * C)) * (v2 * (A * B * D)) * (u1 * (A * P * C)))
            + q2 * ((v0 * (D * B * C)) * (v1 * (A * D * C)) * (u2 * (A * B * P))))
      by ring.
    rewrite V0, V1, V2, U0, U1, U2.
    replace q3 with (p0 + p1 + p2) by (unfold q3, p0, p1, p2, det3; ring).
    ring. }
  assert (Hden : den <> 0).
  { intros Z. rewrite Z, Rmult_0_l in Eden. symmetry in Eden.
    revert Eden. apply Rmult_integral_contrapositive_currified; assumption. }
  assert (Ex : (x1o * q0 * (v1 * v2 * u0) + x2o * q1 * (v0 * v2 * u1)
                + x3o * q2 * (v0 * v1 * u2)) * S = x * (den * S)).
  { rewrite Eden. unfold S, K.
    replace ((x1o * q0 * (v1 * v2 * u0) + x2o * q1 * (v0 * v2 * u1)
              + x3o * q2 * (v0 * v1 * u2)) *
             (P * (A * A) * (B * B) * (C * C) * (D * D)))
      with (x1o * q0 * ((v1 * (A * D * C)) * (v2 * (A * B * D)) * (u0 * (P * B * C)))
            + x2o * q1 * ((v0 * (D * B * C)) * (v2 * (A * B * D)) * (u1 * (A * P * C)))
            + x3o * q2 * ((v0 * (D * B * C)) * (v1 * (A * D * C)) * (u2 * (A * B * P))))
      by ring.
    rewrite V0, V1, V2, U0, U1, U2.
    replace (x * (detM * detM * detM * (q0 * q1 * q2) * q3))
      with (detM * detM * detM * (q0 * q1 * q2) * (x * q3)) by ring.
    replace (x * q3) with (x1o * p0 + x2o * p1 + x3o * p2)
      by (unfold q3, p0, p1, p2, det3; ring).
    ring. }
  assert (Ey : (y1o * q0 * (v1 * v2 * u0) + y2o * q1 * (v0 * v2 * u1)
                + y3o * q2 * (v0 * v1 * u2)) * S = y * (den * S)).
  { rewrite Eden. unfold S, K.
    replace ((y1o * q0 * (v1 * v2 * u0) + y2o * q1 * (v0 * v2 * u1)
              + y3o * q2 * (v0 * v1 * u2)) *
             (P * (A * A) * (B * B) * (C * C) * (D * D)))
      with (y1o * q0 * ((v1 * (A * D * C)) * (v2 * (A * B * D)) * (u0 * (P * B * C)))
            + y2o * q1 * ((v0 * (D * B * C)) * (v2 * (A * B * D)) * (u1 * (A * P * C)))
            + y3o * q2 * ((v0 * (D * B * C)) * (v1 * (A * D * C)) * (u2 * (A * B * P))))
      by ring.
    rewrite V0, V1, V2, U0, U1, U2.
    replace (y * (detM * detM * detM * (q0 * q1 * q2) * q3))
      with (detM * detM * detM * (q0 * q1 * q2) * (y * q3)) by ring.
    replace (y * q3) with (y1o * p0 + y2o * p1 + y3o * p2)
      by (unfold q3, p0, p1, p2, det3; ring).
    ring. }
  fold den. rewrite !jdiv_fin by assumption.
  f_equal; f_equal.
  - apply Rmult_eq_reg_r with (den * S);
      [|apply Rmult_integral_contrapositive_currified; assumption].
    rewrite <- Ex. field. assumption.
  - apply Rmult_eq_reg_r with (den * S);
      [|apply Rmult_integral_contrapositive_currified; assumption].
    rewrite <- Ey. field. assumption.
Qed.

End ThroughImages.

Section MatrixEntries.

Import Geo.
Local Open Scope R_scope.

(** The matrix of [general2DProjection] on finite points has nine finite
    entries. *)
Lemma general2DProjection_entries
  x1s y1s x1d y1d x2s y2s x2d y2d x3s y3s x3d y3d x4s y4s x4d y4d :
  exists m0 m1 m2 m3 m4 m5 m6 m7 m8,
    general2DProjection
      (Fin x1s) (Fin y1s) (Fin x1d) (Fin y1d) (Fin x2s) (Fin y2s) (Fin x2d) (Fin y2d)
      (Fin x3s) (Fin y3s) (Fin x3d) (Fin y3d) (Fin x4s) (Fin y4s) (Fin x4d) (Fin y4d)
    = [Fin m0; Fin m1; Fin m2; Fin m3; Fin m4; Fin m5; Fin m6; Fin m7; Fin m8].
Proof.
  unfold general2DProjection, basisToPoints.
  cbn -[Rmult Rplus Ropp Rminus Rdiv].
  repeat eexists.
Qed.

End MatrixEntries.

Section InverseHomography.

Import Geo.
Local Open Scope R_scope.

Variables x1s y1s x2s y2s x3s y3s x4s y4s : R.
Variables x1d y1d x2d y2d x3d y3d x4d y4d : R.

(** The homography built from the destination points back to the source
    points undoes the one built from the source to the destination. *)
Lemma project_inverse x y a b :
  det3 x1s y1s x2s y2s x3s y3s <> 0 ->
  det3 x4s y4s x2s y2s x3s y3s <> 0 ->
  det3 x1s y1s x4s y4s x3s y3s <> 0 ->
  det3 x1s y1s x2s y2s x4s y4s <> 0 ->
  det3 x1d y1d x2d y2d x3d y3d <> 0 ->
  det3 x4d y4d x2d y2d x3d y3d <> 0 ->
  det3 x1d y1d x4d y4d x3d y3d <> 0 ->
  det3 x1d y1d x2d y2d x4d y4d <> 0 ->
  project
    (general2DProjection
      (Fin x1s) (Fin y1s) (Fin x1d) (Fin y1d) (Fin x2s) (Fin y2s) (Fin x2d) (Fin y2d)
      (Fin x3s) (Fin y3s) (Fin x3d) (Fin y3d) (Fin x4s) (Fin y4s) (Fin x4d) (Fin y4d))
    (Fin x) (Fin y) = (Fin a, Fin b) ->
  project
    (general2DProjection
      (Fin x1d) (Fin y1d) (Fin x1s) (Fin y1s) (Fin x2d) (Fin y2d) (Fin x2s) (Fin y2s)
      (Fin x3d) (Fin y3d) (Fin x3s) (Fin y3s) (Fin x4d) (Fin y4d) (Fin x4s) (Fin y4s))
    (Fin a) (Fin b) = (Fin x, Fin y).
Proof.
  intros S123 S423 S143 S124 D123 D423 D143 D124 E.
  assert (P1 := @project_p1 x1s y1s x2s y2s x3s y3s x4s y4s
                  x1d y1d x2d y2d x3d y3d x4d y4d S123 S143 S124 D423).
  assert (P2 := @project_p2 x1s y1s x2s y2s x3s y3s x4s y4s
                  x1d y1d x2d y2d x3d y3d x4d y4d S123 S423 S124 D143).
  assert (P3 := @project_p3 x1s y1s x2s y2s x3s y3s x4s y4s
                  x1d y1d x2d y2d x3d y3d x4d y4d).
  assert (P4 := @project_p4 x1s y1s x2s y2s x3s y3s x4s y4s
                  x1d y1d x2d y2d x3d y3d x4d y4d).
  destruct (general2DProjection_entries x1s y1s x1d y1d x2s y2s x2d y2d
              x3s y3s x3d y3d x4s y4s x4d y4d)
    as (m0 & m1 & m2 & m3 & m4 & m5 & m6 & m7 & m8 & EM).
  rewrite EM in *.
  apply (@through_images m0 m1 m2 m3 m4 m5 m6 m7 m8
           x1s y1s x2s y2s x3s y3s x4s y4s x y a b
           x1d y1d x2d y2d x3d y3d x4d y4d); try assumption.
  - apply P3; assumption.
  - apply P4; assumption.
Qed.

End InverseHomography.

(** ** [cornerBackTransform] *)

Section BackTransform.

Import Geo.
Local Open Scope R_scope.

Lemma pixel_corners_nonzero w h :
  w <> 0 -> h <> 0 ->
  det3 0 0 w 0 w h <> 0 /\ det3 0 h w 0 w h <> 0 /\
  det3 0 0 0 h w h <> 0 /\ det3 0 0 w 0 0 h <> 0.
Proof.
  intros Hw Hh.
  assert (Hwh : w * h <> 0) by (apply Rmult_integral_contrapositive_currified; assumption).
  unfold det3. repeat split; intros C; apply Hwh; lra.
Qed.

Lemma cornerBackTransform_corners (w h la1 lo1 la2 lo2 la3 lo3 la4 lo4 : R) :
  let tl := mkLatLon (Fin la1) (Fin lo1) in
  let tr := mkLatLon (Fin la2) (Fin lo2) in
  let br := mkLatLon (Fin la3) (Fin lo3) in
  let bl := mkLatLon (Fin la4) (Fin lo4) in
  -90 < la1 < 90 -> -90 < la2 < 90 -> -90 < la3 < 90 -> -90 < la4 < 90 ->
  w <> 0 -> h <> 0 ->
  det3 (mercX lo1) (mercY la1) (mercX lo2) (mercY la2) (mercX lo3) (mercY la3) <> 0 ->
  det3 (mercX lo4) (mercY la4) (mercX lo2) (mercY la2) (mercX lo3) (mercY la3) <> 0 ->
  det3 (mercX lo1) (mercY la1) (mercX lo4) (mercY la4) (mercX lo3) (mercY la3) <> 0 ->
  det3 (mercX lo1) (mercY la1) (mercX lo2) (mercY la2) (mercX lo4) (mercY la4) <> 0 ->
  cornerBackTransform (Fin w) (Fin h) tl tr br bl (mkPoint (Fin 0) (Fin 0)) = tl /\
  cornerBackTransform (Fin w) (Fin h) tl tr br bl (mkPoint (Fin w) (Fin 0)) = tr /\
  cornerBackTransform (Fin w) (Fin h) tl tr br bl (mkPoint (Fin w) (Fin h)) = br /\
  cornerBackTransform (Fin w) (Fin h) tl tr br bl (mkPoint (Fin 0) (Fin h)) = bl.
Proof.
  intros tl tr br bl R1 R2 R3 R4 Hw Hh D123 D423 D143 D124.
  destruct (pixel_corners_nonzero Hw Hh) as (Q123 & Q423 & Q143 & Q124).
  unfold cornerBackTransform, cornerBackMatrix, tl, tr, br, bl.
  rewrite !LatLonToMeters_fin by assumption. cbn [px py].
  repeat split.
  - rewrite project_p1 by assumption. cbn [fst snd].
    rewrite MetersToLatLon_fin, unmercY_mercY, unmercX_mercX by assumption. reflexivity.
  - rewrite project_p2 by assumption. cbn [fst snd].
    rewrite MetersToLatLon_fin, unmercY_mercY, unmercX_mercX by assumption. reflexivity.
  - rewrite project_p3 by assumption. cbn [fst snd].
    rewrite MetersToLatLon_fin, unmercY_mercY, unmercX_mercX by assumption. reflexivity.
  - rewrite project_p4 by assumption. cbn [fst snd].
    rewrite MetersToLatLon_fin, unmercY_mercY, unmercX_mercX by assumption. reflexivity.
Qed.

(** X6: for a calibration whose corners have finite coordinates with
    latitudes strictly between -90 and 90, of which no three are
    collinear once projected, and an image of non-zero width and height,
    [cornerBackTransform] sends the four corners of the image, (0,0),
    (w,0), (w,h) and (0,h), to the four corner coordinates. *)
Theorem cornerBackTransform_reproduces_corners
  (w h la1 lo1 la2 lo2 la3 lo3 la4 lo4 : R) :
  let tl := mkLatLon (Fin la1) (Fin lo1) in
  let tr := mkLatLon (Fin la2) (Fin lo2) in
  let br := mkLatLon (Fin la3) (Fin lo3) in
  let bl := mkLatLon (Fin la4) (Fin lo4) in
  -90 < la1 < 90 -> -90 < la2 < 90 -> -90 < la3 < 90 -> -90 < la4 < 90 ->
  w <> 0 -> h <> 0 ->
  det3 (mercX lo1) (mercY la1) (mercX lo2) (mercY la2) (mercX lo3) (mercY la3) <> 0 ->
  det3 (mercX lo4) (mercY la4) (mercX lo2) (mercY la2) (mercX lo3) (mercY la3) <> 0 ->
  det3 (mercX lo1) (mercY la1) (mercX lo4) (mercY la4) (mercX lo3) (mercY la3) <> 0 ->
  det3 (mercX lo1) (mercY la1) (mercX lo2) (mercY la2) (mercX lo4) (mercY la4) <> 0 ->
  cornerBackTransform (Fin w) (Fin h) tl tr br bl (mkPoint (Fin 0) (Fin 0)) = tl /\
  cornerBackTransform (Fin w) (Fin h) tl tr br bl (mkPoint (Fin w) (Fin 0)) = tr /\
  cornerBackTransform (Fin w) (Fin h) tl tr br bl (mkPoint (Fin w) (Fin h)) = br /\
  cornerBackTransform (Fin w) (Fin h) tl tr br bl (mkPoint (Fin 0) (Fin h)) = bl.
Proof. intros. now apply cornerBackTransform_corners. Qed.

(** The projected point behind a finite result of [MetersToLatLon]. *)
Lemma MetersToLatLon_finite_lon m la lo :
  MetersToLatLon m = mkLatLon (Fin la) (Fin lo) -> exists x, px m = Fin x.
Proof.
  generalize PI_RGT_0; intros HPI.
  unfold MetersToLatLon, rad. rewrite pi_180_fin. intros E. injection E as _ E.
  destruct (px m) as [x| | |]; [now exists x| | |]; exfalso.
  - cbn [jdiv] in E. rewrite Rltb_false in E by lra.
    cbn [jdiv] in E. rewrite Rltb_false in E by lra. discriminate.
  - cbn [jdiv] in E. rewrite Rltb_false in E by lra.
    cbn [jdiv] in E. rewrite Rltb_false in E by lra. discriminate.
  - discriminate.
Qed.

Lemma project_first_finite x1s y1s x2s y2s x3s y3s x4s y4s
  x1d y1d x2d y2d x3d y3d x4d y4d x y a :
  fst (project
    (general2DProjection
      (Fin x1s) (Fin y1s) (Fin x1d) (Fin y1d) (Fin x2s) (Fin y2s) (Fin x2d) (Fin y2d)
      (Fin x3s) (Fin y3s) (Fin x3d) (Fin y3d) (Fin x4s) (Fin y4s) (Fin x4d) (Fin y4d))
    (Fin x) (Fin y)) = Fin a ->
  exists b,
  project
    (general2DProjection
      (Fin x1s) (Fin y1s) (Fin x1d) (Fin y1d) (Fin x2s) (Fin y2s) (Fin x2d) (Fin y2d)
      (Fin x3s) (Fin y3s) (Fin x3d) (Fin y3d) (Fin x4s) (Fin y4s) (Fin x4d) (Fin y4d))
    (Fin x) (Fin y) = (Fin a, Fin b).
Proof.
  rewrite project_closed_form. cbn [fst]. intros E.
  destruct (@jdiv_fin_inv _ _ _ E) as [HW _].
  rewrite E. rewrite jdiv_fin by assumption. eauto.
Qed.

(** X7: under the same conditions, whenever [cornerBackTransform] turns
    a pixel position into finite coordinates, [cornerCalTransform] of
    the same calibration sends these coordinates back to that pixel
    position. *)
Theorem cornerCalTransform_undoes_cornerBackTransform
  (w h la1 lo1 la2 lo2 la3 lo3 la4 lo4 x y la lo : R) :
  let tl := mkLatLon (Fin la1) (Fin lo1) in
  let tr := mkLatLon (Fin la2) (Fin lo2) in
  let br := mkLatLon (Fin la3) (Fin lo3) in
  let bl := mkLatLon (Fin la4) (Fin lo4) in
  -90 < la1 < 90 -> -90 < la2 < 90 -> -90 < la3 < 90 -> -90 < la4 < 90 ->
  w <> 0 -> h <> 0 ->
  det3 (mercX lo1) (mercY la1) (mercX lo2) (mercY la2) (mercX lo3) (mercY la3) <> 0 ->
  det3 (mercX lo4) (mercY la4) (mercX lo2) (mercY la2) (mercX lo3) (mercY la3) <> 0 ->
  det3 (mercX lo1) (mercY la1) (mercX lo4) (mercY la4) (mercX lo3) (mercY la3) <> 0 ->
  det3 (mercX lo1) (mercY la1) (mercX lo2) (mercY la2) (mercX lo4) (mercY la4) <> 0 ->
  cornerBackTransform (Fin w) (Fin h) tl tr br bl (mkPoint (Fin x) (Fin y))
    = mkLatLon (Fin la) (Fin lo) ->
  cornerCalTransform (Fin w) (Fin h) tl tr br bl (mkLatLon (Fin la) (Fin lo))
    = mkPoint (Fin x) (Fin y).
Proof.
  intros tl tr br bl R1 R2 R3 R4 Hw Hh D123 D423 D143 D124.
  destruct (pixel_corners_nonzero Hw Hh) as (Q123 & Q423 & Q143 & Q124).
  unfold cornerBackTransform, cornerCalTransform, cornerBackMatrix, cornerCalMatrix,
    tl, tr, br, bl.
  rewrite !LatLonToMeters_fin by assumption. cbn [px py].
  intros E.
  destruct (@MetersToLatLon_finite_lon _ _ _ E) as [a Ha]. cbn [px] in Ha.
  destruct (@project_first_finite _ _ _ _ _ _ _ _ _ _ _ _ _ _ _ _ _ _ _ Ha) as [b Hb].
  rewrite Hb in E. cbn [fst snd] in E.
  rewrite <- E. rewrite LatLonToMeters_after_MetersToLatLon. cbn [px py].
  rewrite (project_inverse (x := x) (y := y)); try assumption. reflexivity.
Qed.

(** X8: and whenever [cornerCalTransform] turns finite coordinates
    with a latitude strictly between -90 and 90 into a finite pixel
    position, [cornerBackTransform] sends that position back to the
    coordinates. *)
Theorem cornerBackTransform_undoes_cornerCalTransform
  (w h la1 lo1 la2 lo2 la3 lo3 la4 lo4 x y la lo : R) :
  let tl := mkLatLon (Fin la1) (Fin lo1) in
  let tr := mkLatLon (Fin la2) (Fin lo2) in
  let br := mkLatLon (Fin la3) (Fin lo3) in
  let bl := mkLatLon (Fin la4) (Fin lo4) in
  -90 < la1 < 90 -> -90 < la2 < 90 -> -90 < la3 < 90 -> -90 < la4 < 90 ->
  w <> 0 -> h <> 0 ->
  det3 (mercX lo1) (mercY la1) (mercX lo2) (mercY la2) (mercX lo3) (mercY la3) <> 0 ->
  det3 (mercX lo4) (mercY la4) (mercX lo2) (mercY la2) (mercX lo3) (mercY la3) <> 0 ->
  det3 (mercX lo1) (mercY la1) (mercX lo4) (mercY la4) (mercX lo3) (mercY la3) <> 0 ->
  det3 (mercX lo1) (mercY la1) (mercX lo2) (mercY la2) (mercX lo4) (mercY la4) <> 0 ->
  -90 < la < 90 ->
  cornerCalTransform (Fin w) (Fin h) tl tr br bl (mkLatLon (Fin la) (Fin lo))
    = mkPoint (Fin x) (Fin y) ->
  cornerBackTransform (Fin w) (Fin h) tl tr br bl (mkPoint (Fin x) (Fin y))
    = mkLatLon (Fin la) (Fin lo).
Proof.
  intros tl tr br bl R1 R2 R3 R4 Hw Hh D123 D423 D143 D124 R.
  destruct (pixel_corners_nonzero Hw Hh) as (Q123 & Q423 & Q143 & Q124).
  unfold cornerBackTransform, cornerCalTransform, cornerBackMatrix, cornerCalMatrix,
    tl, tr, br, bl.
  rewrite !LatLonToMeters_fin by assumption. cbn [px py].
  intros E. injection E as E1 E2.
  rewrite (project_inverse (x := mercX lo) (y := mercY la)); try assumption.
  - cbn [fst snd]. rewrite MetersToLatLon_fin.
    now rewrite unmercY_mercY, unmercX_mercX.
  - rewrite <- E1, <- E2. apply surjective_pairing.
Qed.

End BackTransform.

(** The rectangle from 60.0 to 60.1 degrees north and from 24.9 to 25.0
    degrees east: no three of its projected corners are collinear. *)
Lemma sample_rectangle_not_collinear :
  (det3 (mercX 24.9) (mercY 60.1) (mercX 25) (mercY 60.1) (mercX 25) (mercY 60) <> 0 /\
   det3 (mercX 24.9) (mercY 60) (mercX 25) (mercY 60.1) (mercX 25) (mercY 60) <> 0 /\
   det3 (mercX 24.9) (mercY 60.1) (mercX 24.9) (mercY 60) (mercX 25) (mercY 60) <> 0 /\
   det3 (mercX 24.9) (mercY 60.1) (mercX 25) (mercY 60.1) (mercX 24.9) (mercY 60) <> 0)%R.
Proof.
  assert (HY : (mercY 60 < mercY 60.1)%R) by (apply mercY_increasing; lra).
  assert (HX : (mercX 24.9 < mercX 25)%R) by (apply mercX_increasing; lra).
  unfold det3. repeat split; intros C; nra.
Qed.

(** X6, instance: that rectangle on a 1000x800 image. *)
Lemma cornerBackTransform_reproduces_corners_witness :
  let tl := Geo.mkLatLon (Fin 60.1) (Fin 24.9) in
  let tr := Geo.mkLatLon (Fin 60.1) (Fin 25) in
  let br := Geo.mkLatLon (Fin 60) (Fin 25) in
  let bl := Geo.mkLatLon (Fin 60) (Fin 24.9) in
  Geo.cornerBackTransform (Fin 1000) (Fin 800) tl tr br bl (Geo.mkPoint (Fin 0) (Fin 0)) = tl /\
  Geo.cornerBackTransform (Fin 1000) (Fin 800) tl tr br bl (Geo.mkPoint (Fin 1000) (Fin 0)) = tr /\
  Geo.cornerBackTransform (Fin 1000) (Fin 800) tl tr br bl (Geo.mkPoint (Fin 1000) (Fin 800)) = br /\
  Geo.cornerBackTransform (Fin 1000) (Fin 800) tl tr br bl (Geo.mkPoint (Fin 0) (Fin 800)) = bl.
Proof.
  destruct sample_rectangle_not_collinear as (D1 & D2 & D3 & D4).
  apply (@cornerBackTransform_reproduces_corners 1000 800 60.1 24.9 60.1 25 60 25 60 24.9)%R;
    try assumption; lra.
Defined.

(** X7, instance: the top left corner of the image under that
    calibration. *)
Lemma cornerCalTransform_undoes_cornerBackTransform_witness :
  let tl := Geo.mkLatLon (Fin 60.1) (Fin 24.9) in
  let tr := Geo.mkLatLon (Fin 60.1) (Fin 25) in
  let br := Geo.mkLatLon (Fin 60) (Fin 25) in
  let bl := Geo.mkLatLon (Fin 60) (Fin 24.9) in
  Geo.cornerCalTransform (Fin 1000) (Fin 800) tl tr br bl (Geo.mkLatLon (Fin 60.1) (Fin 24.9))
  = Geo.mkPoint (Fin 0) (Fin 0).
Proof.
  destruct sample_rectangle_not_collinear as (D1 & D2 & D3 & D4).
  apply (@cornerCalTransform_undoes_cornerBackTransform
           1000 800 60.1 24.9 60.1 25 60 25 60 24.9 0 0 60.1 24.9)%R;
    try assumption; try lra.
  apply (@cornerBackTransform_corners 1000 800 60.1 24.9 60.1 25 60 25 60 24.9)%R;
    try assumption; lra.
Defined.

(** X8, instance: the top left corner coordinates of that calibration. *)
Lemma cornerBackTransform_undoes_cornerCalTransform_witness :
  let tl := Geo.mkLatLon (Fin 60.1) (Fin 24.9) in
  let tr := Geo.mkLatLon (Fin 60.1) (Fin 25) in
  let br := Geo.mkLatLon (Fin 60) (Fin 25) in
  let bl := Geo.mkLatLon (Fin 60) (Fin 24.9) in
  Geo.cornerBackTransform (Fin 1000) (Fin 800) tl tr br bl (Geo.mkPoint (Fin 0) (Fin 0))
  = Geo.mkLatLon (Fin 60.1) (Fin 24.9).
Proof.
  destruct sample_rectangle_not_collinear as (D1 & D2 & D3 & D4).
  apply (@cornerBackTransform_undoes_cornerCalTransform
           1000 800 60.1 24.9 60.1 25 60 25 60 24.9 0 0 60.1 24.9)%R;
    try assumption; try lra.
  apply (@cornerCalTransform_rectangle 1000 800 60.1 60 24.9 25)%R; lra.
Defined.

(** ** [getResolution] *)

Section Resolution.

Import Geo.
Local Open Scope R_scope.

Lemma sum_sqr_nonneg a b : 0 <= a ^ 2 + b ^ 2.
Proof. simpl. nra. Qed.

Lemma Math_sqrt_sum_sqr a b :
  Math_sqrt (jadd (jpow (Fin a) 2) (jpow (Fin b) 2)) = Fin (sqrt (a ^ 2 + b ^ 2)).
Proof.
  cbn [jpow jadd]. unfold Math_sqrt.
  rewrite Rltb_false; [reflexivity|]. generalize (sum_sqr_nonneg a b). lra.
Qed.

Lemma sqr_diff_pos a b : a <> b -> 0 < (a - b) * (a - b).
Proof. intros H. destruct (Rtotal_order a b) as [L|[L|L]]; [nra|contradiction|nra]. Qed.

Lemma sum_sqr_pos_l a b : a <> 0 -> 0 < a ^ 2 + b ^ 2.
Proof.
  intros H. assert (0 < a * a) by (destruct (Rtotal_order a 0) as [L|[L|L]]; [nra|contradiction|nra]).
  assert (0 <= b * b) by nra. simpl. lra.
Qed.

Lemma sum_sqr_pos_r a b : b <> 0 -> 0 < a ^ 2 + b ^ 2.
Proof. intros H. rewrite Rplus_comm. now apply sum_sqr_pos_l. Qed.

(** X9: for a calibration with finite projected corners of which no
    three are collinear and an image of non-zero width and height,
    [getResolution] is a positive finite number: the mean of the two
    diagonals of the projected corners, in meters, over the diagonal of
    the image, in pixels. *)
Theorem getResolution_meters_per_pixel (w h : R) (tl tr br bl : LatLon)
  (x1 y1 x2 y2 x3 y3 x4 y4 : R) :
  LatLonToMeters tl = mkPoint (Fin x1) (Fin y1) ->
  LatLonToMeters tr = mkPoint (Fin x2) (Fin y2) ->
  LatLonToMeters br = mkPoint (Fin x3) (Fin y3) ->
  LatLonToMeters bl = mkPoint (Fin x4) (Fin y4) ->
  w <> 0 -> h <> 0 ->
  det3 x1 y1 x2 y2 x3 y3 <> 0 ->
  det3 x4 y4 x2 y2 x3 y3 <> 0 ->
  det3 x1 y1 x4 y4 x3 y3 <> 0 ->
  det3 x1 y1 x2 y2 x4 y4 <> 0 ->
  getResolution (Fin w) (Fin h) tl tr br bl =
    Fin ((sqrt ((x1 - x3) ^ 2 + (y1 - y3) ^ 2) / sqrt (w ^ 2 + h ^ 2)
          + sqrt ((x2 - x4) ^ 2 + (y2 - y4) ^ 2) / sqrt (w ^ 2 + h ^ 2)) / 2) /\
  0 < (sqrt ((x1 - x3) ^ 2 + (y1 - y3) ^ 2) / sqrt (w ^ 2 + h ^ 2)
       + sqrt ((x2 - x4) ^ 2 + (y2 - y4) ^ 2) / sqrt (w ^ 2 + h ^ 2)) / 2.
Proof.
  intros E1 E2 E3 E4 Hw Hh D123 D423 D143 D124.
  destruct (@cornerCalTransform_corners w h tl tr br bl x1 y1 x2 y2 x3 y3 x4 y4)
    as (C1 & C2 & C3 & C4); try assumption.
  assert (Hd : 0 < sqrt (w ^ 2 + h ^ 2)).
  { apply sqrt_lt_R0. now apply sum_sqr_pos_l. }
  assert (HA : 0 < sqrt ((x1 - x3) ^ 2 + (y1 - y3) ^ 2)).
  { apply sqrt_lt_R0.
    destruct (Req_dec_T x1 x3) as [Ex|Nx].
    - destruct (Req_dec_T y1 y3) as [Ey|Ny].
      + exfalso. apply D123. subst. unfold det3. ring.
      + apply sum_sqr_pos_r. lra.
    - apply sum_sqr_pos_l. lra. }
  assert (HB : 0 <= sqrt ((x2 - x4) ^ 2 + (y2 - y4) ^ 2)) by apply sqrt_pos.
  split.
  - unfold getResolution. rewrite C1, C2, C3, C4, E1, E2, E3, E4.
    cbn [px py]. unfold jsub. cbn [jneg jadd].
    rewrite !Math_sqrt_sum_sqr.
    replace ((0 + - w) ^ 2 + (0 + - h) ^ 2) with (w ^ 2 + h ^ 2) by ring.
    replace ((w + - 0) ^ 2 + (0 + - h) ^ 2) with (w ^ 2 + h ^ 2) by ring.
    rewrite !jdiv_fin by lra. cbn [jadd]. rewrite jdiv_fin by lra.
    reflexivity.
  - apply Rdiv_lt_0_compat; [|lra].
    apply Rplus_lt_le_0_compat.
    + apply Rdiv_lt_0_compat; assumption.
    + apply Rmult_le_pos; [assumption|]. left. now apply Rinv_0_lt_compat.
Qed.

End Resolution.

(** X9, instance: the rectangle from 60.0 to 60.1 degrees north and from
    24.9 to 25.0 degrees east on a 1000x800 image. *)
Lemma getResolution_meters_per_pixel_witness :
  (Geo.getResolution (Fin 1000) (Fin 800)
     (Geo.mkLatLon (Fin 60.1) (Fin 24.9)) (Geo.mkLatLon (Fin 60.1) (Fin 25))
     (Geo.mkLatLon (Fin 60) (Fin 25)) (Geo.mkLatLon (Fin 60) (Fin 24.9)) =
   Fin ((sqrt ((mercX 24.9 - mercX 25) ^ 2 + (mercY 60.1 - mercY 60) ^ 2)
           / sqrt (1000 ^ 2 + 800 ^ 2)
         + sqrt ((mercX 25 - mercX 24.9) ^ 2 + (mercY 60.1 - mercY 60) ^ 2)
           / sqrt (1000 ^ 2 + 800 ^ 2)) / 2) /\
   0 < (sqrt ((mercX 24.9 - mercX 25) ^ 2 + (mercY 60.1 - mercY 60) ^ 2)
          / sqrt (1000 ^ 2 + 800 ^ 2)
        + sqrt ((mercX 25 - mercX 24.9) ^ 2 + (mercY 60.1 - mercY 60) ^ 2)
          / sqrt (1000 ^ 2 + 800 ^ 2)) / 2)%R.
Proof.
  destruct sample_rectangle_not_collinear as (D1 & D2 & D3 & D4).
  apply (@getResolution_meters_per_pixel 1000 800)%R;
    try assumption; try (apply LatLonToMeters_fin; lra); lra.
Defined.

(** ** The range and the symmetry of [distance] *)

Section DistanceRange.

Import Geo.
Local Open Scope R_scope.

Lemma sin_sqr_range t : 0 <= sin t ^ 2 <= 1.
Proof.
  generalize (sin2_cos2 t). unfold Rsqr. intros H.
  assert (0 <= sin t * sin t) by nra. assert (0 <= cos t * cos t) by nra.
  simpl. split; nra.
Qed.

Lemma cos_sqr_range t : 0 <= cos t ^ 2 <= 1.
Proof.
  generalize (sin2_cos2 t). unfold Rsqr. intros H.
  assert (0 <= sin t * sin t) by nra. assert (0 <= cos t * cos t) by nra.
  simpl. split; nra.
Qed.

(** cos(P+A) cos(P-A) = cos^2 P - sin^2 A *)
Lemma cos_product P A : cos (P + A) * cos (P - A) = cos P ^ 2 - sin A ^ 2.
Proof.
  rewrite cos_plus, cos_minus.
  generalize (sin2_cos2 P) (sin2_cos2 A). unfold Rsqr. intros HP HA.
  simpl. nra.
Qed.

Lemma haversineR_convex la1 lo1 la2 lo2 :
  haversineR la1 lo1 la2 lo2 =
  sin (PI / 180 * (la1 + - la2) / 2) ^ 2 * (1 - sin (PI / 180 * (lo1 + - lo2) / 2) ^ 2)
  + cos (PI / 180 * (la1 + la2) / 2) ^ 2 * sin (PI / 180 * (lo1 + - lo2) / 2) ^ 2.
Proof.
  unfold haversineR.
  assert (E : cos (PI / 180 * la1) * cos (PI / 180 * la2)
              = cos (PI / 180 * (la1 + la2) / 2) ^ 2
                - sin (PI / 180 * (la1 + - la2) / 2) ^ 2).
  { rewrite <- cos_product. f_equal; f_equal; field. }
  rewrite E. ring.
Qed.

Lemma haversineR_range la1 lo1 la2 lo2 : 0 <= haversineR la1 lo1 la2 lo2 <= 1.
Proof.
  rewrite haversineR_convex.
  generalize (sin_sqr_range (PI / 180 * (la1 + - la2) / 2)).
  generalize (sin_sqr_range (PI / 180 * (lo1 + - lo2) / 2)).
  generalize (cos_sqr_range (PI / 180 * (la1 + la2) / 2)).
  generalize (sin (PI / 180 * (la1 + - la2) / 2) ^ 2).
  generalize (sin (PI / 180 * (lo1 + - lo2) / 2) ^ 2).
  generalize (cos (PI / 180 * (la1 + la2) / 2) ^ 2).
  intros c s a Hc Hs Ha. split; nra.
Qed.

Lemma haversineR_sym la1 lo1 la2 lo2 :
  haversineR la1 lo1 la2 lo2 = haversineR la2 lo2 la1 lo1.
Proof.
  unfold haversineR.
  replace (PI / 180 * (la2 + - la1) / 2) with (- (PI / 180 * (la1 + - la2) / 2)) by field.
  replace (PI / 180 * (lo2 + - lo1) / 2) with (- (PI / 180 * (lo1 + - lo2) / 2)) by field.
  rewrite !sin_neg. ring.
Qed.

Lemma atan2R_quadrant y x : 0 <= y -> 0 <= x -> 0 <= atan2R y x <= PI / 2.
Proof.
  intros Hy Hx. generalize PI_RGT_0; intros HPI. unfold atan2R.
  destruct (Rlt_dec 0 x) as [Hpos|Hn].
  - rewrite Rltb_true by assumption.
    destruct (atan_bound (y / x)) as [_ Hhi].
    split; [|lra].
    destruct (Req_dec_T y 0) as [->|Hy0].
    + replace (0 / x) with 0 by (field; lra). rewrite atan_0. lra.
    + left. rewrite <- atan_0. apply atan_increasing.
      apply Rdiv_lt_0_compat; lra.
  - rewrite Rltb_false by assumption. rewrite Rltb_false by lra.
    destruct (Rlt_dec 0 y).
    + rewrite Rltb_true by assumption. lra.
    + rewrite Rltb_false by assumption. rewrite Rltb_false by lra. lra.
Qed.

Lemma distance_range la1 lo1 la2 lo2 :
  exists d,
    distance (mkLatLon (Fin la1) (Fin lo1)) (mkLatLon (Fin la2) (Fin lo2)) = Fin d /\
    0 <= d <= PI * 6378137.
Proof.
  assert (Ha := haversineR_range la1 lo1 la2 lo2).
  eexists. split; [apply distance_fin; assumption|].
  assert (H := @atan2R_quadrant (sqrt (haversineR la1 lo1 la2 lo2))
                 (sqrt (1 + - haversineR la1 lo1 la2 lo2))
                 (sqrt_pos _) (sqrt_pos _)).
  split; nra.
Qed.

Lemma finite_or_not x : finite x \/ ~ finite x.
Proof.
  destruct x; [left; eexists; reflexivity | right; intros [r E]; discriminate ..].
Qed.

Lemma finiteLatLon_or_not p q :
  (finiteLatLon p /\ finiteLatLon q) \/ ~ (finiteLatLon p /\ finiteLatLon q).
Proof.
  unfold finiteLatLon.
  destruct (finite_or_not (lat p)), (finite_or_not (lon p)),
    (finite_or_not (lat q)), (finite_or_not (lon q)); tauto.
Qed.

Lemma haversine_term_NaN x y :
  ~ (finite x /\ finite y) ->
  jpow (Math_sin (jdiv (jmul (Fin (PI / 180)) (jsub x y)) (Fin 2))) 2 = NaN.
Proof.
  generalize PI_RGT_0; intros HPI. intros H.
  assert (HC : Reqb (PI / 180) 0 = false) by (apply Reqb_false; lra).
  assert (HC' : Rltb 0 (PI / 180) = true) by (apply Rltb_true; lra).
  assert (H2 : Rltb 2 0 = false) by (apply Rltb_false; lra).
  destruct x as [x| | |], y as [y| | |];
    try (exfalso; apply H; split; eexists; reflexivity);
    unfold jsub; cbn [jneg jadd jmul]; unfold signed_inf; rewrite ?HC, ?HC';
    cbn [jdiv]; rewrite ?H2; reflexivity.
Qed.

Lemma distance_not_finite p q :
  ~ (finiteLatLon p /\ finiteLatLon q) -> distance p q = NaN.
Proof.
  generalize PI_RGT_0; intros HPI.
  intros H. unfold distance, Math_PI.
  rewrite jdiv_fin by lra.
  cbv zeta.
  set (t1 := jpow (Math_sin (jdiv (jmul (Fin (PI / 180)) (jsub (lat p) (lat q))) (Fin 2))) 2).
  set (t2 := jpow (Math_sin (jdiv (jmul (Fin (PI / 180)) (jsub (lon p) (lon q))) (Fin 2))) 2).
  set (cc := jmul (Math_cos (jmul (Fin (PI / 180)) (lat p)))
                  (Math_cos (jmul (Fin (PI / 180)) (lat q)))).
  assert (Ha : jadd t1 (jmul cc t2) = NaN).
  { assert (D : (finite (lat p) /\ finite (lat q)) \/ ~ (finite (lat p) /\ finite (lat q)))
      by (destruct (finite_or_not (lat p)), (finite_or_not (lat q)); tauto).
    destruct D as [Hlat|Hlat].
    - assert (E : t2 = NaN).
      { apply haversine_term_NaN. intros Hlon. apply H.
        unfold finiteLatLon. tauto. }
      rewrite E. destruct t1, cc; reflexivity.
    - assert (E : t1 = NaN) by (now apply haversine_term_NaN).
      rewrite E. reflexivity. }
  rewrite Ha. reflexivity.
Qed.

(** X10: between two points within a quarter turn of each other
    (latitudes from -90 to 90, at most 90 degrees apart in latitude and
    in longitude) [distance] is a finite number from 0 to half the
    circumference of the sphere, [PI * 6378137] m; as soon as one of the
    four coordinates is not a finite number it is NaN.  The quarter turn
    keeps the haversine term at most 3/4: nothing is stated of points
    near the antipodes of each other, where the rounded term can exceed
    1. *)
Theorem distance_finite_or_NaN p q :
  (withinQuarterTurn p q ->
   exists d, distance p q = Fin d /\ 0 <= d <= PI * 6378137) /\
  (~ (finiteLatLon p /\ finiteLatLon q) -> distance p q = NaN).
Proof.
  split; [|apply distance_not_finite].
  intros (la1 & lo1 & la2 & lo2 & -> & -> & _).
  apply distance_range.
Qed.

(** X11: [distance] is symmetric, for all arguments. *)
Theorem distance_symmetric p q : distance p q = distance q p.
Proof.
  destruct (finiteLatLon_or_not p q) as [[[[a Ha] [b Hb]] [[c Hc] [d Hd]]]|N].
  - destruct p as [pa pb], q as [qc qd]. cbn [lat lon] in *. subst.
    rewrite !distance_fin by apply haversineR_range.
    now rewrite (haversineR_sym a b c d).
  - rewrite !distance_not_finite; [reflexivity| |assumption].
    intros [A B]. apply N. now split.
Qed.

End DistanceRange.

(** X10, instance: from 60.05 N 24.95 E to the north pole, and to a
    point without latitude. *)
Lemma distance_finite_or_NaN_witness :
  (exists d,
     Geo.distance (Geo.mkLatLon (Fin 60.05) (Fin 24.95)) (Geo.mkLatLon (Fin 90) (Fin 0))
     = Fin d /\ 0 <= d <= PI * 6378137)%R /\
  Geo.distance (Geo.mkLatLon (Fin 60.05) (Fin 24.95)) (Geo.mkLatLon NaN (Fin 0)) = NaN.
Proof.
  split.
  - apply (distance_finite_or_NaN (Geo.mkLatLon (Fin 60.05) (Fin 24.95))
             (Geo.mkLatLon (Fin 90) (Fin 0))).
    exists 60.05%R, 24.95%R, 90%R, 0%R.
    split; [reflexivity|]. split; [reflexivity|]. lra.
  - apply (distance_finite_or_NaN (Geo.mkLatLon (Fin 60.05) (Fin 24.95))
             (Geo.mkLatLon NaN (Fin 0))).
    intros [_ [[r Hr] _]]. discriminate.
Defined.

(** ** The speed series on well-formed tracks *)

Section SpeedSeries.

Import Geo Mapdump.
Local Open Scope R_scope.

Lemma speedLoop_length trackPoints indices prev :
  List.length (speedLoop trackPoints indices prev) = List.length indices.
Proof.
  revert prev. induction indices as [|i rest IH]; intros prev; simpl; [reflexivity|].
  now rewrite IH.
Qed.

Lemma speedLoop_no_NaN trackPoints indices prev :
  prev <> NaN -> Forall (fun s => s <> NaN) (speedLoop trackPoints indices prev).
Proof.
  revert prev. induction indices as [|i rest IH]; intros prev Hp; simpl; [constructor|].
  assert (H : (if isNaN (rawSpeed trackPoints i) then prev else rawSpeed trackPoints i) <> NaN).
  { destruct (rawSpeed trackPoints i); simpl; (assumption || discriminate). }
  constructor; [assumption | now apply IH].
Qed.

Lemma jsub_self_NaN_or_zero a : jsub a a = NaN \/ jsub a a = Fin 0.
Proof.
  destruct a as [r| | |]; unfold jsub; simpl; auto.
  right. f_equal. ring.
Qed.

Lemma extractSpeed_one_point tp : extractSpeed [tp] = [Fin 1].
Proof.
  unfold extractSpeed. simpl List.length. simpl seq. cbn [speedLoop].
  assert (E : rawSpeed [tp] 0 = NaN).
  { unfold rawSpeed. simpl List.length.
    change (Z.max (Z.of_nat 0 - 10) 0) with 0%Z.
    change (Z.min (0 + 10) (Z.of_nat 1 - 1)) with 0%Z.
    change (slice [tp] 0 0) with (@nil TrackPoint).
    change (timeAt [tp] 0) with (time tp).
    cbn [sumDistances].
    destruct (jsub_self_NaN_or_zero (time tp)) as [->| ->].
    - reflexivity.
    - rewrite jdiv_zero_zero. reflexivity. }
  rewrite E. reflexivity.
Qed.

Lemma extractSpeed_length trackPoints :
  List.length (extractSpeed trackPoints) = List.length trackPoints.
Proof. unfold extractSpeed. now rewrite speedLoop_length, length_seq. Qed.

(** X12: [extractSpeed] returns one speed for each track point and none
    of them is NaN, whatever the track holds; for a track of a single
    point it returns the initial value 1 of [prevSpeed]. *)
Theorem extractSpeed_length_no_NaN trackPoints :
  List.length (extractSpeed trackPoints) = List.length trackPoints /\
  Forall (fun s => s <> NaN) (extractSpeed trackPoints) /\
  forall tp, trackPoints = [tp] -> extractSpeed trackPoints = [Fin 1].
Proof.
  split; [apply extractSpeed_length|]. split.
  - unfold extractSpeed. apply speedLoop_no_NaN. discriminate.
  - intros tp ->. apply extractSpeed_one_point.
Qed.

Lemma sumDistances_step acc p q rest :
  sumDistances acc (p :: q :: rest)
  = sumDistances (jadd acc (distance (latLonOf p) (latLonOf q))) (q :: rest).
Proof. reflexivity. Qed.

Lemma distance_finiteCoordinates p q :
  finiteCoordinates p -> finiteCoordinates q ->
  exists d, distance (latLonOf p) (latLonOf q) = Fin d /\ 0 <= d <= PI * 6378137.
Proof.
  intros [[a Ha] [b Hb]] [[c Hc] [d Hd]].
  unfold latLonOf. rewrite Ha, Hb, Hc, Hd. apply distance_range.
Qed.

(** The sum of the distances along finite coordinates. *)
Lemma sumDistances_finite pts acc :
  0 <= acc -> Forall finiteCoordinates pts ->
  exists d, sumDistances (Fin acc) pts = Fin d /\ acc <= d.
Proof.
  revert acc. induction pts as [|p rest IH]; intros acc Hacc HF.
  - exists acc. split; [reflexivity | lra].
  - destruct rest as [|q rest'].
    + exists acc. split; [reflexivity | lra].
    + rewrite sumDistances_step.
      inversion HF as [|? ? Hp HF']; subst. inversion HF' as [|? ? Hq _]; subst.
      destruct (distance_finiteCoordinates Hp Hq) as (dist & Ed & Hd0 & _).
      rewrite Ed. cbn [jadd].
      destruct (IH (acc + dist)) as (t & Et & Ht); [lra | assumption |].
      exists t. split; [assumption | lra].
Qed.

Lemma Forall_firstn_keeps A (P : A -> Prop) n l : Forall P l -> Forall P (firstn n l).
Proof.
  intros H. revert n. induction H as [|x l Hx _ IH]; intros [|n]; simpl; constructor;
    [assumption | apply IH].
Qed.

Lemma Forall_skipn_keeps A (P : A -> Prop) n l : Forall P l -> Forall P (skipn n l).
Proof.
  intros H. revert n. induction H as [|x l Hx Hl IH]; intros [|n]; simpl;
    [constructor | constructor | now constructor | apply IH].
Qed.

Lemma Forall_slice A (P : A -> Prop) l start stop :
  Forall P l -> Forall P (slice l start stop).
Proof.
  intros H. unfold slice. now apply Forall_firstn_keeps, Forall_skipn_keeps.
Qed.

Lemma timeAt_nth trackPoints k p :
  (0 <= k)%Z -> nth_error trackPoints (Z.to_nat k) = Some p -> timeAt trackPoints k = time p.
Proof. intros _ H. unfold timeAt. now rewrite H. Qed.

Lemma rawSpeed_finite trackPoints i :
  (2 <= List.length trackPoints)%nat -> (i < List.length trackPoints)%nat ->
  Forall finiteCoordinates trackPoints -> increasingTimes trackPoints ->
  exists v, rawSpeed trackPoints i = Fin v /\ 0 <= v.
Proof.
  intros Hn Hi HF HT. unfold rawSpeed.
  set (n := List.length trackPoints) in *.
  set (minIdx := Z.max (Z.of_nat i - 10) 0).
  set (maxIdx := Z.min (minIdx + 10) (Z.of_nat n - 1)).
  assert (Hmin : (0 <= minIdx < Z.of_nat n - 1)%Z) by (unfold minIdx; lia).
  assert (Hmax : (minIdx < maxIdx <= Z.of_nat n - 1)%Z) by (unfold maxIdx; lia).
  destruct (nth_error trackPoints (Z.to_nat minIdx)) as [p|] eqn:Ep;
    [|apply nth_error_None in Ep; fold n in Ep; lia].
  destruct (nth_error trackPoints (Z.to_nat maxIdx)) as [q|] eqn:Eq;
    [|apply nth_error_None in Eq; fold n in Eq; lia].
  destruct (HT (Z.to_nat minIdx) (Z.to_nat maxIdx) p q) as (a & b & Ea & Eb & Hab);
    [lia | assumption | assumption |].
  unfold timeAt. rewrite Ep, Eq, Ea, Eb.
  destruct (@sumDistances_finite (slice trackPoints minIdx maxIdx) 0) as (d & Ed & Hd);
    [lra | now apply Forall_slice |].
  rewrite Ed. unfold jsub. cbn [jneg jadd].
  rewrite jdiv_fin by lra. cbn [jmul].
  eexists. split; [reflexivity|].
  apply Rmult_le_pos; [|lra].
  apply Rmult_le_pos; [assumption|]. left. apply Rinv_0_lt_compat. lra.
Qed.

Lemma speedLoop_finite trackPoints indices prev :
  (2 <= List.length trackPoints)%nat ->
  Forall (fun i => (i < List.length trackPoints)%nat) indices ->
  Forall finiteCoordinates trackPoints -> increasingTimes trackPoints ->
  Forall (fun s => exists v, s = Fin v /\ 0 <= v) (speedLoop trackPoints indices prev) /\
  speedLoop trackPoints indices prev = map (rawSpeed trackPoints) indices.
Proof.
  intros Hn Hidx HF HT. revert prev.
  induction Hidx as [|i rest Hi _ IH]; intros prev; simpl; [split; [constructor | reflexivity]|].
  destruct (rawSpeed_finite Hn Hi HF HT) as (v & Ev & Hv).
  rewrite Ev. cbn [isNaN]. destruct (IH (Fin v)) as [IH1 IH2].
  split; [constructor; [now exists v | assumption] | now rewrite IH2].
Qed.

(** X13: on a track of at least two points with finite coordinates and
    strictly increasing finite timestamps every speed is a finite
    number and not negative. *)
Theorem extractSpeed_finite_nonnegative trackPoints :
  (2 <= List.length trackPoints)%nat ->
  Forall finiteCoordinates trackPoints -> increasingTimes trackPoints ->
  Forall (fun s => exists v, s = Fin v /\ 0 <= v) (extractSpeed trackPoints).
Proof.
  intros Hn HF HT. unfold extractSpeed.
  apply speedLoop_finite; try assumption.
  apply Forall_forall. intros i Hi. apply in_seq in Hi. lia.
Qed.

End SpeedSeries.

(** ** The length of a track *)

Section TrackLength.

Import Geo Mapdump.
Local Open Scope R_scope.

Lemma jadd_assoc a b c : jadd a (jadd b c) = jadd (jadd a b) c.
Proof.
  destruct a, b, c; simpl; try reflexivity. f_equal. ring.
Qed.

Lemma jadd_zero_l a : jadd (Fin 0) a = a.
Proof. destruct a; simpl; try reflexivity. f_equal. ring. Qed.

Lemma sumDistances_from acc pts :
  sumDistances acc pts = jadd acc (sumDistances (Fin 0) pts).
Proof.
  revert acc. induction pts as [|p rest IH]; intros acc.
  - simpl. destruct acc; simpl; try reflexivity. f_equal. ring.
  - destruct rest as [|q rest'].
    + simpl. destruct acc; simpl; try reflexivity. f_equal. ring.
    + rewrite !sumDistances_step. rewrite IH.
      rewrite (IH (jadd (Fin 0) _)). rewrite jadd_zero_l. now rewrite jadd_assoc.
Qed.

Lemma sumDistances_split acc l1 p l2 :
  sumDistances acc (l1 ++ p :: l2) = sumDistances (sumDistances acc (l1 ++ [p])) (p :: l2).
Proof.
  revert acc. induction l1 as [|x l1 IH]; intros acc; [reflexivity|].
  destruct l1 as [|y l1'].
  - reflexivity.
  - change ((x :: y :: l1') ++ p :: l2) with (x :: y :: (l1' ++ p :: l2)).
    change ((x :: y :: l1') ++ [p]) with (x :: y :: (l1' ++ [p])).
    rewrite !sumDistances_step. apply (IH (jadd acc _)).
Qed.

(** X14: the length of a track is the length up to one of its points
    plus the length from that point on. *)
Theorem extractDistance_additive l1 p l2 :
  extractDistance (l1 ++ p :: l2)
  = jadd (extractDistance (l1 ++ [p])) (extractDistance (p :: l2)).
Proof.
  unfold extractDistance. rewrite sumDistances_split. apply sumDistances_from.
Qed.

Lemma sumDistances_bounded pts acc :
  0 <= acc -> shortSteps pts ->
  exists d, sumDistances (Fin acc) pts = Fin d /\
            acc <= d <= acc + INR (List.length pts - 1) * (PI * 6378137).
Proof.
  generalize PI_RGT_0; intros HPI.
  revert acc. induction pts as [|p rest IH]; intros acc Hacc HF.
  - exists acc. split; [reflexivity|]. simpl. lra.
  - destruct rest as [|q rest'].
    + exists acc. split; [reflexivity|]. simpl. lra.
    + rewrite sumDistances_step.
      destruct HF as [(la1 & lo1 & la2 & lo2 & Ep & Eq & _) HF'].
      rewrite Ep, Eq.
      destruct (distance_range la1 lo1 la2 lo2) as (dist & Ed & Hd0 & Hd1).
      rewrite Ed. cbn [jadd].
      destruct (IH (acc + dist)) as (t & Et & Ht0 & Ht1); [lra | assumption |].
      exists t. split; [assumption|].
      replace (List.length (p :: q :: rest') - 1)%nat with (S (List.length (q :: rest') - 1))
        by (simpl; lia).
      rewrite S_INR. split; [lra|]. nra.
Qed.

(** X15: the length of a track each point of which is within a quarter
    turn of the next (latitudes from -90 to 90, at most 90 degrees apart
    in latitude and in longitude) is a finite number, not negative and at
    most half the circumference of the sphere for each segment; in
    particular it is 0 for an empty track and for a single point.
    Nothing is stated of a track with a step to a point near the
    antipodes. *)
Theorem extractDistance_bounded trackPoints :
  shortSteps trackPoints ->
  exists d, extractDistance trackPoints = Fin d /\
            0 <= d <= INR (List.length trackPoints - 1) * (PI * 6378137).
Proof.
  intros HF. destruct (@sumDistances_bounded trackPoints 0) as (d & Ed & Hd);
    [lra | assumption |].
  exists d. split; [assumption | lra].
Qed.

End TrackLength.

(** A track of two points 0.01 degree of latitude and 10 s apart. *)
Lemma sample_track_finite :
  Forall finiteCoordinates
    [ Mapdump.mkTrackPoint (Fin 0) (Fin 60.05, Fin 24.95);
      Mapdump.mkTrackPoint (Fin 10000) (Fin 60.06, Fin 24.95) ] /\
  increasingTimes
    [ Mapdump.mkTrackPoint (Fin 0) (Fin 60.05, Fin 24.95);
      Mapdump.mkTrackPoint (Fin 10000) (Fin 60.06, Fin 24.95) ].
Proof.
  split.
  - repeat constructor; eexists; reflexivity.
  - intros i j p q Hij Hp Hq.
    destruct i as [|[|i]]; destruct j as [|[|j]]; simpl in Hp, Hq; try lia;
      try (destruct j; discriminate); try (destruct i; discriminate).
    inversion Hp; inversion Hq; subst.
    exists 0%R, 10000%R. repeat split; lra.
Qed.

(** X13, instance: that track. *)
Lemma extractSpeed_finite_nonnegative_witness :
  Forall (fun s => exists v, s = Fin v /\ (0 <= v)%R)
    (Mapdump.extractSpeed
       [ Mapdump.mkTrackPoint (Fin 0) (Fin 60.05, Fin 24.95);
         Mapdump.mkTrackPoint (Fin 10000) (Fin 60.06, Fin 24.95) ]).
Proof.
  destruct sample_track_finite as [HF HT].
  apply extractSpeed_finite_nonnegative; [simpl; lia | exact HF | exact HT].
Defined.

(** X15, instance: that track. *)
Lemma extractDistance_bounded_witness :
  exists d,
    Mapdump.extractDistance
      [ Mapdump.mkTrackPoint (Fin 0) (Fin 60.05, Fin 24.95);
        Mapdump.mkTrackPoint (Fin 10000) (Fin 60.06, Fin 24.95) ] = Fin d /\
    (0 <= d <= INR (2 - 1) * (PI * 6378137))%R.
Proof.
  apply (@extractDistance_bounded
           [ Mapdump.mkTrackPoint (Fin 0) (Fin 60.05, Fin 24.95);
             Mapdump.mkTrackPoint (Fin 10000) (Fin 60.06, Fin 24.95) ]).
  split; [|exact I].
  exists 60.05%R, 24.95%R, 60.06%R, 24.95%R.
  split; [reflexivity|]. split; [reflexivity|]. lra.
Defined.

(** ** What the bounds enclose *)

Section Enclosure.

Import Geo Mapdump.
Local Open Scope R_scope.

Ltac order_cases :=
  repeat (cbn [jlt] in *; unfold Rltb in *;
          match goal with
          | H : context [Rlt_dec ?a ?b] |- _ => destruct (Rlt_dec a b)
          | |- context [Rlt_dec ?a ?b] => destruct (Rlt_dec a b)
          end);
  cbn [jlt] in *;
  try reflexivity; try discriminate; try (exfalso; lra).

Lemma running_min_keeps x p m :
  jlt x m = false -> jlt x (if jlt p m then p else m) = false.
Proof.
  intros H. destruct x as [x| | |], p as [p| | |], m as [m| | |]; order_cases.
Qed.

Lemma running_min_new p m : jlt p (if jlt p m then p else m) = false.
Proof. destruct p as [p| | |], m as [m| | |]; order_cases. Qed.

Lemma running_max_keeps x p m :
  jgt x m = false -> jgt x (if jgt p m then p else m) = false.
Proof.
  unfold jgt. intros H. destruct x as [x| | |], p as [p| | |], m as [m| | |]; order_cases.
Qed.

Lemma running_max_new p m : jgt p (if jgt p m then p else m) = false.
Proof. unfold jgt. destruct p as [p| | |], m as [m| | |]; order_cases. Qed.

Lemma floor_keeps x m : jlt x m = false -> jlt x (Math_floor m) = false.
Proof.
  intros H. destruct x as [x| | |], m as [m| | |]; cbn [Math_floor]; try assumption.
  generalize (Zfloor_bound m). intros B. order_cases.
Qed.

Lemma ceil_keeps x m : jgt x m = false -> jgt x (Math_ceil m) = false.
Proof.
  unfold jgt. intros H. destruct x as [x| | |], m as [m| | |]; cbn [Math_ceil]; try assumption.
  generalize (Zceil_bound m). intros B. order_cases.
Qed.

Lemma bounds_fold_encloses transform trackPoints (b : Bounds) :
  let b' := fold_left (boundsStep transform) trackPoints b in
  ((forall x, jlt x (minX b) = false -> jlt x (minX b') = false) /\
   (forall x, jgt x (maxX b) = false -> jgt x (maxX b') = false) /\
   (forall y, jlt y (minY b) = false -> jlt y (minY b') = false) /\
   (forall y, jgt y (maxY b) = false -> jgt y (maxY b') = false)) /\
  (forall tp, In tp trackPoints -> inside b' (transform (latLonOf tp))).
Proof.
  revert b. induction trackPoints as [|tp rest IH]; intros b; cbn [fold_left].
  - split; [auto | intros tp []].
  - destruct (IH (boundsStep transform b tp)) as [(K1 & K2 & K3 & K4) N].
    split; [repeat split|].
    + intros x Hx. apply K1. unfold boundsStep. cbn [minX]. now apply running_min_keeps.
    + intros x Hx. apply K2. unfold boundsStep. cbn [maxX]. now apply running_max_keeps.
    + intros x Hx. apply K3. unfold boundsStep. cbn [minY]. now apply running_min_keeps.
    + intros x Hx. apply K4. unfold boundsStep. cbn [maxY]. now apply running_max_keeps.
    + intros tp' [<-|Hin]; [|now apply N].
      unfold inside. repeat split.
      * apply K1. unfold boundsStep. cbn [minX]. apply running_min_new.
      * apply K2. unfold boundsStep. cbn [maxX]. apply running_max_new.
      * apply K3. unfold boundsStep. cbn [minY]. apply running_min_new.
      * apply K4. unfold boundsStep. cbn [maxY]. apply running_max_new.
Qed.

Lemma inside_rounded b pt :
  inside b pt ->
  inside (mkBounds (Math_floor (minX b)) (Math_ceil (maxX b))
                   (Math_floor (minY b)) (Math_ceil (maxY b))) pt.
Proof.
  intros (A & B & C & D). unfold inside. cbn [minX maxX minY maxY].
  repeat split.
  - now apply floor_keeps.
  - now apply ceil_keeps.
  - now apply floor_keeps.
  - now apply ceil_keeps.
Qed.

Lemma jlt_irrefl a : jlt a a = false.
Proof. destruct a as [a| | |]; order_cases. Qed.

(** X16: the bounds [extractBounds] returns enclose the image and every
    projected track point, in the sense of the comparisons the code
    makes: neither is [0 < minX] or [width > maxX] (nor the like for y)
    true, nor does any track point project to the left of [minX], to the
    right of [maxX], above [minY] or below [maxY].  This holds for every
    image, calibration and track, because a coordinate that is NaN fails
    every comparison. *)
Theorem extractBounds_encloses image cornersCoordinates trackPoints :
  let b := extractBounds image cornersCoordinates trackPoints in
  let transform :=
    cornerCalTransform (width image) (height image)
      (top_left cornersCoordinates) (top_right cornersCoordinates)
      (bottom_right cornersCoordinates) (bottom_left cornersCoordinates) in
  (jlt (Fin 0) (minX b) = false /\ jgt (width image) (maxX b) = false /\
   jlt (Fin 0) (minY b) = false /\ jgt (height image) (maxY b) = false) /\
  forall tp, In tp trackPoints -> inside b (transform (latLonOf tp)).
Proof.
  intros b transform. unfold b, extractBounds. fold transform.
  destruct (@bounds_fold_encloses transform trackPoints
              (mkBounds (Fin 0) (width image) (Fin 0) (height image)))
    as [(K1 & K2 & K3 & K4) N].
  cbv zeta in K1, K2, K3, K4, N. cbn [minX maxX minY maxY] in K1, K2, K3, K4.
  split.
  - cbn [minX maxX minY maxY]. repeat split.
    + apply floor_keeps, K1, jlt_irrefl.
    + apply ceil_keeps, K2. unfold jgt. apply jlt_irrefl.
    + apply floor_keeps, K3, jlt_irrefl.
    + apply ceil_keeps, K4. unfold jgt. apply jlt_irrefl.
  - intros tp Hin. apply inside_rounded. now apply N.
Qed.

End Enclosure.

(** ** When a pass throws *)

Section RenderReturns.

Import Geo Mapdump.
Local Open Scope R_scope.

Variable palette : list Z.

(** Without the header a pass returns unless the track layer is asked
    for an empty track. *)
Lemma render_returns image cornersCoordinates bounds trackPoints timezoneName
  includeTrack :
  includeTrack = false \/ trackPoints <> [] ->
  exists cv,
    render palette image cornersCoordinates bounds trackPoints timezoneName
      false includeTrack = Returned cv.
Proof.
  intros H. unfold render.
  destruct includeTrack.
  - destruct H as [H|H]; [discriminate|].
    destruct trackPoints as [|tp rest]; [contradiction|].
    unfold trackLayers. cbn [drawColoredPath bind]. eauto.
  - cbn [bind]. eauto.
Qed.

Lemma drawTrackOnMap_is_a_render fuel :
  forall image cornersCoordinates trackPoints timezoneName includeHeader includeTrack r,
  drawTrackOnMap palette fuel image cornersCoordinates trackPoints timezoneName
    includeHeader includeTrack = Some r ->
  exists image' bounds',
    r = render palette image' cornersCoordinates bounds' trackPoints timezoneName
          includeHeader includeTrack.
Proof.
  induction fuel as [|fuel IH]; intros image cc tps tz ih it r E; [discriminate|].
  cbn [drawTrackOnMap] in E.
  match type of E with
  | (if ?c then _ else _) = _ => destruct c
  end.
  - now apply IH in E.
  - inversion E. eauto.
Qed.

(** X17: without the header, a pass of [drawTrackOnMap] throws exactly
    when the track layer is requested and the track is empty; so no run
    of [drawTrackOnMap] without header, however many times it scales the
    image down, throws for a track with at least one point or with
    [includeTrack] false, and with [w + h + 1] passes allowed such a run
    on an image of whole size [w] by [h] returns an image.  (With the
    header the texts of the band are formatted, which is outside the
    model.) *)
Theorem drawTrackOnMap_throws_only_on_empty_track :
  (forall image cornersCoordinates bounds trackPoints timezoneName includeTrack,
      (exists e, render palette image cornersCoordinates bounds trackPoints timezoneName
                   false includeTrack = Thrown e)
      <-> (includeTrack = true /\ trackPoints = [])) /\
  (forall fuel image cornersCoordinates trackPoints timezoneName includeTrack e,
      drawTrackOnMap palette fuel image cornersCoordinates trackPoints timezoneName
        false includeTrack = Some (Thrown e) ->
      includeTrack = true /\ trackPoints = []) /\
  (forall (w h : nat) cornersCoordinates trackPoints timezoneName includeTrack,
      includeTrack = false \/ trackPoints <> [] ->
      exists cv,
        drawTrackOnMap palette (S (w + h)) (mkImage (ofNat w) (ofNat h))
          cornersCoordinates trackPoints timezoneName false includeTrack
        = Some (Returned cv)).
Proof.
  assert (R : forall image cornersCoordinates bounds trackPoints timezoneName
                includeTrack e,
             render palette image cornersCoordinates bounds trackPoints timezoneName
               false includeTrack = Thrown e ->
             includeTrack = true /\ trackPoints = []).
  { intros image cc b tps tz it e E.
    destruct it.
    - destruct tps as [|tp rest]; [now split|].
      destruct (@render_returns image cc b (tp :: rest) tz true) as [cv Ecv];
        [right; discriminate | congruence].
    - destruct (@render_returns image cc b tps tz false) as [cv Ecv];
        [now left | congruence]. }
  split; [|split].
  - intros image cc b tps tz it. split.
    + intros [e E]. now apply R in E.
    + intros [-> ->]. exists TypeError. apply render_empty_track_throws.
  - intros fuel image cc tps tz it e E.
    apply drawTrackOnMap_is_a_render in E. destruct E as (image' & bounds' & E).
    symmetry in E. now apply R in E.
  - intros w h cc tps tz it H.
    destruct (drawTrackOnMap_result palette cc tps tz false it w h)
      as (w' & h' & b' & cw & ch & _ & _ & _ & _ & _ & _ & Erun).
    destruct (@render_returns (mkImage (ofNat w') (ofNat h')) cc b' tps tz it H)
      as [cv Ecv].
    exists cv. now rewrite Erun, Ecv.
Qed.

End RenderReturns.

(** ** The order of the palette indices *)

Section PaletteOrder.

Import Geo Mapdump.
Local Open Scope R_scope.

Variable palette : list Z.

Ltac by_cases :=
  repeat (cbn [jlt Math_min Math_max isNaN] in *; unfold Rltb in *;
          match goal with
          | |- context [Rlt_dec ?a ?b] => destruct (Rlt_dec a b)
          end);
  cbn [jlt Math_min Math_max isNaN] in *.

(** The normalised value of a finite speed in a finite range. *)
Lemma relativeValue_fin lo hi v :
  lo < hi ->
  exists r, relativeValue (Some (Fin lo)) (Some (Fin hi)) (Fin v) = Fin r /\
            0 <= r <= 0.999 /\
            (v <= lo -> r = 0) /\ (hi <= v -> r = 0.999) /\
            (0 <= (v - lo) / (hi - lo) <= 0.999 -> r = (v - lo) / (hi - lo)) /\
            ((v - lo) / (hi - lo) < 0 -> r = 0) /\
            (0.999 < (v - lo) / (hi - lo) -> r = 0.999).
Proof.
  intros H. unfold relativeValue, toNumber, jsub. cbn [jneg jadd].
  rewrite jdiv_fin by lra.
  replace (v + - lo) with (v - lo) by ring. replace (hi + - lo) with (hi - lo) by ring.
  assert (Hq1 : v <= lo -> (v - lo) / (hi - lo) <= 0).
  { intros Hv. apply Rmult_le_reg_r with (hi - lo); [lra|].
    unfold Rdiv. rewrite Rmult_assoc, Rinv_l by lra. lra. }
  assert (Hq2 : hi <= v -> 1 <= (v - lo) / (hi - lo)).
  { intros Hv. apply Rmult_le_reg_r with (hi - lo); [lra|].
    unfold Rdiv. rewrite Rmult_assoc, Rinv_l by lra. lra. }
  set (q := (v - lo) / (hi - lo)) in *. clearbody q.
  by_cases; eexists; (split; [reflexivity|]); repeat split; intros; try lra;
    try (specialize (Hq1 ltac:(assumption)); lra);
    try (specialize (Hq2 ltac:(assumption)); lra).
Qed.

Lemma paletteIndex_fin r :
  exists i, paletteIndex palette (Fin r) = Fin i /\
            (IZR (Zfloor (r * 256)) * 4 <= INR (List.length palette) - 4 ->
             i = IZR (Zfloor (r * 256)) * 4) /\
            (INR (List.length palette) - 4 < IZR (Zfloor (r * 256)) * 4 ->
             i = INR (List.length palette) - 4).
Proof.
  unfold paletteIndex, ofNat, jsub. cbn [jmul Math_floor jneg jadd].
  by_cases; eexists; (split; [reflexivity|]); split; intros; lra.
Qed.

Lemma paletteIndex_increasing r1 r2 :
  r1 <= r2 -> jle (paletteIndex palette (Fin r1)) (paletteIndex palette (Fin r2)) = true.
Proof.
  intros H.
  destruct (paletteIndex_fin r1) as (i1 & E1 & A1 & B1).
  destruct (paletteIndex_fin r2) as (i2 & E2 & A2 & B2).
  rewrite E1, E2, jle_fin. apply Rleb_true.
  assert (Hf : IZR (Zfloor (r1 * 256)) * 4 <= IZR (Zfloor (r2 * 256)) * 4).
  { assert (IZR (Zfloor (r1 * 256)) <= IZR (Zfloor (r2 * 256))); [|lra].
    apply IZR_le, Zfloor_le. lra. }
  destruct (Rle_lt_dec (IZR (Zfloor (r1 * 256)) * 4) (INR (List.length palette) - 4));
    destruct (Rle_lt_dec (IZR (Zfloor (r2 * 256)) * 4) (INR (List.length palette) - 4));
    rewrite ?(A1 ltac:(assumption)), ?(A2 ltac:(assumption)),
            ?(B1 ltac:(assumption)), ?(B2 ltac:(assumption)); lra.
Qed.

Lemma relativeValue_monotone lo hi v1 v2 r1 r2 :
  lo < hi -> v1 <= v2 ->
  relativeValue (Some (Fin lo)) (Some (Fin hi)) (Fin v1) = Fin r1 ->
  relativeValue (Some (Fin lo)) (Some (Fin hi)) (Fin v2) = Fin r2 ->
  r1 <= r2.
Proof.
  intros H Hv E1 E2.
  destruct (@relativeValue_fin lo hi v1 H) as (s1 & F1 & R1 & _ & _ & M1 & L1 & U1).
  destruct (@relativeValue_fin lo hi v2 H) as (s2 & F2 & R2 & _ & _ & M2 & L2 & U2).
  rewrite F1 in E1. rewrite F2 in E2. inversion E1; inversion E2; subst s1 s2. clear E1 E2.
  assert (Hq : (v1 - lo) / (hi - lo) <= (v2 - lo) / (hi - lo)).
  { apply Rmult_le_compat_r; [|lra]. left. apply Rinv_0_lt_compat. lra. }
  destruct (Rlt_le_dec ((v1 - lo) / (hi - lo)) 0) as [a|a];
    [rewrite (L1 a); lra|].
  destruct (Rlt_le_dec 0.999 ((v2 - lo) / (hi - lo))) as [b|b];
    [rewrite (U2 b); lra|].
  rewrite M1 by lra. rewrite M2 by lra. exact Hq.
Qed.

(** X18: between a finite [minSpeed] and a larger finite [maxSpeed] the
    palette index [getRGBForValue] reads at is monotone in the speed: a
    faster point never gets a lower index.  Speeds up to [minSpeed] are
    normalised to 0 and speeds from [maxSpeed] on to 0.999. *)
Theorem getRGBForValue_index_monotone lo hi v1 v2 :
  lo < hi -> v1 <= v2 ->
  jle (paletteIndex palette (relativeValue (Some (Fin lo)) (Some (Fin hi)) (Fin v1)))
      (paletteIndex palette (relativeValue (Some (Fin lo)) (Some (Fin hi)) (Fin v2)))
  = true /\
  (v1 <= lo ->
   relativeValue (Some (Fin lo)) (Some (Fin hi)) (Fin v1) = Fin 0) /\
  (hi <= v2 ->
   relativeValue (Some (Fin lo)) (Some (Fin hi)) (Fin v2) = Fin 0.999).
Proof.
  intros H Hv.
  destruct (@relativeValue_fin lo hi v1 H) as (s1 & F1 & R1 & Z1 & _).
  destruct (@relativeValue_fin lo hi v2 H) as (s2 & F2 & R2 & _ & T2 & _).
  split; [|split].
  - rewrite F1, F2. apply paletteIndex_increasing.
    now apply (@relativeValue_monotone lo hi v1 v2).
  - intros Hlo. rewrite F1. f_equal. now apply Z1.
  - intros Hhi. rewrite F2. f_equal. now apply T2.
Qed.

End PaletteOrder.

(** ** The speed range, the coloured path, the ticks and the outline *)

Section SpeedRange.

Import Geo Mapdump.
Local Open Scope R_scope.

Lemma fold_sum vs acc :
  fold_left (fun a b => jadd a b) (map Fin vs) (Fin acc) = Fin (acc + sumR vs).
Proof.
  revert acc. induction vs as [|v vs IH]; intros acc; simpl.
  - f_equal. unfold sumR. simpl. ring.
  - rewrite IH. f_equal. unfold sumR. simpl. ring.
Qed.

Lemma fold_variance m vs acc :
  fold_left (fun a b => jadd a (jpow (jsub b (Fin m)) 2)) (map Fin vs) (Fin acc)
  = Fin (acc + sumSquaredDeviations m vs).
Proof.
  revert acc. induction vs as [|v vs IH]; intros acc; cbn [map fold_left].
  - f_equal. unfold sumSquaredDeviations. simpl. ring.
  - assert (E : jadd (Fin acc) (jpow (jsub (Fin v) (Fin m)) 2)
                = Fin (acc + (v - m) ^ 2)).
    { unfold jsub. cbn [jneg jadd jpow]. reflexivity. }
    rewrite E, IH. f_equal.
    unfold sumSquaredDeviations. cbn [fold_right]. ring.
Qed.

Lemma sumSquaredDeviations_nonneg m vs : 0 <= sumSquaredDeviations m vs.
Proof.
  induction vs as [|v vs IH]; unfold sumSquaredDeviations in *; cbn [fold_right]; [lra|].
  generalize (pow2_ge_0 (v - m)). lra.
Qed.

Lemma speedRange_fin vs :
  vs <> [] ->
  speedRange (map Fin vs)
  = (Some (Fin (meanR vs - deviationR vs)), Some (Fin (meanR vs + deviationR vs))).
Proof.
  intros Hne. destruct vs as [|v vs]; [contradiction|].
  assert (Hn : INR (List.length (v :: vs)) <> 0).
  { apply not_0_INR. discriminate. }
  assert (Hp : 0 < INR (List.length (v :: vs))).
  { apply lt_0_INR. simpl. lia. }
  unfold speedRange. cbn [map]. rewrite <- (map_cons Fin).
  rewrite length_map. unfold ofNat.
  rewrite (fold_sum (v :: vs) 0).
  rewrite jdiv_fin by assumption.
  replace ((0 + sumR (v :: vs)) / INR (List.length (v :: vs))) with (meanR (v :: vs))
    by (unfold meanR; f_equal; ring).
  rewrite (fold_variance (meanR (v :: vs)) (v :: vs) 0).
  rewrite jdiv_fin by assumption.
  unfold Math_sqrt. rewrite Rltb_false.
  - unfold jsub. cbn [jneg jadd]. unfold deviationR.
    replace (0 + sumSquaredDeviations (meanR (v :: vs)) (v :: vs))
      with (sumSquaredDeviations (meanR (v :: vs)) (v :: vs)) by ring.
    reflexivity.
  - apply Rle_not_lt. apply Rmult_le_pos.
    + generalize (sumSquaredDeviations_nonneg (meanR (v :: vs)) (v :: vs)). lra.
    + left. now apply Rinv_0_lt_compat.
Qed.

(** X19: for a non-empty series of finite speeds [minSpeed] and
    [maxSpeed] are finite, one population standard deviation below and
    above the mean; so the speed printed in the middle of the legend,
    [(maxSpeed + minSpeed) / 2], is the mean speed. *)
Theorem speedRange_around_mean vs :
  vs <> [] ->
  exists lo hi,
    speedRange (map Fin vs) = (Some (Fin lo), Some (Fin hi)) /\
    lo <= meanR vs <= hi /\ (lo + hi) / 2 = meanR vs /\
    hi - lo = 2 * deviationR vs.
Proof.
  intros Hne. exists (meanR vs - deviationR vs), (meanR vs + deviationR vs).
  split; [now apply speedRange_fin|].
  assert (0 <= deviationR vs) by apply sqrt_pos.
  repeat split; lra.
Qed.

End SpeedRange.

Section PathShape.

Import Geo Mapdump.
Local Open Scope R_scope.

Variable palette : list Z.

Lemma coloredPathLoop_chained transform bounds weight minSpeed maxSpeed speeds rest :
  forall j pointStart,
  chained (Math_round (jsub (px pointStart) (minX bounds)),
           Math_round (jsub (py pointStart) (minY bounds)))
    (coloredPathLoop palette transform bounds weight minSpeed maxSpeed speeds rest j
       pointStart) /\
  (List.length (coloredPathLoop palette transform bounds weight minSpeed maxSpeed speeds
                  rest j pointStart) <= List.length rest)%nat.
Proof.
  induction rest as [|tp rest IH]; intros j pointStart; cbn [coloredPathLoop].
  - split; [exact I | apply Nat.le_refl].
  - match goal with
    | |- context [if ?c then _ else _] => destruct c
    end.
    + destruct (IH (S j) pointStart) as [A B]. split; [assumption|]. simpl. lia.
    + destruct (IH (S j) (transform (latLonOf tp))) as [A B].
      split; [split; [reflexivity | assumption]|]. simpl. lia.
Qed.

(** X20: for a non-empty track drawColoredPath does not throw, draws at
    most one segment per track point after the first, and the segments
    form one connected line from the first point: each starts at the
    rounded position where the one before it ended. *)
Theorem drawColoredPath_connected transform bounds weight minSpeed maxSpeed speeds
  tp0 rest :
  exists ops,
    drawColoredPath palette transform bounds weight minSpeed maxSpeed speeds (tp0 :: rest)
    = Returned ops /\
    chained (Math_round (jsub (px (transform (latLonOf tp0))) (minX bounds)),
             Math_round (jsub (py (transform (latLonOf tp0))) (minY bounds))) ops /\
    (List.length ops <= List.length rest)%nat.
Proof.
  eexists. split; [reflexivity|]. apply coloredPathLoop_chained.
Qed.

Lemma ticksLoop_length transform bounds resolution size pts :
  forall prevT count,
  (List.length (ticksLoop transform bounds resolution size pts prevT count)
   <= List.length pts - 2)%nat.
Proof.
  induction pts as [|a pts IH]; intros prevT count; [simpl; lia|].
  destruct pts as [|b pts]; [simpl; lia|].
  destruct pts as [|c pts]; [simpl; lia|].
  cbn [ticksLoop].
  destruct (jge (time b) (jadd prevT (Fin 10000))).
  - specialize (IH (time b) (S count)). cbn [ticksLoop List.length] in *. lia.
  - specialize (IH prevT count). cbn [ticksLoop List.length] in *. lia.
Qed.

(** X21: the direction ticks number at most the track points less two,
    so a track of fewer than three points has none; and none is drawn
    when the first timestamp is missing, 0 or NaN. *)
Theorem drawTicks_count transform bounds resolution trackPoints :
  (List.length (drawTicks transform bounds resolution trackPoints)
   <= List.length trackPoints - 2)%nat /\
  (hasFirstTime trackPoints = false ->
   drawTicks transform bounds resolution trackPoints = []).
Proof.
  unfold drawTicks. split.
  - destruct (hasFirstTime trackPoints); [apply ticksLoop_length | simpl; lia].
  - intros ->. reflexivity.
Qed.

Lemma outline_radicand_skips weight (a b c e : R) :
  jlt weight (Fin 0) = false ->
  a - b ^ 2 + (c - e ^ 2) <= 0 ->
  jgt (Math_sqrt (jadd (jsub (Fin a) (jpow (Fin b) 2))
                       (jsub (Fin c) (jpow (Fin e) 2)))) weight = false.
Proof.
  intros Hw Hr. unfold jsub. cbn [jpow jneg jadd]. unfold Math_sqrt, jgt.
  destruct (Rlt_dec (a + - b ^ 2 + (c + - e ^ 2)) 0) as [Hneg|Hnn].
  - rewrite Rltb_true by assumption. destruct weight; reflexivity.
  - rewrite Rltb_false by assumption.
    replace (a + - b ^ 2 + (c + - e ^ 2)) with 0 by lra.
    now rewrite sqrt_0.
Qed.

Lemma outlinePath_stays transform bounds weight rest x0 y0 :
  jlt weight (Fin 0) = false ->
  Forall (fun q => exists x y,
            transform (latLonOf q) = mkPoint (Fin x) (Fin y) /\
            roundR x0 - roundR x ^ 2 + (roundR y0 - roundR y ^ 2) <= 0) rest ->
  outlinePath transform bounds weight rest (Some (mkPoint (Fin x0) (Fin y0))) = [].
Proof.
  intros Hw HF. induction HF as [|q rest (x & y & Eq & Hr) _ IH]; [reflexivity|].
  cbn [outlinePath]. rewrite Eq. cbn [px py Math_round].
  fold (roundR x0) (roundR y0) (roundR x) (roundR y).
  rewrite outline_radicand_skips by assumption. exact IH.
Qed.

(** X22: the test that decides whether a track point is added to the
    outline takes the square root of
    [round(prev.x) - round(pt.x)^2 + (round(prev.y) - round(pt.y)^2)].
    Whenever that quantity is not positive for every point after the
    first, as it is as soon as each rounded coordinate is at most its own
    square and the track does not come back towards the origin, and the
    weight is not negative, the outline consists of the first track
    point alone. *)
Theorem outlinePath_only_first_point transform bounds weight tp rest x0 y0 :
  transform (latLonOf tp) = mkPoint (Fin x0) (Fin y0) ->
  jlt weight (Fin 0) = false ->
  Forall (fun q => exists x y,
            transform (latLonOf q) = mkPoint (Fin x) (Fin y) /\
            roundR x0 - roundR x ^ 2 + (roundR y0 - roundR y ^ 2) <= 0) rest ->
  outlinePath transform bounds weight (tp :: rest) None
  = [(Math_round (jsub (Fin x0) (minX bounds)),
      Math_round (jsub (Fin y0) (minY bounds)))].
Proof.
  intros E0 Hw HF. cbn [outlinePath]. rewrite E0. cbn [px py].
  f_equal. now apply outlinePath_stays.
Qed.

End PathShape.

(** X18, instance: speeds 5 and 7 between 4 and 8 km/h on a palette of
    1024 entries. *)
Lemma getRGBForValue_index_monotone_witness :
  jle (Mapdump.paletteIndex (repeat 0%Z 1024)
         (Mapdump.relativeValue (Some (Fin 4)) (Some (Fin 8)) (Fin 5)))
      (Mapdump.paletteIndex (repeat 0%Z 1024)
         (Mapdump.relativeValue (Some (Fin 4)) (Some (Fin 8)) (Fin 7)))
  = true /\
  ((5 <= 4)%R ->
   Mapdump.relativeValue (Some (Fin 4)) (Some (Fin 8)) (Fin 5) = Fin 0) /\
  ((8 <= 7)%R ->
   Mapdump.relativeValue (Some (Fin 4)) (Some (Fin 8)) (Fin 7) = Fin 0.999).
Proof.
  apply (@getRGBForValue_index_monotone (repeat 0%Z 1024) 4 8 5 7)%R; lra.
Defined.

(** X19, instance: the speeds 4, 6 and 8 km/h. *)
Lemma speedRange_around_mean_witness :
  exists lo hi,
    Mapdump.speedRange (map Fin [4; 6; 8]%R) = (Some (Fin lo), Some (Fin hi)) /\
    (lo <= meanR [4; 6; 8] <= hi)%R /\ ((lo + hi) / 2 = meanR [4; 6; 8])%R /\
    (hi - lo = 2 * deviationR [4; 6; 8])%R.
Proof. apply (@speedRange_around_mean [4; 6; 8]%R). discriminate. Defined.

Lemma roundR_whole (z : Z) : roundR (IZR z) = IZR z.
Proof.
  unfold roundR. f_equal. apply Zfloor_eq. lra.
Qed.

(** X22, instance: a track from pixel (100, 100) to pixel (300, 200),
    under a transform that reads the pixel position off the point, with
    the line weight 4. *)
Lemma outlinePath_only_first_point_witness :
  Mapdump.outlinePath (fun p => Geo.mkPoint (Geo.lon p) (Geo.lat p))
    (Mapdump.mkBounds (Fin 0) (Fin 400) (Fin 0) (Fin 400)) (Fin 4)
    [ Mapdump.mkTrackPoint (Fin 0) (Fin 100, Fin 100);
      Mapdump.mkTrackPoint (Fin 10000) (Fin 200, Fin 300) ] None
  = [(Math_round (jsub (Fin 100) (Fin 0)), Math_round (jsub (Fin 100) (Fin 0)))].
Proof.
  apply (@outlinePath_only_first_point
           (fun p => Geo.mkPoint (Geo.lon p) (Geo.lat p))
           (Mapdump.mkBounds (Fin 0) (Fin 400) (Fin 0) (Fin 400)) (Fin 4)
           (Mapdump.mkTrackPoint (Fin 0) (Fin 100, Fin 100))
           [Mapdump.mkTrackPoint (Fin 10000) (Fin 200, Fin 300)] 100 100)%R.
  - reflexivity.
  - apply Rltb_false. lra.
  - constructor; [|constructor].
    exists 300%R, 200%R. split; [reflexivity|].
    rewrite !roundR_whole. lra.
Defined.

(** ** Calibration strings *)

Section CalibrationStrings.

Import Regex MapEdit.

Lemma commas_pieces (pieces : list (list ascii)) :
  Forall (Matches (Cat (Chr ",") numberRe)) pieces <->
  exists numbers, pieces = map (app (str ",")) numbers /\ Forall signedDecimal numbers.
Proof.
  split.
  - induction 1 as [|p pieces Hp _ IH].
    + exists []. split; [reflexivity | constructor].
    + destruct IH as (numbers & -> & HF).
      apply Matches_Cat_inv in Hp. destruct Hp as (c & n & -> & Hc & Hn).
      apply Matches_Chr in Hc. subst c. apply Matches_numberRe in Hn.
      exists (n :: numbers). split; [reflexivity | now constructor].
  - intros (numbers & -> & HF). induction HF as [|n numbers Hn _ IH]; simpl; constructor.
    + apply (@MCat (Chr ",") numberRe [","%char] n);
        [now apply Matches_Chr | now apply Matches_numberRe].
    + assumption.
Qed.

Lemma Matches_calibRe s :
  Matches calibRe s <->
  exists numbers,
    List.length numbers = 8%nat /\ Forall signedDecimal numbers /\
    s = join (str ",") numbers.
Proof.
  unfold calibRe. split.
  - intros H. apply Matches_Cat_inv in H. destruct H as (n & rest & -> & Hn & Hrest).
    apply Matches_numberRe in Hn.
    apply Matches_Rep in Hrest. destruct Hrest as (pieces & L & F & ->).
    apply commas_pieces in F. destruct F as (numbers & -> & HF).
    rewrite length_map in L.
    exists (n :: numbers). repeat split.
    + simpl. now rewrite L.
    + now constructor.
    + now rewrite join_concat.
  - intros (numbers & L & HF & ->).
    apply matches_Matches. now apply joined_numbers_valid.
Qed.

(** X23: [isValidCalibString] accepts exactly the strings that are eight
    signed decimal numbers joined by commas. *)
Theorem isValidCalibString_iff s :
  isValidCalibString s = true <->
  exists numbers,
    List.length numbers = 8%nat /\ Forall signedDecimal numbers /\
    s = join (str ",") numbers.
Proof.
  unfold isValidCalibString. rewrite matches_Matches. apply Matches_calibRe.
Qed.

Lemma isDigit_not_comma c : isDigit c = true -> c <> ","%char.
Proof. intros H ->. discriminate. Qed.

Lemma digits_no_comma s : digits s -> ~ In ","%char s.
Proof.
  intros [_ HF] HIn. rewrite Forall_forall in HF.
  apply HF in HIn. now apply isDigit_not_comma in HIn.
Qed.

Lemma signedDecimal_no_comma s : signedDecimal s -> ~ In ","%char s.
Proof.
  intros (sign & int & frac & -> & Hs & Hi & Hf) HIn.
  apply in_app_or in HIn. destruct HIn as [HIn|HIn].
  - destruct Hs as [->| ->]; simpl in HIn; [contradiction|].
    destruct HIn as [E|[]]; discriminate.
  - apply in_app_or in HIn. destruct HIn as [HIn|HIn].
    + now apply digits_no_comma in HIn.
    + destruct Hf as [->|(f & -> & Hf)]; simpl in HIn; [contradiction|].
      destruct HIn as [E|HIn]; [discriminate|].
      now apply digits_no_comma in HIn.
Qed.

Lemma split_join sep numbers :
  numbers <> [] -> Forall (fun n => ~ In sep n) numbers ->
  split sep (join [sep] numbers) = numbers.
Proof.
  intros Hne HF. induction HF as [|n rest Hn Hrest IH]; [contradiction|].
  destruct rest as [|m rest].
  - simpl join. now apply split_no_separator.
  - rewrite join_cons.
    change (n ++ [sep] ++ join [sep] (m :: rest))
      with (n ++ sep :: join [sep] (m :: rest)).
    rewrite split_at_separator by assumption.
    rewrite IH; [reflexivity | discriminate].
Qed.

(** X24: a string that [isValidCalibString] accepts splits at its commas
    into exactly eight pieces, each a signed decimal number, and joining
    the pieces with commas gives the string back; so the eight indices
    that the readers of a calibration string take after
    [split(",")] are all defined. *)
Theorem isValidCalibString_split s :
  isValidCalibString s = true ->
  List.length (split "," s) = 8%nat /\
  Forall signedDecimal (split "," s) /\
  join (str ",") (split "," s) = s.
Proof.
  intros H. apply matches_Matches, Matches_calibRe in H.
  destruct H as (numbers & L & HF & ->).
  assert (E : split "," (join (str ",") numbers) = numbers).
  { apply split_join.
    - intros ->. discriminate.
    - eapply Forall_impl; [|exact HF]. intros n Hn. now apply signedDecimal_no_comma. }
  rewrite E. now repeat split.
Qed.

End CalibrationStrings.

(** ** File names *)

Section FileNames.

Import Regex MapEdit MapEditForm.

Lemma split_nonempty sep s : split sep s <> [].
Proof.
  destruct s as [|c s]; simpl; [discriminate|].
  destruct (Ascii.eqb c sep); [discriminate|].
  destruct (split sep s); discriminate.
Qed.

Lemma last_cons_nonempty A (x : A) l d : l <> [] -> last (x :: l) d = last l d.
Proof. destruct l; [contradiction | reflexivity]. Qed.

Lemma split_two_pieces sep a b : exists p q rest, split sep (a ++ sep :: b) = p :: q :: rest.
Proof.
  induction a as [|c a IH]; simpl.
  - rewrite Ascii.eqb_refl. destruct (split sep b) as [|q rest] eqn:E.
    + now apply split_nonempty in E.
    + eauto.
  - destruct IH as (p & q & rest & ->).
    destruct (Ascii.eqb c sep); eauto.
Qed.

Lemma last_split_app sep a b :
  last (split sep (a ++ sep :: b)) [] = last (split sep b) [].
Proof.
  induction a as [|c a IH]; simpl app.
  - simpl split. rewrite Ascii.eqb_refl.
    apply last_cons_nonempty, split_nonempty.
  - destruct (split_two_pieces sep a b) as (p & q & rest & E).
    simpl split. rewrite E in *. destruct (Ascii.eqb c sep).
    + rewrite <- IH. reflexivity.
    + rewrite <- IH. reflexivity.
Qed.

Lemma firstn_app_exact A (l1 l2 : list A) : firstn (List.length l1) (l1 ++ l2) = l1.
Proof.
  replace (List.length l1) with (List.length l1 + 0)%nat by lia.
  rewrite firstn_app_2. simpl. apply app_nil_r.
Qed.

Lemma firstn_before_extension (base ext : list ascii) :
  firstn (List.length (base ++ "."%char :: ext) - List.length ext)
         (base ++ "."%char :: ext)
  = base ++ ["."%char].
Proof.
  replace (List.length (base ++ "."%char :: ext) - List.length ext)
    with (List.length (base ++ ["."%char])).
  - change (base ++ "."%char :: ext) with (base ++ ["."%char] ++ ext).
    rewrite app_assoc. now rewrite firstn_app_exact.
  - rewrite !length_app. simpl. lia.
Qed.

Lemma pdfImageName_extension base ext :
  ~ In "."%char ext ->
  pdfImageName (base ++ "."%char :: ext) = base ++ "."%char :: str "jpg".
Proof.
  intros H. unfold pdfImageName.
  rewrite last_split_app, (split_no_separator _ _ H). cbn [last].
  rewrite firstn_before_extension. now rewrite <- app_assoc.
Qed.

Lemma pdfImageName_no_dot name :
  ~ In "."%char name -> pdfImageName name = str "jpg".
Proof.
  intros H. unfold pdfImageName. rewrite (split_no_separator _ _ H). cbn [last].
  now rewrite Nat.sub_diag.
Qed.

(** X25: the image rendered from a PDF gets the name of the PDF with
    everything after its last dot replaced by [jpg]; a name without a dot
    is replaced as a whole, the image is then called [jpg]. *)
Theorem pdfImageName_replaces_extension :
  (forall base ext, ~ In "."%char ext ->
     pdfImageName (base ++ "."%char :: ext) = base ++ "."%char :: str "jpg") /\
  (forall name, ~ In "."%char name -> pdfImageName name = str "jpg").
Proof. split; [apply pdfImageName_extension | apply pdfImageName_no_dot]. Qed.

Lemma afterUnderscore_underscored numbers ext :
  afterUnderscore numbers ext = underscored numbers ++ "."%char :: ext.
Proof.
  unfold underscored. induction numbers as [|n rest IH]; [reflexivity|].
  simpl. rewrite IH. rewrite <- !app_assoc. reflexivity.
Qed.

(** What [extractCornersCoordsFromFilename] returns on a name that
    follows the convention. *)
Lemma extract_convention before numbers ext :
  List.length numbers = 8%nat -> Forall signedDecimal numbers -> In ext extensions ->
  extractCornersCoordsFromFilename (before ++ conventionSuffix numbers ext)
  = Some (join (str ",") numbers).
Proof.
  intros L HF He.
  assert (Hm : matches filenameRe (conventionSuffix numbers ext) = true).
  { apply matches_Matches, Matches_filenameRe. now exists numbers, ext. }
  unfold extractCornersCoordsFromFilename.
  rewrite matchToEnd_finds; [|assumption|].
  - rewrite split_conventionSuffix by assumption.
    now rewrite shift_pop_words.
  - intros x y _ Hy. now apply no_longer_match.
Qed.

(** X26: a PDF whose name ends in eight signed decimal numbers, each
    preceded by an underscore, one more underscore and an extension
    without a dot, yields an image from whose name
    [extractCornersCoordsFromFilename] reads the eight numbers. *)
Theorem pdf_name_keeps_calibration before numbers ext :
  List.length numbers = 8%nat -> Forall signedDecimal numbers ->
  ~ In "."%char ext ->
  extractCornersCoordsFromFilename
    (pdfImageName (before ++ conventionSuffix numbers ext))
  = Some (join (str ",") numbers).
Proof.
  intros L HF Hext.
  unfold conventionSuffix. rewrite afterUnderscore_underscored.
  replace (before ++ "_"%char :: underscored numbers ++ "."%char :: ext)
    with ((before ++ "_"%char :: underscored numbers) ++ "."%char :: ext)
    by (now rewrite <- app_assoc).
  rewrite pdfImageName_extension by assumption.
  replace ((before ++ "_"%char :: underscored numbers) ++ "."%char :: str "jpg")
    with (before ++ conventionSuffix numbers (str "jpg")).
  - apply extract_convention; try assumption. simpl. auto.
  - unfold conventionSuffix. rewrite afterUnderscore_underscored.
    now rewrite <- app_assoc.
Qed.

Lemma Matches_lastExtensionRe s :
  Matches lastExtensionRe s <->
  exists e, s = "."%char :: e /\ e <> [] /\ Forall (fun c => notSlashDot c = true) e.
Proof.
  unfold lastExtensionRe. split.
  - intros H. apply Matches_Cat_inv in H. destruct H as (d & e & -> & Hd & He).
    apply Matches_Chr in Hd. subst d. apply Matches_Plus_Sym in He.
    exists e. now split.
  - intros (e & -> & Hne & HF). change ("."%char :: e) with (["."%char] ++ e).
    constructor; [now apply Matches_Chr | now apply Matches_Plus_Sym].
Qed.

Lemma notSlashDot_not_dot c : notSlashDot c = true -> c <> "."%char.
Proof. intros H ->. discriminate. Qed.

Lemma matchToEnd_no_dot name :
  ~ In "."%char name -> matchToEnd lastExtensionRe name = None.
Proof.
  induction name as [|c name IH]; intros H.
  - reflexivity.
  - rewrite matchToEnd_unfold.
    destruct (matches lastExtensionRe (c :: name)) eqn:E.
    + exfalso. apply matches_Matches, Matches_lastExtensionRe in E.
      destruct E as (e & E & _). inversion E; subst. apply H. now left.
    + apply IH. intros C. apply H. now right.
Qed.

Lemma defaultName_extension base ext :
  ext <> [] -> Forall (fun c => notSlashDot c = true) ext ->
  defaultName (base ++ "."%char :: ext) = base.
Proof.
  intros Hne HF. unfold defaultName.
  rewrite matchToEnd_finds.
  - replace (List.length (base ++ "."%char :: ext) - List.length ("."%char :: ext))
      with (List.length base) by (rewrite length_app; lia).
    now rewrite firstn_app_exact.
  - apply matches_Matches, Matches_lastExtensionRe. now exists ext.
  - intros x y _ Hy.
    destruct (matches lastExtensionRe (y ++ "."%char :: ext)) eqn:E; [|reflexivity].
    exfalso. apply matches_Matches, Matches_lastExtensionRe in E.
    destruct E as (e & E & _ & HFe).
    destruct y as [|c y]; [contradiction|].
    simpl in E. inversion E; subst.
    rewrite Forall_forall in HFe.
    assert (Hin : In "."%char (y ++ "."%char :: ext)) by (apply in_or_app; right; now left).
    apply HFe in Hin. discriminate.
Qed.

Lemma defaultName_no_dot name : ~ In "."%char name -> defaultName name = name.
Proof. intros H. unfold defaultName. now rewrite matchToEnd_no_dot. Qed.

Lemma matchToEnd_none r s :
  (forall x y, s = x ++ y -> matches r y = false) -> matchToEnd r s = None.
Proof.
  induction s as [|c s IH]; intros H; rewrite matchToEnd_unfold.
  - now rewrite (H [] []).
  - rewrite (H [] (c :: s)) by reflexivity.
    apply IH. intros x y E. apply (H (c :: x) y). now rewrite E.
Qed.

Lemma defaultName_trailing_dot base :
  defaultName (base ++ ["."%char]) = base ++ ["."%char].
Proof.
  unfold defaultName. rewrite matchToEnd_none; [reflexivity|].
  intros x y E.
  destruct (matches lastExtensionRe y) eqn:M; [|reflexivity].
  exfalso. apply matches_Matches, Matches_lastExtensionRe in M.
  destruct M as (e & -> & Hne & HFe).
  destruct (exists_last Hne) as (e' & c & ->).
  rewrite Forall_forall in HFe.
  assert (Hc : notSlashDot c = true) by (apply HFe, in_or_app; right; now left).
  change (x ++ "."%char :: e' ++ [c]) with (x ++ ("."%char :: e') ++ [c]) in E.
  rewrite app_assoc in E. apply app_inj_tail in E. destruct E as [_ E].
  subst c. discriminate.
Qed.

(** X27: the default map name is the file name without its last
    extension, a dot followed by characters other than a dot and a
    slash up to the end; a name without a dot and a name that ends in a
    dot are kept as they are. *)
Theorem defaultName_strips_last_extension :
  (forall base ext,
     ext <> [] -> Forall (fun c => notSlashDot c = true) ext ->
     defaultName (base ++ "."%char :: ext) = base) /\
  (forall name, ~ In "."%char name -> defaultName name = name) /\
  (forall base, defaultName (base ++ ["."%char]) = base ++ ["."%char]).
Proof.
  split; [apply defaultName_extension|]. split; [apply defaultName_no_dot|].
  apply defaultName_trailing_dot.
Qed.

End FileNames.

(** ** The markers of the calibration helper *)

Section Helper.

Import Geo MapEdit MapEditForm.

Lemma consistent_open s : consistent (openCalibrationHelper s).
Proof. unfold consistent. simpl. split; [lia | split; [lia | reflexivity]]. Qed.

Lemma consistent_handle s ev : consistent s -> consistent (handle s ev).
Proof.
  intros (HR & HW & HB). destruct ev as [xy|latlng| | |]; cbn [handle].
  - unfold setRefPtsRaster.
    destruct (Nat.ltb_spec (List.length (markersRaster s)) 4) as [Hlt|Hge].
    + unfold consistent, checkCalib. cbn [markersRaster markersWorld btnToPreview].
      rewrite length_app. simpl. split; [lia | split; [lia | reflexivity]].
    + now repeat split.
  - unfold setRefPtsWorld.
    destruct (Nat.ltb_spec (List.length (markersWorld s)) 4) as [Hlt|Hge].
    + unfold consistent, checkCalib. cbn [markersRaster markersWorld btnToPreview].
      rewrite length_app. simpl. split; [lia | split; [lia | reflexivity]].
    + now repeat split.
  - unfold consistent, resetRasterMarkers. cbn [markersRaster markersWorld btnToPreview].
    split; [simpl; lia | split; [assumption|]].
    simpl. now rewrite andb_false_r.
  - unfold consistent, resetWorldMarkers. cbn [markersRaster markersWorld btnToPreview].
    split; [assumption | split; [simpl; lia | reflexivity]].
  - apply consistent_open.
Qed.

Lemma consistent_run evs : forall s, consistent s -> consistent (fold_left handle evs s).
Proof.
  induction evs as [|ev evs IH]; intros s H; [assumption|].
  cbn [fold_left]. apply IH. now apply consistent_handle.
Qed.

Lemma computeCorners_four s width height cornersLatLng :
  consistent s -> btnToPreview s = true -> (List.length cornersLatLng <= 4)%nat ->
  List.length (computeCorners s width height cornersLatLng) = 4%nat.
Proof.
  intros (HR & HW & HB) Hbtn Hold. rewrite Hbtn in HB. symmetry in HB.
  apply andb_true_iff in HB. destruct HB as [B1 B2].
  apply Nat.leb_le in B1, B2.
  unfold computeCorners.
  destruct (markersRaster s) as [|r0 [|r1 [|r2 [|r3 [|r4 rr]]]]]; simpl in HR, B2; try lia;
    destruct (markersWorld s) as [|w0 [|w1 [|w2 [|w3 [|w4 ww]]]]]; simpl in HW, B1; try lia;
    try reflexivity.
  rewrite length_app, length_map, length_skipn. simpl. lia.
Qed.

(** X28: after [openCalibrationHelper] and any sequence of clicks on the
    two maps and on the two reset buttons, each map has at most four
    markers and the button to the second step is the enabled one exactly
    when each map has at least three; so whenever that button is
    enabled, [computeCalibString] takes one of its two branches and
    hands four corners to [buildCalibString]. *)
Theorem helper_markers_and_button s0 evs :
  let s := fold_left handle evs (openCalibrationHelper s0) in
  (List.length (markersRaster s) <= 4)%nat /\
  (List.length (markersWorld s) <= 4)%nat /\
  btnToPreview s =
    ((3 <=? List.length (markersWorld s))%nat
     && (3 <=? List.length (markersRaster s))%nat) /\
  (btnToPreview s = true ->
   forall width height cornersLatLng,
     (List.length cornersLatLng <= 4)%nat ->
     List.length (computeCorners s width height cornersLatLng) = 4%nat).
Proof.
  intros s.
  assert (H : consistent s) by (apply consistent_run, consistent_open).
  destruct H as (HR & HW & HB). repeat split; try assumption.
  intros Hbtn width height old Hold.
  apply computeCorners_four; [now repeat split | assumption | assumption].
Qed.

End Helper.

(** ** The corners [computeCalibString] computes *)

Section HelperCorners.

Import Geo MapEdit MapEditForm.
Local Open Scope R_scope.

Lemma general2DProjection_points a1 b1 a2 b2 a3 b3 a4 b4 :
  MapEditForm.general2DProjection a1 b1 a2 b2 a3 b3 a4 b4
  = Geo.general2DProjection
      (px a1) (py a1) (px b1) (py b1) (px a2) (py a2) (px b2) (py b2)
      (px a3) (py a3) (px b3) (py b3) (px a4) (py a4) (px b4) (py b4).
Proof. reflexivity. Qed.

(** A finite corner computed from a matrix of finite entries comes from
    a finite projected point. *)
Lemma finite_corner m0 m1 m2 m3 m4 m5 m6 m7 m8 x y :
  let M := [Fin m0; Fin m1; Fin m2; Fin m3; Fin m4; Fin m5; Fin m6; Fin m7; Fin m8] in
  finiteLatLon
    (MetersToLatLon (mkPoint (fst (project M (Fin x) (Fin y)))
                             (snd (project M (Fin x) (Fin y))))) ->
  exists a b, project M (Fin x) (Fin y) = (Fin a, Fin b).
Proof.
  intros M [[la Hla] [lo Hlo]].
  destruct (@MetersToLatLon_finite_lon
              (mkPoint (fst (project M (Fin x) (Fin y))) (snd (project M (Fin x) (Fin y))))
              la lo) as [a Ha].
  - destruct (MetersToLatLon _) as [u v]. cbn [lat lon] in *. now subst.
  - cbn [px] in Ha.
    destruct (@project_matrix_first_finite m0 m1 m2 m3 m4 m5 m6 m7 m8 x y a Ha) as [b Hb].
    eauto.
Qed.

(** X29: with four markers on each map, the raster markers at finite
    pixel positions and the world markers at finite coordinates with
    latitudes strictly between -90 and 90, no three of either collinear,
    an image of non-zero width and height, and finite computed corners:
    the corners [computeCalibString] computes are a calibration under
    which [cornerCalTransform] sends each world marker exactly to the
    pixel position of its raster marker. *)
Theorem computeCorners_four_markers
  (s : Helper) (w h : R) (old : list LatLon)
  (r1x r1y r2x r2y r3x r3y r4x r4y : R)
  (la1 lo1 la2 lo2 la3 lo3 la4 lo4 : R) :
  markersRaster s =
    [mkPoint (Fin r1x) (Fin r1y); mkPoint (Fin r2x) (Fin r2y);
     mkPoint (Fin r3x) (Fin r3y); mkPoint (Fin r4x) (Fin r4y)] ->
  markersWorld s =
    [mkLatLon (Fin la1) (Fin lo1); mkLatLon (Fin la2) (Fin lo2);
     mkLatLon (Fin la3) (Fin lo3); mkLatLon (Fin la4) (Fin lo4)] ->
  -90 < la1 < 90 -> -90 < la2 < 90 -> -90 < la3 < 90 -> -90 < la4 < 90 ->
  w <> 0 -> h <> 0 ->
  det3 r1x r1y r2x r2y r3x r3y <> 0 ->
  det3 r4x r4y r2x r2y r3x r3y <> 0 ->
  det3 r1x r1y r4x r4y r3x r3y <> 0 ->
  det3 r1x r1y r2x r2y r4x r4y <> 0 ->
  det3 (mercX lo1) (mercY la1) (mercX lo2) (mercY la2) (mercX lo3) (mercY la3) <> 0 ->
  det3 (mercX lo4) (mercY la4) (mercX lo2) (mercY la2) (mercX lo3) (mercY la3) <> 0 ->
  det3 (mercX lo1) (mercY la1) (mercX lo4) (mercY la4) (mercX lo3) (mercY la3) <> 0 ->
  det3 (mercX lo1) (mercY la1) (mercX lo2) (mercY la2) (mercX lo4) (mercY la4) <> 0 ->
  Forall finiteLatLon (firstn 4 (computeCorners s (Fin w) (Fin h) old)) ->
  exists c1 c2 c3 c4,
    computeCorners s (Fin w) (Fin h) old = [c1; c2; c3; c4] ++ skipn 4 old /\
    let transform := cornerCalTransform (Fin w) (Fin h) c1 c2 c3 c4 in
    transform (mkLatLon (Fin la1) (Fin lo1)) = mkPoint (Fin r1x) (Fin r1y) /\
    transform (mkLatLon (Fin la2) (Fin lo2)) = mkPoint (Fin r2x) (Fin r2y) /\
    transform (mkLatLon (Fin la3) (Fin lo3)) = mkPoint (Fin r3x) (Fin r3y) /\
    transform (mkLatLon (Fin la4) (Fin lo4)) = mkPoint (Fin r4x) (Fin r4y).
Proof.
  intros ER EW L1 L2 L3 L4 Hw Hh R123 R423 R143 R124 M123 M423 M143 M124 HF.
  destruct (pixel_corners_nonzero Hw Hh) as (Q123 & Q423 & Q143 & Q124).
  unfold computeCorners in *. rewrite ER, EW in *.
  rewrite general2DProjection_points in *.
  rewrite !LatLonToMeters_fin in * by assumption. cbn [px py] in *.
  assert (P1 := @project_p1 r1x r1y r2x r2y r3x r3y r4x r4y
                  (mercX lo1) (mercY la1) (mercX lo2) (mercY la2)
                  (mercX lo3) (mercY la3) (mercX lo4) (mercY la4) R123 R143 R124 M423).
  assert (P2 := @project_p2 r1x r1y r2x r2y r3x r3y r4x r4y
                  (mercX lo1) (mercY la1) (mercX lo2) (mercY la2)
                  (mercX lo3) (mercY la3) (mercX lo4) (mercY la4) R123 R423 R124 M143).
  assert (P3 := @project_p3 r1x r1y r2x r2y r3x r3y r4x r4y
                  (mercX lo1) (mercY la1) (mercX lo2) (mercY la2)
                  (mercX lo3) (mercY la3) (mercX lo4) (mercY la4) R123 R423 R143 M124).
  assert (P4 := @project_p4 r1x r1y r2x r2y r3x r3y r4x r4y
                  (mercX lo1) (mercY la1) (mercX lo2) (mercY la2)
                  (mercX lo3) (mercY la3) (mercX lo4) (mercY la4) R423 R143 R124 M123).
  destruct (general2DProjection_entries r1x r1y (mercX lo1) (mercY la1)
              r2x r2y (mercX lo2) (mercY la2) r3x r3y (mercX lo3) (mercY la3)
              r4x r4y (mercX lo4) (mercY la4))
    as (m0 & m1 & m2 & m3 & m4 & m5 & m6 & m7 & m8 & EM).
  rewrite EM in *. clear EM.
  set (M := [Fin m0; Fin m1; Fin m2; Fin m3; Fin m4; Fin m5; Fin m6; Fin m7; Fin m8]) in *.
  cbn [map app firstn] in HF.
  inversion HF as [|? ? F1 HF1]; subst. inversion HF1 as [|? ? F2 HF2]; subst.
  inversion HF2 as [|? ? F3 HF3]; subst. inversion HF3 as [|? ? F4 _]; subst.
  apply finite_corner in F1, F2, F3, F4.
  destruct F1 as (x1 & y1 & C1). destruct F2 as (x2 & y2 & C2).
  destruct F3 as (x3 & y3 & C3). destruct F4 as (x4 & y4 & C4).
  fold M in C1, C2, C3, C4.
  do 4 eexists. split; [reflexivity|].
  cbv zeta. unfold cornerCalTransform, cornerCalMatrix.
  rewrite C1, C2, C3, C4. cbn [fst snd].
  rewrite !LatLonToMeters_after_MetersToLatLon.
  rewrite !LatLonToMeters_fin by assumption. cbn [px py].
  assert (I123 : det3 x1 y1 x2 y2 x3 y3 <> 0).
  { apply (@images_not_collinear m0 m1 m2 m3 m4 m5 m6 m7 m8
             r1x r1y r2x r2y r3x r3y
             (mercX lo1) (mercY la1) (mercX lo2) (mercY la2) (mercX lo3) (mercY la3)
             0 0 w 0 w h x1 y1 x2 y2 x3 y3); assumption. }
  repeat split.
  - rewrite (@through_images m0 m1 m2 m3 m4 m5 m6 m7 m8 0 0 w 0 w h 0 h
               r1x r1y (mercX lo1) (mercY la1) x1 y1 x2 y2 x3 y3 x4 y4);
      try assumption; reflexivity.
  - rewrite (@through_images m0 m1 m2 m3 m4 m5 m6 m7 m8 0 0 w 0 w h 0 h
               r2x r2y (mercX lo2) (mercY la2) x1 y1 x2 y2 x3 y3 x4 y4);
      try assumption; reflexivity.
  - rewrite (@through_images m0 m1 m2 m3 m4 m5 m6 m7 m8 0 0 w 0 w h 0 h
               r3x r3y (mercX lo3) (mercY la3) x1 y1 x2 y2 x3 y3 x4 y4);
      try assumption; reflexivity.
  - rewrite (@through_images m0 m1 m2 m3 m4 m5 m6 m7 m8 0 0 w 0 w h 0 h
               r4x r4y (mercX lo4) (mercY la4) x1 y1 x2 y2 x3 y3 x4 y4);
      try assumption; reflexivity.
Qed.

End HelperCorners.

Section AffineCorners.

Import Geo MapEdit MapEditForm.
Local Open Scope R_scope.

(** The six coefficients of the affine fit are finite numbers when the
    nudged pixel positions are not collinear. *)
Lemma deriveAffineTransform_coeffs
  (ax ay amx amy bx by_ bmx bmy cx cy cmx cmy : R) :
  let a := mkCalPt (mkPoint (Fin amx) (Fin amy)) (mkPoint (Fin ax) (Fin ay)) in
  let b := mkCalPt (mkPoint (Fin bmx) (Fin bmy)) (mkPoint (Fin bx) (Fin by_)) in
  let c := mkCalPt (mkPoint (Fin cmx) (Fin cmy)) (mkPoint (Fin cx) (Fin cy)) in
  det3 (ax - e_value) (ay + e_value) (bx + e_value) (by_ - e_value)
       (cx + e_value) (cy + e_value) <> 0 ->
  exists c0 c1 c2 c3 c4 c5,
    fst (deriveAffineTransform a b c)
    = [Fin c0; Fin c1; Fin c2; Fin c3; Fin c4; Fin c5].
Proof.
  intros a b c HD. unfold a, b, c.
  unfold deriveAffineTransform, nudge, solveAffineMatrix, e.
  cbn -[Rmult Rplus Ropp Rminus Rdiv Reqb jdiv jmul jadd jsub e_value].
  unfold jsub. cbn -[Rmult Rplus Ropp Rminus Rdiv Reqb jdiv e_value].
  set (r1 := ax + - e_value) in *. set (s1 := ay + e_value) in *.
  set (r2 := bx + e_value) in *. set (s2 := by_ + - e_value) in *.
  set (r3 := cx + e_value) in *. set (s3 := cy + e_value) in *.
  assert (HD' : det3 r1 s1 r2 s2 r3 s3 <> 0).
  { intros C. apply HD. rewrite <- C. unfold r1, s1, r2, s2, r3, s3, det3. ring. }
  assert (Da : (r2 + - r3) * (s1 + - s2) + - ((r1 + - r2) * (s2 + - s3)) <> 0).
  { intros C. apply HD'. unfold det3. lra. }
  assert (Db : (s2 + - s3) * (r1 + - r2) + - ((s1 + - s2) * (r2 + - r3)) <> 0).
  { intros C. apply HD'. unfold det3. lra. }
  rewrite !(fun n => @jdiv_fin n _ Da), !(fun n => @jdiv_fin n _ Db).
  cbn -[Rmult Rplus Ropp Rminus Rdiv e_value].
  repeat eexists.
Qed.

Lemma mapXYtoMeters_fin c0 c1 c2 c3 c4 c5 x y :
  mapXYtoMeters [Fin c0; Fin c1; Fin c2; Fin c3; Fin c4; Fin c5] (mkPoint (Fin x) (Fin y))
  = mkPoint (Fin (x * c0 + y * c1 + c2)) (Fin (x * c3 + y * c4 + c5)).
Proof. reflexivity. Qed.

(** The affine map as the matrix with last row 0 0 1. *)
Lemma affine_as_project c0 c1 c2 c3 c4 c5 x y :
  project [Fin c0; Fin c1; Fin c2; Fin c3; Fin c4; Fin c5; Fin 0; Fin 0; Fin 1]
    (Fin x) (Fin y)
  = (Fin (x * c0 + y * c1 + c2), Fin (x * c3 + y * c4 + c5)).
Proof.
  unfold project. cbn -[Rmult Rplus Ropp Rminus Rdiv Reqb jdiv].
  rewrite !jdiv_fin by lra. f_equal; f_equal; field.
Qed.

(** X30: with at least three markers on each map, but not four on
    both, the corners [computeCalibString] computes from the affine fit
    are a calibration under which [cornerCalTransform] sends each of the
    first three world markers to the pixel position of its raster marker
    as [deriveAffineTransform] left it, moved by 1e-15 in each
    coordinate.  The nudged pixel positions and the projected world
    markers must not be collinear. *)
Theorem computeCorners_three_markers
  (s : Helper) (w h : R) (old : list LatLon)
  (r1x r1y r2x r2y r3x r3y : R) (restR : list Point)
  (la1 lo1 la2 lo2 la3 lo3 : R) (restW : list LatLon) :
  markersRaster s =
    mkPoint (Fin r1x) (Fin r1y) :: mkPoint (Fin r2x) (Fin r2y)
    :: mkPoint (Fin r3x) (Fin r3y) :: restR ->
  markersWorld s =
    mkLatLon (Fin la1) (Fin lo1) :: mkLatLon (Fin la2) (Fin lo2)
    :: mkLatLon (Fin la3) (Fin lo3) :: restW ->
  ~ (List.length restR = 1%nat /\ List.length restW = 1%nat) ->
  -90 < la1 < 90 -> -90 < la2 < 90 -> -90 < la3 < 90 ->
  w <> 0 -> h <> 0 ->
  det3 (r1x - e_value) (r1y + e_value) (r2x + e_value) (r2y - e_value)
       (r3x + e_value) (r3y + e_value) <> 0 ->
  det3 (mercX lo1) (mercY la1) (mercX lo2) (mercY la2) (mercX lo3) (mercY la3) <> 0 ->
  exists c1 c2 c3 c4,
    computeCorners s (Fin w) (Fin h) old = [c1; c2; c3; c4] /\
    let transform := cornerCalTransform (Fin w) (Fin h) c1 c2 c3 c4 in
    transform (mkLatLon (Fin la1) (Fin lo1))
      = mkPoint (Fin (r1x - e_value)) (Fin (r1y + e_value)) /\
    transform (mkLatLon (Fin la2) (Fin lo2))
      = mkPoint (Fin (r2x + e_value)) (Fin (r2y - e_value)) /\
    transform (mkLatLon (Fin la3) (Fin lo3))
      = mkPoint (Fin (r3x + e_value)) (Fin (r3y + e_value)).
Proof.
  intros ER EW Hnot4 L1 L2 L3 Hw Hh RD MD.
  destruct (pixel_corners_nonzero Hw Hh) as (Q123 & Q423 & Q143 & Q124).
  assert (Ecorners :
    computeCorners s (Fin w) (Fin h) old =
    (let xyToLatLngMetersCoeffs :=
       fst (deriveAffineTransform
              (mkCalPt (LatLonToMeters (mkLatLon (Fin la1) (Fin lo1)))
                       (mkPoint (Fin r1x) (Fin r1y)))
              (mkCalPt (LatLonToMeters (mkLatLon (Fin la2) (Fin lo2)))
                       (mkPoint (Fin r2x) (Fin r2y)))
              (mkCalPt (LatLonToMeters (mkLatLon (Fin la3) (Fin lo3)))
                       (mkPoint (Fin r3x) (Fin r3y)))) in
     [ mapXYtoLatLng xyToLatLngMetersCoeffs (mkPoint (Fin 0) (Fin 0));
       mapXYtoLatLng xyToLatLngMetersCoeffs (mkPoint (Fin w) (Fin 0));
       mapXYtoLatLng xyToLatLngMetersCoeffs (mkPoint (Fin w) (Fin h));
       mapXYtoLatLng xyToLatLngMetersCoeffs (mkPoint (Fin 0) (Fin h)) ])).
  { unfold computeCorners. rewrite ER, EW.
    destruct restR as [|r4 [|r5 restR]]; destruct restW as [|w4 [|w5 restW]];
      try reflexivity.
    exfalso. apply Hnot4. now split. }
  rewrite Ecorners. clear Ecorners. cbv zeta.
  rewrite !LatLonToMeters_fin by assumption.
  destruct (@deriveAffineTransform_coeffs
              r1x r1y (mercX lo1) (mercY la1) r2x r2y (mercX lo2) (mercY la2)
              r3x r3y (mercX lo3) (mercY la3) RD)
    as (c0 & c1 & c2 & c3 & c4 & c5 & EC).
  destruct (@deriveAffineTransform_exact
              r1x r1y (mercX lo1) (mercY la1) r2x r2y (mercX lo2) (mercY la2)
              r3x r3y (mercX lo3) (mercY la3) RD)
    as ((N1 & N2 & N3) & A1 & A2 & A3).
  cbv zeta in EC. rewrite EC in *. rewrite N1 in A1. rewrite N2 in A2. rewrite N3 in A3.
  clear N1 N2 N3 EC.
  cbn [latLonMeters] in A1, A2, A3.
  rewrite mapXYtoMeters_fin in A1, A2, A3.
  set (M := [Fin c0; Fin c1; Fin c2; Fin c3; Fin c4; Fin c5; Fin 0; Fin 0; Fin 1]).
  assert (P1 : project M (Fin (r1x - e_value)) (Fin (r1y + e_value))
               = (Fin (mercX lo1), Fin (mercY la1))).
  { unfold M. rewrite affine_as_project. inversion A1. reflexivity. }
  assert (P2 : project M (Fin (r2x + e_value)) (Fin (r2y - e_value))
               = (Fin (mercX lo2), Fin (mercY la2))).
  { unfold M. rewrite affine_as_project. inversion A2. reflexivity. }
  assert (P3 : project M (Fin (r3x + e_value)) (Fin (r3y + e_value))
               = (Fin (mercX lo3), Fin (mercY la3))).
  { unfold M. rewrite affine_as_project. inversion A3. reflexivity. }
  do 4 eexists. split; [reflexivity|].
  unfold cornerCalTransform, cornerCalMatrix, mapXYtoLatLng.
  rewrite !mapXYtoMeters_fin.
  rewrite !LatLonToMeters_after_MetersToLatLon.
  rewrite !LatLonToMeters_fin by assumption. cbn [px py].
  assert (C1 := affine_as_project c0 c1 c2 c3 c4 c5 0 0).
  assert (C2 := affine_as_project c0 c1 c2 c3 c4 c5 w 0).
  assert (C3 := affine_as_project c0 c1 c2 c3 c4 c5 w h).
  assert (C4 := affine_as_project c0 c1 c2 c3 c4 c5 0 h).
  fold M in C1, C2, C3, C4.
  assert (I123 : det3 (0 * c0 + 0 * c1 + c2) (0 * c3 + 0 * c4 + c5)
                      (w * c0 + 0 * c1 + c2) (w * c3 + 0 * c4 + c5)
                      (w * c0 + h * c1 + c2) (w * c3 + h * c4 + c5) <> 0).
  { apply (@images_not_collinear c0 c1 c2 c3 c4 c5 0 0 1
             (r1x - e_value) (r1y + e_value) (r2x + e_value) (r2y - e_value)
             (r3x + e_value) (r3y + e_value)
             (mercX lo1) (mercY la1) (mercX lo2) (mercY la2) (mercX lo3) (mercY la3)
             0 0 w 0 w h); assumption. }
  repeat split.
  - rewrite (@through_images c0 c1 c2 c3 c4 c5 0 0 1 0 0 w 0 w h 0 h
               (r1x - e_value) (r1y + e_value) (mercX lo1) (mercY la1)
               _ _ _ _ _ _ _ _ Q123 Q423 Q143 Q124 I123 C1 C2 C3 C4 P1).
    reflexivity.
  - rewrite (@through_images c0 c1 c2 c3 c4 c5 0 0 1 0 0 w 0 w h 0 h
               (r2x + e_value) (r2y - e_value) (mercX lo2) (mercY la2)
               _ _ _ _ _ _ _ _ Q123 Q423 Q143 Q124 I123 C1 C2 C3 C4 P2).
    reflexivity.
  - rewrite (@through_images c0 c1 c2 c3 c4 c5 0 0 1 0 0 w 0 w h 0 h
               (r3x + e_value) (r3y + e_value) (mercX lo3) (mercY la3)
               _ _ _ _ _ _ _ _ Q123 Q423 Q143 Q124 I123 C1 C2 C3 C4 P3).
    reflexivity.
Qed.

End AffineCorners.

(** Eight numbers that are signed decimals. *)
Lemma sample_numbers_signedDecimal :
  Forall signedDecimal
    [MapEdit.str "60.1"; MapEdit.str "24.9"; MapEdit.str "60.1";
     MapEdit.str "25.0"; MapEdit.str "60.0"; MapEdit.str "25.0";
     MapEdit.str "60.0"; MapEdit.str "-24.9"].
Proof.
  repeat constructor; apply Matches_numberRe, matches_Matches; reflexivity.
Qed.

(** X24, instance: the string [60.1,24.9,60.1,25.0,60.0,25.0,60.0,-24.9]. *)
Lemma isValidCalibString_split_witness :
  List.length
    (MapEdit.split "," (MapEdit.str "60.1,24.9,60.1,25.0,60.0,25.0,60.0,-24.9")) = 8%nat /\
  Forall signedDecimal
    (MapEdit.split "," (MapEdit.str "60.1,24.9,60.1,25.0,60.0,25.0,60.0,-24.9")) /\
  MapEdit.join (MapEdit.str ",")
    (MapEdit.split "," (MapEdit.str "60.1,24.9,60.1,25.0,60.0,25.0,60.0,-24.9"))
  = MapEdit.str "60.1,24.9,60.1,25.0,60.0,25.0,60.0,-24.9".
Proof.
  apply (@isValidCalibString_split
           (MapEdit.str "60.1,24.9,60.1,25.0,60.0,25.0,60.0,-24.9")).
  reflexivity.
Defined.

(** X26, instance: the PDF [map_60.1_24.9_60.1_25.0_60.0_25.0_60.0_-24.9_.pdf]. *)
Lemma pdf_name_keeps_calibration_witness :
  MapEdit.extractCornersCoordsFromFilename
    (MapEditForm.pdfImageName
       (MapEdit.str "map" ++
        conventionSuffix
          [MapEdit.str "60.1"; MapEdit.str "24.9"; MapEdit.str "60.1";
           MapEdit.str "25.0"; MapEdit.str "60.0"; MapEdit.str "25.0";
           MapEdit.str "60.0"; MapEdit.str "-24.9"]
          (MapEdit.str "pdf")))
  = Some (MapEdit.join (MapEdit.str ",")
            [MapEdit.str "60.1"; MapEdit.str "24.9"; MapEdit.str "60.1";
             MapEdit.str "25.0"; MapEdit.str "60.0"; MapEdit.str "25.0";
             MapEdit.str "60.0"; MapEdit.str "-24.9"]).
Proof.
  apply pdf_name_keeps_calibration.
  - reflexivity.
  - exact sample_numbers_signedDecimal.
  - simpl. intros [C|[C|[C|[]]]]; discriminate.
Defined.

(** X29, instance: the four raster markers on the corners of a 1000x800
    image, the world markers on the corners of the rectangle from 60.0
    to 60.1 degrees north and from 24.9 to 25.0 degrees east. *)
Lemma computeCorners_four_markers_witness :
  let s :=
    MapEditForm.mkHelper
      [Geo.mkPoint (Fin 0) (Fin 0); Geo.mkPoint (Fin 1000) (Fin 0);
       Geo.mkPoint (Fin 1000) (Fin 800); Geo.mkPoint (Fin 0) (Fin 800)]
      [Geo.mkLatLon (Fin 60.1) (Fin 24.9); Geo.mkLatLon (Fin 60.1) (Fin 25);
       Geo.mkLatLon (Fin 60) (Fin 25); Geo.mkLatLon (Fin 60) (Fin 24.9)]
      true false in
  exists c1 c2 c3 c4,
    MapEditForm.computeCorners s (Fin 1000) (Fin 800) [] = [c1; c2; c3; c4] ++ skipn 4 [] /\
    let transform := Geo.cornerCalTransform (Fin 1000) (Fin 800) c1 c2 c3 c4 in
    transform (Geo.mkLatLon (Fin 60.1) (Fin 24.9)) = Geo.mkPoint (Fin 0) (Fin 0) /\
    transform (Geo.mkLatLon (Fin 60.1) (Fin 25)) = Geo.mkPoint (Fin 1000) (Fin 0) /\
    transform (Geo.mkLatLon (Fin 60) (Fin 25)) = Geo.mkPoint (Fin 1000) (Fin 800) /\
    transform (Geo.mkLatLon (Fin 60) (Fin 24.9)) = Geo.mkPoint (Fin 0) (Fin 800).
Proof.
  intros s.
  destruct sample_rectangle_not_collinear as (D1 & D2 & D3 & D4).
  destruct (@pixel_corners_nonzero 1000 800)%R as (Q1 & Q2 & Q3 & Q4); try lra.
  apply (@computeCorners_four_markers s 1000 800 []
           0 0 1000 0 1000 800 0 800 60.1 24.9 60.1 25 60 25 60 24.9)%R;
    try assumption; try reflexivity; try lra.
  unfold s, MapEditForm.computeCorners.
  cbn [MapEditForm.markersRaster MapEditForm.markersWorld].
  rewrite general2DProjection_points.
  rewrite !LatLonToMeters_fin by lra. cbn [Geo.px Geo.py].
  rewrite project_p1, project_p2, project_p3, project_p4 by assumption.
  cbn [map app firstn skipn fst snd].
  rewrite !MetersToLatLon_fin.
  repeat constructor; eexists; reflexivity.
Defined.

(** X30, instance: three raster markers on the corners (0,0), (1000,0)
    and (0,800) of a 1000x800 image and the world markers on the
    matching corners of that rectangle. *)
Lemma computeCorners_three_markers_witness :
  let s :=
    MapEditForm.mkHelper
      [Geo.mkPoint (Fin 0) (Fin 0); Geo.mkPoint (Fin 1000) (Fin 0);
       Geo.mkPoint (Fin 0) (Fin 800)]
      [Geo.mkLatLon (Fin 60.1) (Fin 24.9); Geo.mkLatLon (Fin 60.1) (Fin 25);
       Geo.mkLatLon (Fin 60) (Fin 24.9)]
      true true in
  exists c1 c2 c3 c4,
    MapEditForm.computeCorners s (Fin 1000) (Fin 800) [] = [c1; c2; c3; c4] /\
    let transform := Geo.cornerCalTransform (Fin 1000) (Fin 800) c1 c2 c3 c4 in
    transform (Geo.mkLatLon (Fin 60.1) (Fin 24.9))
      = Geo.mkPoint (Fin (0 - MapEdit.e_value)) (Fin (0 + MapEdit.e_value)) /\
    transform (Geo.mkLatLon (Fin 60.1) (Fin 25))
      = Geo.mkPoint (Fin (1000 + MapEdit.e_value)) (Fin (0 - MapEdit.e_value)) /\
    transform (Geo.mkLatLon (Fin 60) (Fin 24.9))
      = Geo.mkPoint (Fin (0 + MapEdit.e_value)) (Fin (800 + MapEdit.e_value)).
Proof.
  intros s.
  assert (HY : (mercY 60 < mercY 60.1)%R) by (apply mercY_increasing; lra).
  assert (HX : (mercX 24.9 < mercX 25)%R) by (apply mercX_increasing; lra).
  apply (@computeCorners_three_markers s 1000 800 []
           0 0 1000 0 0 800 [] 60.1 24.9 60.1 25 60 24.9 [])%R;
    try reflexivity; try lra.
  - intros [C _]. discriminate.
  - generalize e_value_small. generalize MapEdit.e_value. intros e He.
    unfold det3. intros C. nra.
  - unfold det3. intros C. nra.
Defined.
